(** * MegaByte (bla_gpt/megabyte.py): a shallow embedding and its properties

    The definitions come first, module by module:
    - [Py]       : Python and torch conventions shared by every part
                   (exceptions, the result monad, shapes);
    - [Store]    : integer tensors living in a shared store, with views,
                   in-place slice assignment and [torch.cat]; the three
                   statements that open [MegaByte.forward];
    - [Helpers]  : [remainder_to_mult], [reduce_mult], [cast_tuple],
                   [token_shift], [top_k];
    - [Shapes]   : [Attention], [FeedForward], [Transformer.forward],
                   [MegaByte.__init__], [forward_empty], [forward] and
                   [generate], with every tensor replaced by its shape;
    - [Values]   : the labels and the loss of [forward], the logits it
                   returns and the inter-stage projector, on the entries
                   of the tensors;
    - [Once], [Mask], [Vectors], [Sampling] : [once] and [print_once],
                   the causal mask of [Attend], rotary positions and
                   [RMSNorm] on one vector, the Gumbel noise and
                   [gumbel_sample].
    The properties follow.

    The entries of floating-point tensors are only moved around (sliced,
    concatenated, scattered) or compared by the code read on values, so
    those functions are polymorphic in the entry type.  The loss is read
    over the real numbers; the count of [top_k] is computed in binary64
    as Python does. *)

From Stdlib Require Import ZArith List Lia QArith Reals Lra SpecFloat.
From stdpp Require Import base option list gmap.

(* ===================================================================== *)
(** * Python and torch conventions                                        *)
(* ===================================================================== *)

Module Py.

(** The exceptions the modelled code can raise. *)
Inductive error : Type :=
  | TypeError        (* a call that does not bind a required parameter *)
  | ValueError       (* tuple unpacking with the wrong number of values *)
  | IndexError       (* too many indices, index out of range *)
  | AssertionError   (* a failed [assert] *)
  | ZeroDivisionError
  | NameError        (* a local variable read before any assignment *)
  | OverflowError    (* [int] of an infinite float *)
  | RuntimeError.    (* torch or einops: shape mismatch, overlapping copy *)

Inductive result (A : Type) : Type :=
  | Ok (a : A)
  | Raise (e : error).
Arguments Ok {A} a.
Arguments Raise {A} e.

#[export] Instance result_ret : MRet result := fun _ a => Ok a.
#[export] Instance result_bind : MBind result := fun _ _ f m =>
  match m with Ok a => f a | Raise e => Raise e end.

#[export] Instance result_fmap : FMap result := fun _ _ f m =>
  match m with Ok a => Ok (f a) | Raise e => Raise e end.

#[export] Instance error_eq_dec : EqDecision error.
Proof. solve_decision. Defined.

Definition assert (b : bool) : result unit :=
  if b then Ok tt else Raise AssertionError.

(** A tensor's shape. *)
Definition shape := list nat.

Definition numel (s : shape) : nat := fold_right Nat.mul 1 s.

(** [l[:-1]] on a list. *)
Definition but_last {A} (l : list A) : list A := take (length l - 1) l.

End Py.
Import Py.

(* ===================================================================== *)
(** * Integer tensors in a store                                          *)
(* ===================================================================== *)

Module Store.

(** A 2-D integer tensor is a block of rows in the store.  Basic slicing
    returns a view: the same block, restricted to the columns
    [v_off, v_off + v_cols) of every row. *)
Definition loc := positive.

Record view : Type := View { v_base : loc; v_off : nat; v_cols : nat }.

Abbreviation heap := (gmap loc (list (list Z))).

(** [t[:, :-1]] *)
Definition slice_to_m1 (v : view) : view :=
  View (v_base v) (v_off v) (v_cols v - 1).

(** [t[:, 1:]] *)
Definition slice_from_1 (v : view) : view :=
  View (v_base v) (v_off v + Nat.min 1 (v_cols v)) (v_cols v - 1).

(** [t[:, -1:]] *)
Definition slice_from_m1 (v : view) : view :=
  View (v_base v) (v_off v + (v_cols v - 1)) (Nat.min 1 (v_cols v)).

Definition window (v : view) (row : list Z) : list Z :=
  take (v_cols v) (drop (v_off v) row).

(** The entries a view shows. *)
Definition read (h : heap) (v : view) : option (list (list Z)) :=
  map (window v) <$> h !! v_base v.

(** Element-wise copy inside one row of one block, in ascending column
    order: [row[d + j] = row[s + j]] for [j = 0 .. n-1], each read seeing
    the writes before it. *)
Fixpoint move_cols (n d s : nat) (row : list Z) : list Z :=
  match n with
  | O => row
  | S n' =>
      let row' := match row !! s with
                  | Some x => <[d := x]> row
                  | None => row
                  end in
      move_cols n' (S d) (S s) row'
  end.

(** Element-wise copy between two different blocks. *)
Fixpoint copy_cols (n d s : nat) (dst src : list Z) : list Z :=
  match n with
  | O => dst
  | S n' =>
      let dst' := match src !! s with
                  | Some x => <[d := x]> dst
                  | None => dst
                  end in
      copy_cols n' (S d) (S s) dst' src
  end.

(** The row length of a block: the stride between two of its rows. *)
Definition pitch (m : list (list Z)) : nat :=
  match m with
  | [] => 0
  | row :: _ => length row
  end.

(** torch's [is_non_overlapping_and_dense] for a view of [rows] rows cut
    from a block of row stride [p] (the column stride is 1): axes of size
    below 2 are not looked at, and the other strides have to be those of
    a contiguous tensor. *)
Definition dense (rows p : nat) (v : view) : bool :=
  (rows <? 2) || (if v_cols v <? 2 then p =? 1 else p =? v_cols v).

(** torch's check before a copy between two views of one block
    ([assert_no_partial_overlap]): when both views have elements and are
    dense, the memory ranges [off, off + numel) they span must be the
    same range or disjoint ranges.  Views that are not dense are not
    checked. *)
Definition partial_overlap (rows p : nat) (dst src : view) : bool :=
  let n := rows * v_cols dst in
  negb (n =? 0) && dense rows p dst && dense rows p src
  && negb (v_off dst =? v_off src)
  && (v_off dst <? v_off src + n) && (v_off src <? v_off dst + n).

(** [dst[...] = src] for two views of equal size.  Inside one block the
    copy is refused with [RuntimeError] on a partial overlap, and the
    block is left as it was. *)
Definition setitem (h : heap) (dst src : view) : result heap :=
  if negb (v_cols dst =? v_cols src) then Raise RuntimeError else
  match h !! v_base dst, h !! v_base src with
  | Some md, Some ms =>
      if decide (v_base dst = v_base src) then
        if partial_overlap (length md) (pitch md) dst src
        then Raise RuntimeError
        else
        Ok (<[v_base dst := map (move_cols (v_cols dst) (v_off dst) (v_off src)) md]> h)
      else if negb (length md =? length ms) then Raise RuntimeError
      else
        Ok (<[v_base dst :=
                zip_with (copy_cols (v_cols dst) (v_off dst) (v_off src)) md ms]> h)
  | _, _ => Raise RuntimeError
  end.

(** [torch.cat((a, b), dim=-1)] on 2-D tensors: a new block whose rows are
    the rows of [a] followed by those of [b]; the row counts must agree. *)
Definition cat_last (h : heap) (a b : view) : result (heap * view) :=
  match read h a, read h b with
  | Some ra, Some rb =>
      if negb (length ra =? length rb) then Raise RuntimeError
      else
        let l := fresh (dom h) in
        Ok (<[l := zip_with app ra rb]> h, View l 0 (v_cols a + v_cols b))
  | _, _ => Raise RuntimeError
  end.

(** The first three statements of [MegaByte.forward]:
<<
    ids = ids[:, :-1]
    ids[:, :-1] = ids[:, 1:]
    ids = torch.cat((ids, targets[:, -1:]), dim=-1)
>>
    The result is the store after them and the view bound to [ids]. *)
Definition forward_preamble (h : heap) (ids targets : view)
  : result (heap * view) :=
  let ids1 := slice_to_m1 ids in
  h1 ← setitem h (slice_to_m1 ids1) (slice_from_1 ids1);
  cat_last h1 ids1 (slice_from_m1 targets).

(** What one row of the caller's tensor holds after the in-place
    assignment, for a view starting at column [off] with [T] columns. *)
Definition shifted_row (off T : nat) (row : list Z) : list Z :=
  take off row ++ take (T - 2) (drop (S off) row) ++ drop (off + (T - 2)) row.

(** A tensor given by the caller as a whole block. *)
Definition whole (l : loc) (T : nat) : view := View l 0 T.
Arguments whole l%_positive T%_nat.

Definition rect (T : nat) (m : list (list Z)) : Prop :=
  Forall (fun row => length row = T) m.

(** Stores for examples: block 1 holds the ids, block 2 the targets. *)
Definition store_of (ids targets : list (list Z)) : heap :=
  <[2%positive := targets]> (<[1%positive := ids]> ∅).

End Store.

(* ===================================================================== *)
(** * Helpers                                                             *)
(* ===================================================================== *)

Module Helpers.

(** [remainder_to_mult(num, mult) = (mult - num % mult) % mult]; Python's
    [%] raises on a zero divisor. *)
Definition remainder_to_mult (num mult : nat) : result nat :=
  if mult =? 0 then Raise ZeroDivisionError
  else Ok ((mult - num mod mult) mod mult).

(** [reduce_mult(nums) = functools.reduce(lambda x, y: x * y, nums, 1)] *)
Definition reduce_mult (nums : list nat) : nat := fold_left Nat.mul nums 1.

(** [cast_tuple(t, length)]: the configured [dim] is a tuple or one int. *)
Inductive dim_spec : Type :=
  | DimInt (d : nat)
  | DimTuple (ds : list nat).

Definition cast_tuple (t : dim_spec) (len : nat) : list nat :=
  match t with
  | DimTuple ds => ds
  | DimInt d => replicate len d
  end.

(** ** torch.chunk and F.pad, as [token_shift] uses them *)

(** [torch.split] sizes: pieces of [split_size], the last one smaller. *)
Definition split_sizes (dim_size split_size : nat) : list nat :=
  let num := Nat.max ((dim_size + split_size - 1) / split_size) 1 in
  replicate (num - 1) split_size ++ [split_size - (split_size * num - dim_size)].

(** [torch.chunk(chunks)] sizes along an axis of [dim_size] entries: the
    split size is the ceiling of [dim_size / chunks], so fewer than
    [chunks] pieces come back when the axis is too short. *)
Definition chunk_sizes (chunks dim_size : nat) : list nat :=
  let split_size := (dim_size + chunks - 1) / chunks in
  if split_size =? 0 then replicate chunks 0
  else split_sizes dim_size split_size.

(** A 3-D tensor [(batch, seq, feature)] with its two inner sizes. *)
Record tensor3 (A : Type) : Type := T3 {
  t3_seq : nat;
  t3_feat : nat;
  t3_data : list (list (list A))
}.
Arguments T3 {A} _ _ _.
Arguments t3_seq {A} _.
Arguments t3_feat {A} _.
Arguments t3_data {A} _.

Definition wf3 {A} (t : tensor3 A) : Prop :=
  Forall (fun s => length s = t3_seq t
                   /\ Forall (fun v => length v = t3_feat t) s) (t3_data t).

Section TokenShift.
Context {A : Type} (zero : A).

(** [F.pad(x, (0, 0, front, -crop))] on [(batch, n, d)]: [front] zero
    positions are put before the sequence and [crop] positions are cut
    from its end; cutting more than there is raises. *)
Definition pad_seq (front crop : nat) (n d : nat)
    (x : list (list (list A))) : result (list (list (list A))) :=
  if n <? crop then Raise RuntimeError
  else Ok (map (fun s => replicate front (replicate d zero)
                         ++ take (n - crop) s) x).

(** 
<<
  def token_shift(t):
      t, t_shift = t.chunk(2, dim=-1)
      t_shift = F.pad(t_shift, (0, 0, 1, -1))
      return torch.cat((t, t_shift), dim=-1)
>>  *)
Definition token_shift (t : tensor3 A) : result (tensor3 A) :=
  match chunk_sizes 2 (t3_feat t) with
  | [s1; s2] =>
      let t_keep := map (map (take s1)) (t3_data t) in
      let t_shift := map (map (fun v => take s2 (drop s1 v))) (t3_data t) in
      t_shift' ← pad_seq 1 1 (t3_seq t) s2 t_shift;
      Ok (T3 (1 + (t3_seq t - 1)) (s1 + s2)
             (zip_with (zip_with app) t_keep t_shift'))
  | _ => Raise ValueError
  end.

End TokenShift.

(** ** top_k *)

(** A Python number: an int, or a float (binary64). *)
Inductive number : Type :=
  | PyInt (z : Z)
  | PyFloat (f : spec_float).

(** [float(z)], rounded to the nearest binary64. *)
Definition b64 (z : Z) : spec_float := binary_normalize 53 1024 z 0 false.

(** The float Python reads from a literal of value [q]: the binary64
    nearest to it (numerator and denominator below 2^53). *)
Definition float_lit (q : Q) : spec_float :=
  SFdiv 53 1024 (b64 (Qnum q)) (b64 (Zpos (Qden q))).

(** [int(f)]: truncation toward zero; [int] of an infinity or of a NaN
    raises. *)
Definition py_int (f : spec_float) : result Z :=
  match f with
  | S754_zero _ => Ok 0%Z
  | S754_finite s m e =>
      Ok (cond_Zopp s (if (0 <=? e)%Z then Zpos m * 2 ^ e
                       else Zpos m / 2 ^ (- e)))%Z
  | S754_infinity _ => Raise OverflowError
  | S754_nan => Raise ValueError
  end.

(** [k = max(int((1 - thres) * num_logits), 1)]: exact for an int
    [thres]; for a float, the difference and the product are each
    rounded to binary64 before [int] truncates. *)
Definition top_k_count (thres : number) (num_logits : nat) : result Z :=
  k ← match thres with
      | PyInt z => Ok ((1 - z) * Z.of_nat num_logits)%Z
      | PyFloat f =>
          py_int (SFmul 53 1024 (SFsub 53 1024 (b64 1) f)
                                (b64 (Z.of_nat num_logits)))
      end;
  Ok (Z.max k 1).

Section TopK.
Context {A : Type} (neg_inf : A) (leb : A -> A -> bool).

(** [torch.topk(row, k)] returns [k] entries of the row with their
    columns.  torch promises which entries only up to ties, so the
    selection is a parameter [select] of the model.  What is known of
    it for [k] up to the row's length: it returns [k] different
    columns, each with the row's entry at it ([topk_columns]), and no
    entry left out is larger than an entry returned ([topk_spec]). *)
Definition topk_columns (select : nat -> list A -> list (nat * A)) : Prop :=
  forall k row, k <= length row ->
    let sel := select k row in
    length sel = k
    /\ NoDup sel.*1
    /\ (forall i x, (i, x) ∈ sel -> row !! i = Some x).

Definition topk_spec (select : nat -> list A -> list (nat * A)) : Prop :=
  topk_columns select
  /\ forall k row, k <= length row ->
       let sel := select k row in
       forall i x j y, (i, x) ∈ sel -> row !! j = Some y ->
         j ∉ sel.*1 -> leb y x = true.

(** One selection that does it, used for examples without ties. *)

(** The better of a candidate and the best so far: the candidate wins a
    tie. *)
Definition better (c : nat * A) (best : option (nat * A))
  : option (nat * A) :=
  match best with
  | None => Some c
  | Some b => if leb (snd b) (snd c) then Some c else Some b
  end.

(** The largest entry of a row among the columns not yet taken, with
    its column. *)
Definition pick (taken : list nat) (row : list A) : option (nat * A) :=
  foldr better None (filter (fun c => fst c ∉ taken) (imap pair row)).

Fixpoint topk_from (k : nat) (taken : list nat) (row : list A)
  : list (nat * A) :=
  match k with
  | O => []
  | S k' =>
      match pick taken row with
      | None => []
      | Some c => c :: topk_from k' (fst c :: taken) row
      end
  end.

Definition largest_first (k : nat) (row : list A) : list (nat * A) :=
  topk_from k [] row.

Context (select : nat -> list A -> list (nat * A)).

(** [torch.topk(logits, k)] on a tensor of [n] columns: for every row
    the values and the columns of the selected entries; [k] larger than
    [n] raises. *)
Definition topk (n : nat) (logits : list (list A)) (k : nat)
  : result (list (list A * list nat)) :=
  if n <? k then Raise RuntimeError
  else Ok (map (fun row => let sel := select k row in (sel.*2, sel.*1))
               logits).

(** [probs.scatter_(1, ind, val)] on one row. *)
Definition scatter_row (probs : list A) (ind : list nat) (val : list A)
  : list A :=
  fold_left (fun p iv => <[fst iv := snd iv]> p) (zip ind val) probs.

(**
<<
  def top_k(logits, thres=0.5):
      num_logits = logits.shape[-1]
      k = max(int((1 - thres) * num_logits), 1)
      val, ind = torch.topk(logits, k)
      probs = torch.full_like(logits, float("-inf"))
      probs.scatter_(1, ind, val)
      return probs
>>
    [logits] is a 2-D tensor of [num_logits] columns. *)
Definition top_k (num_logits : nat) (logits : list (list A))
    (thres : number) : result (list (list A)) :=
  k ← top_k_count thres num_logits;
  sel ← topk num_logits logits (Z.to_nat k);
  Ok (zip_with (fun row vi => scatter_row (replicate num_logits neg_inf)
                                          (snd vi) (fst vi))
               logits sel).

(** The columns [top_k] keeps in one row when the count is [k]. *)
Definition kept (k : nat) (row : list A) : list nat := (select k row).*1.

End TopK.

(** Logit values for examples: an integer or minus infinity. *)
Inductive xint : Type := NegInf | Fin (z : Z).

Definition xint_leb (a b : xint) : bool :=
  match a, b with
  | NegInf, _ => true
  | Fin _, NegInf => false
  | Fin x, Fin y => (x <=? y)%Z
  end.

End Helpers.

(* ===================================================================== *)
(** * The model, read on shapes                                           *)
(* ===================================================================== *)

(** Every tensor is replaced by its shape.  Embedding tables, linear
    layers and layer norms check the size of the feature axis they were
    built for; dropout, GELU and the softmax keep the shape of what they
    are given.  Two checks that torch makes on entries rather than on
    shapes are kept: the overlap of the two sides of the in-place
    assignment that opens [forward], and the range of the pad id that
    [forward] itself writes into the ids before they are embedded.  The
    ids that the caller passes are taken to be inside the embedding
    table, in a tensor that is contiguous or a slice of the columns of a
    contiguous one. *)

Module Shapes.
Import Helpers.

(** ** Shape operations of torch and einops *)

Definition unsnoc (s : shape) : option (shape * nat) :=
  match reverse s with
  | d :: r => Some (reverse r, d)
  | [] => None
  end.

Definition unsnoc2 (s : shape) : option (shape * nat * nat) :=
  match reverse s with
  | d :: n :: r => Some (reverse r, n, d)
  | _ => None
  end.

(** [t[:, f]]: a slice of axis 1 that turns its size [n] into [f n]. *)
Definition slice_axis1 (f : nat -> nat) (s : shape) : result shape :=
  match s with
  | b :: n :: rest => Ok (b :: f n :: rest)
  | _ => Raise IndexError
  end.

(** [t[..., f, :]]: a slice of the axis before the last. *)
Definition slice_axis_m2 (f : nat -> nat) (s : shape) : result shape :=
  match unsnoc2 s with
  | Some (outer, n, d) => Ok (outer ++ [f n; d])
  | None => Raise IndexError
  end.

Definition to_m1 (n : nat) : nat := n - 1.          (* [:-1] *)
Definition from_1 (n : nat) : nat := n - Nat.min 1 n. (* [1:]  *)
Definition from_m1 (n : nat) : nat := Nat.min 1 n.  (* [-1:] *)

(** [torch.cat((a, b), dim=-1)] and [dim=-2]: all other sizes agree. *)
Definition cat_m1 (a b : shape) : result shape :=
  match unsnoc a, unsnoc b with
  | Some (oa, x), Some (ob, y) =>
      if decide (oa = ob) then Ok (oa ++ [x + y]) else Raise RuntimeError
  | _, _ => Raise RuntimeError
  end.

Definition cat_m2 (a b : shape) : result shape :=
  match unsnoc2 a, unsnoc2 b with
  | Some (oa, x, da), Some (ob, y, db) =>
      if decide (oa = ob /\ da = db) then Ok (oa ++ [x + y; da])
      else Raise RuntimeError
  | _, _ => Raise RuntimeError
  end.

(** Broadcasting of an element-wise operation, sizes aligned at the end. *)
Fixpoint broadcast_rev (a b : list nat) : result (list nat) :=
  match a, b with
  | [], _ => Ok b
  | _, [] => Ok a
  | x :: a', y :: b' =>
      r ← broadcast_rev a' b';
      if x =? y then Ok (x :: r)
      else if x =? 1 then Ok (y :: r)
      else if y =? 1 then Ok (x :: r)
      else Raise RuntimeError
  end.

Definition broadcast (a b : shape) : result shape :=
  r ← broadcast_rev (reverse a) (reverse b); Ok (reverse r).

(** [x.reshape(batch, -1, r1, ..., rk)] *)
Definition reshape_infer (s : shape) (batch : nat) (rest : list nat)
  : result shape :=
  let known := batch * numel rest in
  if known =? 0 then Raise RuntimeError
  else if negb (numel s mod known =? 0) then Raise RuntimeError
  else Ok (batch :: numel s / known :: rest).

(** [x.reshape(d1, ..., dk)] *)
Definition reshape (s : shape) (dims : list nat) : result shape :=
  if numel s =? numel dims then Ok dims else Raise RuntimeError.

(** [rearrange(x, "... m n -> ... (m n)")] *)
Definition merge_last2 (s : shape) : result shape :=
  match unsnoc2 s with
  | Some (outer, m, n) => Ok (outer ++ [m * n])
  | None => Raise RuntimeError
  end.

(** [rearrange(x, "b ... c -> b (...) c")] and the projector's
    ["b ... d -> b (...) d"]. *)
Definition flatten_middle (s : shape) : result shape :=
  match s with
  | b :: rest =>
      match unsnoc rest with
      | Some (mid, c) => Ok [b; numel mid; c]
      | None => Raise RuntimeError
      end
  | [] => Raise RuntimeError
  end.

(** [rearrange(ids, "b ... -> b (...)")] *)
Definition flatten_tail (s : shape) : result shape :=
  match s with
  | b :: rest => Ok [b; numel rest]
  | [] => Raise RuntimeError
  end.

(** [nn.Linear(i, o)]: the last axis must have [i] entries. *)
Definition linear (i o : nat) (s : shape) : result shape :=
  match unsnoc s with
  | Some (outer, d) =>
      if d =? i then Ok (outer ++ [o]) else Raise RuntimeError
  | None => Raise RuntimeError
  end.

(** [F.pad(x, (0, 0, 1, 0))] *)
Definition pad_front1 (s : shape) : result shape :=
  match unsnoc2 s with
  | Some (outer, n, d) => Ok (outer ++ [n + 1; d])
  | None => Raise RuntimeError
  end.

(** ** Configuration and construction *)

Record MegaByteConfig : Type := Config {
  num_tokens : nat;
  dim : dim_spec;
  depth : list nat;
  max_seq_len : list nat;
  dim_head : nat;
  heads : nat;
  ff_mult : nat;
  pad_id : Z;
  rel_pos : bool;
  pos_emb : bool;
  flash_attn : bool
}.

(** [nn.Embedding(n, d)] *)
Record Embedding : Type := Emb { emb_num : nat; emb_dim : nat }.

(** An entry of [token_embs]: the plain table of the finest stage, or the
    sequence table, flattening of one patch, layer norm, linear, layer
    norm of a coarser stage. *)
Inductive token_emb : Type :=
  | TokFine (e : Embedding)
  | TokPatch (e : Embedding) (patch_size dim_out : nat).

(** A [Transformer(dim, layers, dim_head, heads, ff_mult, rel_pos)] as
    [__init__] builds one for every stage. *)
Record Transformer : Type := Tr {
  tr_dim : nat;
  tr_layers : nat;
  tr_dim_head : nat;
  tr_heads : nat;
  tr_ff_mult : nat;
  tr_rel_pos : bool
}.

(** An entry of [to_next_transformer_projections]. *)
Inductive projection : Type :=
  | Identity
  | Project (h_dim next_h_dim next_seq_len : nat).

Record MegaByte : Type := Model {
  stages : nat;
  mb_max_seq_len : list nat;
  start_tokens : list nat;
  pos_embs : option (list Embedding);
  token_embs : list token_emb;
  transformers : list Transformer;
  to_next_transformer_projections : list projection;
  to_logits : nat * nat;
  mb_pad_id : Z
}.

(** [itertools.zip_longest] of four and of three lists. *)
Definition zip_longest4 {A B C D} (a : list A) (b : list B) (c : list C)
    (d : list D) : list (option A * option B * option C * option D) :=
  map (fun i => (a !! i, b !! i, c !! i, d !! i))
      (seq 0 (Nat.max (Nat.max (Nat.max (length a) (length b)) (length c))
                      (length d))).

Definition zip_longest3 {A B C} (a : list A) (b : list B) (c : list C)
  : list (option A * option B * option C) :=
  map (fun i => (a !! i, b !! i, c !! i))
      (seq 0 (Nat.max (Nat.max (length a) (length b)) (length c))).

(** The loop that appends the coarser stages' token embeddings. *)
Fixpoint patch_embs (nt fine_dim patch_size : nat) (l : list (nat * nat))
  : list token_emb :=
  match l with
  | [] => []
  | (dim_out, seq_len) :: l' =>
      let patch_size := patch_size * seq_len in
      TokPatch (Emb nt fine_dim) patch_size dim_out
      :: patch_embs nt fine_dim patch_size l'
  end.

(** One turn of the loop that builds a stage's transformer and its
    projection to the next stage. *)
Definition build_stage (config : MegaByteConfig)
    (it : option nat * option nat * option nat * option nat)
  : result (Transformer * projection) :=
  match it with
  | (Some h_dim, next_h_dim, Some stage_depth, next_seq_len) =>
      let tr := Tr h_dim stage_depth (dim_head config) (heads config)
                   (ff_mult config) (rel_pos config) in
      match next_h_dim with
      | None => Ok (tr, Identity)
      | Some nh =>
          match next_seq_len with
          | Some ns => Ok (tr, Project h_dim nh ns)
          | None => Raise TypeError
          end
      end
  | _ => Raise TypeError
  end.

(** [MegaByte.__init__] *)
Definition init (config : MegaByteConfig) : result MegaByte :=
  _ ← assert (length (depth config) =? length (max_seq_len config));
  let stages := length (depth config) in
  let dim := cast_tuple (dim config) stages in
  _ ← assert (length dim =? stages);
  fine_dim ← match unsnoc dim with
             | Some (_, d) => Ok d
             | None => Raise ValueError
             end;
  let max_seq_len := max_seq_len config in
  let start_tokens := (zip dim max_seq_len).*1 in
  let pos_embs :=
    if pos_emb config
    then Some (map (fun p => Emb (snd p) (fst p)) (zip dim max_seq_len))
    else None in
  let token_embs :=
    TokFine (Emb (num_tokens config) fine_dim)
    :: patch_embs (num_tokens config) fine_dim 1
         (zip (reverse (removelast dim)) (reverse (tail max_seq_len))) in
  built ← mapM (build_stage config)
            (zip_longest4 dim (tail dim) (depth config) (tail max_seq_len));
  Ok (Model stages max_seq_len start_tokens pos_embs token_embs
            built.*1 built.*2 (fine_dim, num_tokens config)
            (pad_id config)).

(** The transformer and the projection that [init] builds for stage [i]
    of [S], read off the configured lists. *)
Definition projection_at (S : nat) (dims msl : list nat) (i : nat)
  : projection :=
  if decide (i + 1 < S)
  then Project (dims !!! i) (dims !!! (i + 1)) (msl !!! (i + 1))
  else Identity.

Definition stage_at (config : MegaByteConfig) (S : nat)
    (dims depth msl : list nat) (i : nat) : Transformer * projection :=
  (Tr (dims !!! i) (depth !!! i) (dim_head config) (heads config)
      (ff_mult config) (rel_pos config),
   projection_at S dims msl i).

(** ** The modules applied to shapes *)

(** [nn.Embedding] on integer ids: one feature vector per id, and an
    [IndexError] for an id outside the table.  [written] holds the ids
    that [forward] has put into the tensor itself. *)
Definition embedding (e : Embedding) (written : list Z) (ids : shape)
  : result shape :=
  if forallb (fun v => (0 <=? v)%Z && (v <? Z.of_nat (emb_num e))%Z) written
  then Ok (ids ++ [emb_dim e])
  else Raise IndexError.

(** A token embedding of [token_embs].  For a coarser stage:
    [Embedding], [Rearrange("... r d -> ... (r d)")],
    [LayerNorm(patch_size * fine_dim)],
    [Linear(patch_size * fine_dim, dim_out)], [LayerNorm(dim_out)]. *)
Definition apply_token_emb (t : token_emb) (written : list Z) (ids : shape)
  : result shape :=
  match t with
  | TokFine e => embedding e written ids
  | TokPatch e patch_size dim_out =>
      x ← embedding e written ids;
      x ← merge_last2 x;
      x ← linear (patch_size * emb_dim e) (patch_size * emb_dim e) x;
      linear (patch_size * emb_dim e) dim_out x
  end.

(** [tokens + pos_emb(torch.arange(tokens.shape[-2]))] *)
Definition add_positions (pe : Embedding) (tokens : shape) : result shape :=
  match unsnoc2 tokens with
  | Some (_, n, _) =>
      if emb_num pe <? n then Raise IndexError
      else broadcast tokens [n; emb_dim pe]
  | None => Raise IndexError
  end.

(** [token_shift] on a shape: [chunk(2)] has to give two pieces of the
    feature axis, and [F.pad(..., (0, 0, 1, -1))] a position to cut. *)
Definition token_shift_shape (x : shape) : result shape :=
  match unsnoc2 x with
  | Some (outer, n, d) =>
      match chunk_sizes 2 d with
      | [s1; s2] =>
          if n <? 1 then Raise RuntimeError
          else Ok (outer ++ [1 + (n - 1); s1 + s2])
      | _ => Raise ValueError
      end
  | None => Raise RuntimeError
  end.

(** [RMSNorm(dim).forward]: [x / norm.clamp(min=eps) * g], with [g] of
    [dim] entries. *)
Definition rms_norm (dim : nat) (x : shape) : result shape :=
  broadcast x [dim].

(** [FeedForward(dim, mult)]: [RMSNorm(dim)], [Linear(dim, dim * mult)],
    [GELU], [Dropout], [Linear(dim * mult, dim)]. *)
Definition feed_forward (dim mult : nat) (x : shape) : result shape :=
  x ← rms_norm dim x;
  x ← linear dim (dim * mult) x;
  linear (dim * mult) dim x.

(** [x.chunk(2, dim=-1)], unpacked into two names. *)
Definition chunk2 (x : shape) : result (shape * shape) :=
  match unsnoc x with
  | Some (outer, d) =>
      match chunk_sizes 2 d with
      | [s1; s2] => Ok (outer ++ [s1], outer ++ [s2])
      | _ => Raise ValueError
      end
  | None => Raise RuntimeError
  end.

(** [rearrange(t, "b n (h d) -> b h n d", h=h)]; einops divides the
    last size by [h]. *)
Definition split_heads (h : nat) (t : shape) : result shape :=
  match t with
  | [b; n; hd] =>
      if h =? 0 then Raise ZeroDivisionError
      else if hd mod h =? 0 then Ok [b; h; n; hd / h]
      else Raise RuntimeError
  | _ => Raise RuntimeError
  end.

(** [rearrange(out, "b h n d -> b n (h d)")] *)
Definition merge_heads (t : shape) : result shape :=
  match t with
  | [b; h; n; d] => Ok [b; n; h * d]
  | _ => Raise RuntimeError
  end.

(** [RotaryEmbedding(dim).forward(seq_len)]: [arange(0, dim, 2)] has
    [ceil(dim / 2)] entries, and the table holds them twice. *)
Definition rotary_table (dim seq_len : nat) : shape :=
  [seq_len; (dim + 1) / 2 + (dim + 1) / 2].

(** [rotate_half] *)
Definition rotate_half (t : shape) : result shape :=
  '(x1, x2) ← chunk2 t;
  cat_m1 x2 x1.

(** [apply_rotary_pos_emb(pos, t)]:
    [t * pos.cos() + rotate_half(t) * pos.sin()] *)
Definition apply_rotary_pos_emb (pos t : shape) : result shape :=
  a ← broadcast t pos;
  rh ← rotate_half t;
  b ← broadcast rh pos;
  broadcast a b.

(** [Attend.forward(q, k, v)], with or without flash attention: queries
    [(b, h, i, d)], keys [(b, h, j, d)] and values [(b, h, j, e)] give
    [(b, h, i, e)]. *)
Definition attend (q k v : shape) : result shape :=
  match q, k, v with
  | [b; h; i; d], [bk; hk; j; dk], [bv; hv; jv; e] =>
      if decide (b = bk /\ b = bv /\ h = hk /\ h = hv /\ d = dk /\ j = jv)
      then Ok [b; h; i; e]
      else Raise RuntimeError
  | _, _, _ => Raise RuntimeError
  end.

Record Attention : Type := Attn {
  at_dim : nat;
  at_dim_head : nat;
  at_heads : nat
}.

(** [Attention.forward(x, rotary_emb)] *)
Definition attention (a : Attention) (rotary_emb : option shape)
    (x : shape) : result shape :=
  let inner_dim := at_dim_head a * at_heads a in
  x ← rms_norm (at_dim a) x;
  q ← linear (at_dim a) inner_dim x;
  kv ← linear (at_dim a) (inner_dim * 2) x;
  '(k, v) ← chunk2 kv;
  q ← split_heads (at_heads a) q;
  k ← split_heads (at_heads a) k;
  v ← split_heads (at_heads a) v;
  '(q, k) ← match rotary_emb with
            | Some pos =>
                q ← apply_rotary_pos_emb pos q;
                k ← apply_rotary_pos_emb pos k;
                Ok (q, k)
            | None => Ok (q, k)
            end;
  out ← attend q k v;
  out ← merge_heads out;
  linear inner_dim (at_dim a) out.

(** A [Transformer] with the hyper-parameters of its layers. *)
Record Block : Type := Blk {
  bl_dim : nat;
  bl_layers : nat;
  bl_dim_head : nat;
  bl_heads : nat;
  bl_ff_mult : nat;
  bl_rel_pos : bool
}.

(** One turn of the loop of [Transformer.forward]:
<<
  x = attn(token_shift(x), rotary_emb=rotary_emb) + x
  x = ff(token_shift(x)) + x
>>  *)
Definition layer (t : Block) (rotary_emb : option shape) (x : shape)
  : result shape :=
  y ← token_shift_shape x;
  y ← attention (Attn (bl_dim t) (bl_dim_head t) (bl_heads t)) rotary_emb y;
  x ← broadcast y x;
  y ← token_shift_shape x;
  y ← feed_forward (bl_dim t) (bl_ff_mult t) y;
  broadcast y x.

Fixpoint layers (t : Block) (rotary_emb : option shape) (count : nat)
    (x : shape) : result shape :=
  match count with
  | O => Ok x
  | S count' => x ← layer t rotary_emb x; layers t rotary_emb count' x
  end.

(** [Transformer.forward(x)] *)
Definition transformer_forward (t : Block) (x : shape) : result shape :=
  n ← match unsnoc2 x with
      | Some (_, n, _) => Ok n
      | None => Raise IndexError
      end;
  let rotary_emb :=
    if bl_rel_pos t then Some (rotary_table (bl_dim_head t) n) else None in
  x ← layers t rotary_emb (bl_layers t) x;
  rms_norm (bl_dim t) x.

(** A transformer of [MegaByte.transformers], applied to a stage's
    tokens. *)
Definition transformer (t : Transformer) (x : shape) : result shape :=
  transformer_forward
    (Blk (tr_dim t) (tr_layers t) (tr_dim_head t) (tr_heads t)
         (tr_ff_mult t) (tr_rel_pos t)) x.

(** The transformer that [MegaByte.__init__] builds for a stage of
    dimension [h_dim] and depth [stage_depth]. *)
Definition stage_block (config : MegaByteConfig) (h_dim stage_depth : nat)
  : Block :=
  Blk h_dim stage_depth (dim_head config) (heads config) (ff_mult config)
      (rel_pos config).

(** A projection to the next stage: [Rearrange("b ... d -> b (...) d")],
    [Linear(h_dim, next_h_dim * next_seq_len)],
    [Rearrange("b m (n d) -> (b m) n d", n=next_seq_len)]. *)
Definition apply_projection (p : projection) (x : shape) : result shape :=
  match p with
  | Identity => Ok x
  | Project h_dim next_h_dim next_seq_len =>
      x ← flatten_middle x;
      x ← linear h_dim (next_h_dim * next_seq_len) x;
      match x with
      | [b; m; nd] =>
          if next_seq_len =? 0 then Raise RuntimeError
          else Ok [b * m; next_seq_len; nd / next_seq_len]
      | _ => Raise RuntimeError
      end
  end.

(** What [forward] returns: the logits, or the pair of logits and loss. *)
Inductive fwd_out : Type :=
  | Logits (s : shape)
  | LogitsLoss (s : shape).

Definition the_last {A} (o : option A) : result A :=
  match o with Some a => Ok a | None => Raise NameError end.

(** [MegaByte.forward_empty] *)
Fixpoint forward_empty_loop (batch_size : nat)
    (items : list (nat * Transformer * projection))
    (prev_stage_tokens_repr : option shape) (last_tokens : option shape)
  : result (option shape) :=
  match items with
  | [] => Ok last_tokens
  | (stage_start_tokens, tr, proj) :: rest =>
      let tokens := [batch_size; 1; stage_start_tokens] in
      tokens ← match prev_stage_tokens_repr with
               | Some prev =>
                   p ← slice_axis_m2 (Nat.min 1) prev;
                   broadcast tokens p
               | None => Ok tokens
               end;
      tokens ← transformer tr tokens;
      prev ← apply_projection proj tokens;
      forward_empty_loop batch_size rest (Some prev) (Some tokens)
  end.

Definition forward_empty (m : MegaByte) (batch_size : nat) : result shape :=
  last ← forward_empty_loop batch_size
           (zip (zip (start_tokens m) (transformers m))
                (to_next_transformer_projections m)) None None;
  tokens ← the_last last;
  linear (fst (to_logits m)) (snd (to_logits m)) tokens.

(** The loop of [forward] that embeds the ids for every stage, finest
    first, putting each result in front of [tokens_at_stages]. *)
Fixpoint token_loop
    (items : list (option nat * option (option Embedding) * option token_emb))
    (written : list Z) (ids : shape) (tokens_at_stages : list shape)
  : result (list shape * shape) :=
  match items with
  | [] => Ok (tokens_at_stages, ids)
  | (ind, pe, te) :: rest =>
      let is_first := bool_decide (ind = Some 0) in
      tokens ← match te with
               | Some t => apply_token_emb t written ids
               | None => Raise TypeError
               end;
      tokens ← match pe with
               | Some (Some e) => add_positions e tokens
               | _ => Ok tokens
               end;
      let tokens_at_stages := tokens :: tokens_at_stages in
      if is_first then token_loop rest written ids tokens_at_stages
      else
        ids ← merge_last2 ids;
        token_loop rest written ids tokens_at_stages
  end.

(** The loop of [forward] over the stages, coarsest first. *)
Fixpoint stage_loop
    (items : list (nat * shape * Transformer * projection))
    (prev_stage_tokens_repr : option shape) (attended : option shape)
  : result (option shape) :=
  match items with
  | [] => Ok attended
  | (stage_start_tokens, stage_tokens, tr, proj) :: rest =>
      (* pack_one(stage_tokens, "* n d") *)
      '(ps, n, d) ← match unsnoc2 stage_tokens with
                    | Some x => Ok x
                    | None => Raise RuntimeError
                    end;
      let stage_tokens := [numel ps; n; d] in
      let stage_start_tokens := [numel ps; 1; stage_start_tokens] in
      stage_tokens ← cat_m2 stage_start_tokens stage_tokens;
      stage_tokens ← match prev_stage_tokens_repr with
                     | Some prev =>
                         prev ← pad_front1 prev;
                         broadcast stage_tokens prev
                     | None => Ok stage_tokens
                     end;
      attended ← transformer tr stage_tokens;
      (* unpack_one(attended, ps, "* n d") *)
      attended ← match attended with
                 | [_; n; d] => Ok (ps ++ [n; d])
                 | _ => Raise RuntimeError
                 end;
      sliced ← slice_axis_m2 to_m1 attended;
      prev ← apply_projection proj sliced;
      stage_loop rest (Some prev) (Some attended)
  end.

(** [logits[(slice(None), *((0,) * (logits.ndim - 2)), slice(None))]]
    followed by [rearrange(start_tokens, "b d -> b 1 d")]. *)
Definition start_logits (logits : shape) : result shape :=
  match logits with
  | b :: rest =>
      match unsnoc rest with
      | Some (mid, c) =>
          if forallb (fun n => 0 <? n) mid then Ok [b; 1; c]
          else Raise IndexError
      | None => Raise IndexError
      end
  | [] => Raise IndexError
  end.

(** [F.cross_entropy(preds, labels)] for [preds] of shape [(b, C, n)] and
    [labels] of shape [(b, n)]. *)
Definition cross_entropy (preds labels : shape) : result unit :=
  match preds, labels with
  | [b; _; n], [b'; n'] =>
      if (b =? b') && (n =? n') then Ok tt else Raise RuntimeError
  | _, _ => Raise RuntimeError
  end.

(** [ids[:, :-1] = ids[:, 1:]] on the shape of [ids]: the two sides are
    views of one storage, one position apart.  torch refuses the copy
    ([RuntimeError]) when both views are dense and their memory ranges
    overlap without being equal: for a single batch entry (the batch
    axis is then not looked at) whose views hold two positions or more,
    that is for three positions or more in [ids].  With two or more
    batch entries the views are not dense, and the copy is made. *)
Definition shift_in_place (ids : shape) : result unit :=
  match ids with
  | b :: n :: rest =>
      if (b =? 1) && (3 <=? n) && negb (numel rest =? 0)
      then Raise RuntimeError
      else Ok tt
  | _ => Raise IndexError
  end.

(** The three statements that open [forward], on shapes:
    [ids = ids[:, :-1]], [ids[:, :-1] = ids[:, 1:]] and
    [ids = torch.cat((ids, targets[:, -1:]), dim=-1)]. *)
Definition forward_ids (ids targets : shape) : result shape :=
  ids ← slice_axis1 to_m1 ids;
  _ ← shift_in_place ids;
  last_target ← slice_axis1 from_m1 targets;
  cat_m1 ids last_target.

(** The flat input path: padding to a multiple of the finer stages'
    block and the reshape to [(batch, -1, max_seq_len[1:])].  The second
    result is the number of pad ids put after every row. *)
Definition pad_and_nest (m : MegaByte) (batch seq_len : nat) (ids : shape)
  : result (shape * nat) :=
  let multiple_of := reduce_mult (tail (mb_max_seq_len m)) in
  padding ← remainder_to_mult seq_len multiple_of;
  ids ← cat_m1 ids [batch; padding];
  ids ← reshape_infer ids batch (tail (mb_max_seq_len m));
  Ok (ids, padding).

(** The two assertions on the nested sizes. *)
Definition check_dims (m : MegaByte) (prec_dims : list nat) : result unit :=
  first_dim ← match prec_dims with d :: _ => Ok d | [] => Raise IndexError end;
  first_max ← match mb_max_seq_len m with
              | d :: _ => Ok d
              | [] => Raise IndexError
              end;
  _ ← assert (first_dim <=? first_max);
  assert (bool_decide (tail prec_dims = tail (mb_max_seq_len m))).

(** Tokens of every stage, coarsest first, and the flattened ids. *)
Definition tokens_for_stages (m : MegaByte) (written : list Z)
    (ids : shape) : result (list shape * shape) :=
  let num_stages := length (tail ids) in
  let pos_embs := match pos_embs m with
                  | Some l => Some <$> l
                  | None => replicate num_stages None
                  end in
  token_loop (zip_longest3 (seq 0 num_stages) (reverse pos_embs) (token_embs m))
             written ids [].

Definition run_stages (m : MegaByte) (tokens_at_stages : list shape)
  : result shape :=
  attended ← stage_loop
               (zip (zip (zip (start_tokens m) tokens_at_stages)
                         (transformers m))
                    (to_next_transformer_projections m)) None None;
  the_last attended.

(** From the finest stage's output to what [forward] returns. *)
Definition forward_result (m : MegaByte) (flattened_dims return_loss : bool)
    (seq_len : nat) (ids attended : shape) : result fwd_out :=
  logits ← linear (fst (to_logits m)) (snd (to_logits m)) attended;
  start_tokens ← start_logits logits;
  logits ← slice_axis_m2 from_1 logits;
  if negb return_loss then
    if flattened_dims then
      logits ← flatten_middle logits;
      logits ← slice_axis1 (Nat.min seq_len) logits;
      Ok (Logits logits)
    else Ok (Logits logits)
  else
    logits ← flatten_middle logits;
    logits ← cat_m2 start_tokens logits;
    preds ← match logits with
            | [b; n; c] => Ok [b; c; to_m1 n]     (* preds[..., :-1] *)
            | _ => Raise RuntimeError
            end;
    labels ← flatten_tail ids;
    _ ← cross_entropy preds labels;
    Ok (LogitsLoss logits).

(** [MegaByte.forward(ids, targets, return_loss)] *)
Definition forward (m : MegaByte) (ids targets : shape) (return_loss : bool)
  : result fwd_out :=
  ids ← forward_ids ids targets;
  batch ← match ids with b :: _ => Ok b | [] => Raise IndexError end;
  _ ← assert (bool_decide (length ids = 2 \/ length ids = stages m + 1));
  let flattened_dims := bool_decide (length ids = 2) in
  if numel ids =? 0 then Logits <$> forward_empty m batch else
  let seq_len := default 0 (snd <$> unsnoc ids) in
  '(ids, padding) ← (if flattened_dims then pad_and_nest m batch seq_len ids
                     else Ok (ids, 0));
  let written := if 0 <? padding then [mb_pad_id m] else [] in
  _ ← check_dims m (tail ids);
  '(tokens_at_stages, ids) ← tokens_for_stages m written ids;
  attended ← run_stages m tokens_at_stages;
  forward_result m flattened_dims return_loss seq_len ids attended.

(** A call [self.forward(...)]: the signature is
    [forward(self, ids, targets, return_loss=True)], so a call binds
    [ids] and [targets] from its positional arguments and fails when one
    of them is missing. *)
Definition call_forward (m : MegaByte) (args : list shape)
    (return_loss : option bool) : result fwd_out :=
  match args with
  | [ids; targets] => forward m ids targets (default true return_loss)
  | _ => Raise TypeError
  end.

(** [top_k] and [gumbel_sample] on the shape of a [(batch, n)] tensor. *)
Definition top_k_shape (logits : shape) (thres : number) : result shape :=
  match logits with
  | [_; n] =>
      k ← top_k_count thres n;
      if n <? Z.to_nat k then Raise RuntimeError else Ok logits
  | _ => Raise RuntimeError
  end.

Definition gumbel_sample_shape (logits : shape) : result shape :=
  match unsnoc logits with
  | Some (outer, n) => if n =? 0 then Raise RuntimeError else Ok outer
  | None => Raise RuntimeError
  end.

(** [x[:, -1]] on what a call returned; a tuple cannot be indexed so. *)
Definition last_position (out : fwd_out) : result shape :=
  match out with
  | Logits (b :: n :: rest) =>
      if n =? 0 then Raise IndexError else Ok (b :: rest)
  | Logits _ => Raise IndexError
  | LogitsLoss _ => Raise TypeError
  end.

(** The loop of [generate]. *)
Fixpoint generate_loop (m : MegaByte) (filter_thres : number) (steps : nat)
    (seq : shape) : result shape :=
  match steps with
  | O => Ok seq
  | S steps' =>
      out ← call_forward m [seq] None;
      logits ← last_position out;
      logits ← top_k_shape logits filter_thres;
      sampled ← gumbel_sample_shape logits;
      seq ← cat_m1 seq (sampled ++ [1]);
      generate_loop m filter_thres steps' seq
  end.

(** [MegaByte.generate(prime, filter_thres, temperature,
    default_batch_size)] *)
Definition generate (m : MegaByte) (prime : option shape)
    (filter_thres temperature : number) (default_batch_size : nat)
  : result shape :=
  let total_seq_len := reduce_mult (mb_max_seq_len m) in
  let seq := default [default_batch_size; 0] prime in
  batch ← match seq with b :: _ => Ok b | [] => Raise IndexError end;
  len ← match unsnoc seq with
        | Some (_, n) => Ok n
        | None => Raise IndexError
        end;
  seq ← generate_loop m filter_thres (total_seq_len - len) seq;
  reshape seq (batch :: mb_max_seq_len m).

(** ** What the loops of [forward] hold, stage by stage *)

Section Trace.
Context (b ns : nat) (ds dims depth msl : list nat) (nt : nat) (pe : bool).
Context (config : MegaByteConfig).

(** The tokens of stage [i]: the batch, the nested sizes down to stage
    [i], the stage's feature size. *)
Definition stage_tokens_at (i : nat) : shape :=
  b :: take (i + 1) ds ++ [dims !!! i].

(** The projected output of stage [i - 1], the conditioning of stage [i]. *)
Definition prev_at (i : nat) : shape :=
  [numel (b :: take i ds); msl !!! i; dims !!! i].

(** The output of stage [i]'s transformer after unpacking: one more
    position than the stage's tokens, for the start token. *)
Definition attended_at (i : nat) : shape :=
  b :: take i ds ++ [1 + ds !!! i; dims !!! i].

Definition stage_item_at (i : nat) : nat * shape * Transformer * projection :=
  (dims !!! i, stage_tokens_at i, fst (stage_at config ns dims depth msl i),
   projection_at ns dims msl i).

(** The ids before the [k]-th turn of the embedding loop, for [k >= 1]:
    the last [k] nested axes are merged into one. *)
Definition ids_at (k : nat) : shape :=
  b :: take (ns - k) ds ++ [numel (drop (ns - k) ds)].

Definition pos_emb_at (i : nat) : option Embedding :=
  if pe then Some (Emb (msl !!! i) (dims !!! i)) else None.

Definition token_emb_at (k : nat) : token_emb :=
  match k with
  | O => TokFine (Emb nt (dims !!! (ns - 1)))
  | _ => TokPatch (Emb nt (dims !!! (ns - 1))) (numel (drop (ns - k) msl))
                  (dims !!! (ns - 1 - k))
  end.

Definition token_item_at (k : nat)
  : option nat * option (option Embedding) * option token_emb :=
  (Some k, Some (pos_emb_at (ns - 1 - k)), Some (token_emb_at k)).

End Trace.

(** Configurations for examples: two and three stages. *)
Definition config2 : MegaByteConfig :=
  Config 16 (DimTuple [8; 4]) [2; 1] [3; 2] 4 2 4 15 false false true.

(** What [init] gives for [config2]. *)
Definition model2 : MegaByte :=
  Model 2 [3; 2] [8; 4] None
        [TokFine (Emb 16 4); TokPatch (Emb 16 4) 2 8]
        [Tr 8 2 4 2 4 false; Tr 4 1 4 2 4 false]
        [Project 8 4 2; Identity] (4, 16) 15.



Definition config3 : MegaByteConfig :=
  Config 16 (DimTuple [8; 6; 4]) [2; 1; 1] [4; 3; 2] 4 2 4 15 true true true.

(** What [init] gives for [config3]. *)
Definition model3 : MegaByte :=
  Model 3 [4; 3; 2] [8; 6; 4]
        (Some [Emb 4 8; Emb 3 6; Emb 2 4])
        [TokFine (Emb 16 4); TokPatch (Emb 16 4) 2 6;
         TokPatch (Emb 16 4) 6 8]
        [Tr 8 2 4 2 4 true; Tr 6 1 4 2 4 true; Tr 4 1 4 2 4 true]
        [Project 8 6 3; Project 6 4 2; Identity]
        (4, 16) 15.

End Shapes.

(* ===================================================================== *)
(** * The model, read on values                                           *)
(* ===================================================================== *)

Module Values.
Import Helpers Store.

(** ** Labels of the loss *)

Definition stored {A} (o : option A) : result A :=
  match o with Some a => Ok a | None => Raise RuntimeError end.

(** The ids of the flat path as the loss sees them: the opening
    statements of [forward], [F.pad(ids, (0, padding), value=pad_id)],
    the reshape to the nested sizes and, for the labels,
    [rearrange(ids, "b ... -> b (...)")], which gives back the padded
    rows. *)
Definition forward_labels (max_seq_len : list nat) (pad_id : Z)
    (h : heap) (ids targets : view) : result (list (list Z)) :=
  '(h', ids') ← forward_preamble h ids targets;
  rows ← stored (read h' ids');
  padding ← remainder_to_mult (v_cols ids') (reduce_mult (tail max_seq_len));
  Ok (map (fun row => row ++ replicate padding pad_id) rows).

(** The label rows in the words of the specification: the ids shifted
    left by one, the last target put at the end. *)
Definition labels_as_specified (ids targets : list (list Z))
  : list (list Z) :=
  zip_with (fun row trow => drop 1 row ++ drop (length trow - 1) trow)
           ids targets.

(** ** The end of [forward] on the logits *)

(** The logits that [to_logits] gives for the finest stage: for every
    batch entry the rows of the nested positions in row-major order,
    every row with its start-token position first, every position a
    vector over the vocabulary.  A flat tensor has one row of positions
    for every batch entry. *)
Abbreviation nested A := (list (list (list (list A)))).
Abbreviation flat A := (list (list (list A))).

Section Realign.
Context {A : Type}.


(** [logits[(slice(None), 0, ..., 0, slice(None))]], then
    [rearrange(start_tokens, "b d -> b 1 d")] *)
Definition start_tokens (logits : nested A) : result (flat A) :=
  mapM (fun rows => match rows with
                    | (v :: _) :: _ => Ok [v]
                    | _ => Raise IndexError
                    end) logits.

(** [logits[..., 1:, :]] *)
Definition drop_start (logits : nested A) : nested A :=
  map (map (drop 1)) logits.

(** [rearrange(logits, "b ... c -> b (...) c")] *)
Definition flatten (logits : nested A) : flat A := map mjoin logits.

Inductive returned : Type :=
  | Nested (l : nested A)
  | Flat (l : flat A).

(** The logits [forward] returns, from the finest stage's logits. *)
Definition forward_logits (flattened_dims return_loss : bool)
    (seq_len : nat) (logits : nested A) : result returned :=
  start ← start_tokens logits;
  let logits := drop_start logits in
  if negb return_loss then
    if flattened_dims then
      Ok (Flat (map (take seq_len) (flatten logits)))
    else Ok (Nested logits)
  else
    Ok (Flat (zip_with app start (flatten logits))).

(** A non-empty input: every batch entry has a first row, and the row
    has its start-token position. *)
Definition has_start (logits : nested A) : Prop :=
  Forall (fun rows => exists v row rest, rows = (v :: row) :: rest) logits.

(** The logit of the start-token position of batch entry [b]. *)
Definition start_logit (logits : nested A) (b : nat) : option (list A) :=
  rows ← logits !! b; row ← rows !! 0; row !! 0.

(** Position [j] of batch entry [b] in what was returned. *)
Definition returned_at (r : returned) (b j : nat) : option (list A) :=
  match r with
  | Flat l => row ← l !! b; row !! j
  | Nested l => rows ← l !! b; mjoin rows !! j
  end.

(** The transformer output of a stage: every batch entry has [R] rows of
    [Lp] positions. *)
Definition uniform (R Lp : nat) (x : nested A) : Prop :=
  Forall (fun rows => length rows = R
                      /\ Forall (fun row => length row = Lp) rows) x.

(** ** The inter-stage projector *)

(** ["(n d) -> n d"]: a vector of [n * d] entries cut into [n]. *)
Fixpoint chunks (n d : nat) (v : list A) : list (list A) :=
  match n with
  | O => []
  | S n' => take d v :: chunks n' d (drop d v)
  end.

Inductive projected : Type :=
  | Same (x : nested A)
  | Finer (x : flat A).

(** [proj(attended[..., :-1, :])] for an entry [proj] of
    [to_next_transformer_projections]; [lin] is what the projector's
    linear layer does to one position. *)
Definition project (p : Shapes.projection) (lin : list A -> list A)
    (attended : nested A) : projected :=
  let sliced := map (map but_last) attended in
  match p with
  | Shapes.Identity => Same sliced
  | Shapes.Project _ next_h_dim next_seq_len =>
      let x := map mjoin sliced in                 (* b ... d -> b (...) d *)
      let x := map (map lin) x in                   (* Linear *)
      Finer (mjoin (map (map (chunks next_seq_len next_h_dim)) x))
  end.

(** The projector in the words of the specification: the start-token
    position is the one left out. *)
Definition project_as_specified (p : Shapes.projection)
    (lin : list A -> list A) (attended : nested A) : projected :=
  let sliced := map (map (drop 1)) attended in
  match p with
  | Shapes.Identity => Same sliced
  | Shapes.Project _ next_h_dim next_seq_len =>
      let x := map (map lin) (map mjoin sliced) in
      Finer (mjoin (map (map (chunks next_seq_len next_h_dim)) x))
  end.

End Realign.

(** A linear layer with integer weights, for examples. *)
Definition linear_Z (weight : list (list Z)) (bias : list Z) (x : list Z)
  : list Z :=
  zip_with Z.add
    (map (fun w => fold_right Z.add 0%Z (zip_with Z.mul w x)) weight) bias.

(** ** The loss *)

Section Loss.
Local Open Scope R_scope.

Definition Rsum (l : list R) : R := fold_right Rplus 0 l.

(** Cross entropy of one position: minus the log-softmax at the label. *)
Definition nll (v : list R) (label : nat) : R :=
  - (nth label v 0 - ln (Rsum (map exp v))).

Definition in_range (classes : nat) (label : Z) : bool :=
  ((0 <=? label)%Z && (label <? Z.of_nat classes)%Z).

(** [F.cross_entropy(preds, labels, ignore_index)] with the default
    mean reduction: the mean, over the positions whose label is not
    [ignore_index], of the position's cross entropy.  [preds] is
    given position by position (the source moves the class axis in
    front of the position axis, as [cross_entropy] wants it). *)
Definition cross_entropy (classes : nat) (preds : list (list (list R)))
    (labels : list (list Z)) (ignore_index : Z) : result R :=
  let pairs := mjoin (zip_with zip preds labels) in
  let used := filter (fun p => snd p <> ignore_index) pairs in
  if forallb (fun p => in_range classes (snd p)) used then
    Ok (Rsum (map (fun p => nll (fst p) (Z.to_nat (snd p))) used)
        / INR (length used))
  else Raise IndexError.

(** The loss of [forward]: [logits] already has the start-token logit
    in front; [preds[..., :-1]] leaves out its last position. *)
Definition forward_loss (classes : nat) (logits : list (list (list R)))
    (labels : list (list Z)) (pad_id : Z) : result R :=
  cross_entropy classes (map but_last logits) labels pad_id.

End Loss.

End Values.

(* ===================================================================== *)
(** * The helpers around the model                                        *)
(* ===================================================================== *)

(** ** [once] and [print_once] *)

Module Once.

Section Once.
Context {X Y S : Type}.

(** The wrapped function acts on a state of type [S] and returns a [Y]. *)
Context (fn : X -> S -> Y * S).

(** One call [inner(x)], from the flag [called] and the state:
<<
  def inner(x):
      nonlocal called
      if called:
          return
      called = True
      return fn(x)
>>  *)
Definition inner (x : X) (st : bool * S) : option Y * (bool * S) :=
  if fst st then (None, st)
  else let r := fn x (snd st) in (Some (fst r), (true, snd r)).

(** A sequence of calls, with what each of them returns. *)
Fixpoint calls (xs : list X) (st : bool * S)
  : list (option Y) * (bool * S) :=
  match xs with
  | [] => ([], st)
  | x :: xs' =>
      let r := inner x st in
      let rs := calls xs' (snd r) in
      (fst r :: fst rs, snd rs)
  end.

End Once.

(** [print]: one more line on the output. *)
Definition print {X : Type} (x : X) (out : list X) : unit * list X :=
  (tt, out ++ [x]).

(** [print_once = once(print)] *)
Definition print_once {X : Type} := inner (@print X).

End Once.

(** ** The causal mask of [Attend] *)

Module Mask.

(** [torch.ones((i, j), dtype=torch.bool)] *)
Definition ones (i j : nat) : list (list bool) :=
  replicate i (replicate j true).

(** [m.triu(diagonal)]: the entries on and above the given diagonal are
    kept, the others are zero. *)
Definition triu (diagonal : Z) (m : list (list bool)) : list (list bool) :=
  imap (fun r row =>
          imap (fun c x =>
                  if (diagonal <=? Z.of_nat c - Z.of_nat r)%Z then x
                  else false) row) m.

(** [Attend.get_mask(i, j)]: [ones((i, j)).triu(j - i + 1)]; an entry
    that is true is hidden from the query of its row. *)
Definition get_mask (i j : nat) : list (list bool) :=
  triu (Z.of_nat j - Z.of_nat i + 1) (ones i j).

End Mask.

(** ** Rotary positions and the norm, on one feature vector *)

(** The functions below are read on one vector of the last axis, over
    the real numbers; the tensor operations apply them to every such
    vector. *)

Module Vectors.
Import Helpers.

(** An element-wise operation on two vectors, with broadcasting: the
    lengths agree or one of them is 1. *)
Definition bzip {A B C} (f : A -> B -> C) (u : list A) (v : list B)
  : result (list C) :=
  if length u =? length v then Ok (zip_with f u v)
  else match u, v with
       | [a], _ => Ok (map (f a) v)
       | _, [b] => Ok (map (fun x => f x b) u)
       | _, _ => Raise RuntimeError
       end.

Section RotateHalf.
Context {A : Type} (neg : A -> A).

(**
<<
  def rotate_half(x):
      x1, x2 = x.chunk(2, dim=-1)
      return torch.cat((-x2, x1), dim=-1)
>>  *)
Definition rotate_half (x : list A) : result (list A) :=
  match chunk_sizes 2 (length x) with
  | [s1; s2] => Ok (map neg (take s2 (drop s1 x)) ++ take s1 x)
  | _ => Raise ValueError
  end.

End RotateHalf.

Local Open Scope R_scope.

(** [torch.arange(0, dim, 2)] *)
Definition arange_by_2 (dim : nat) : list nat :=
  map (fun k => (2 * k)%nat) (seq 0 ((dim + 1) / 2)).

Record RotaryEmbedding : Type := Rotary { inv_freq : list R }.

(** [RotaryEmbedding.__init__]:
    [inv_freq = 1.0 / (theta ** (torch.arange(0, dim, 2).float() / dim))] *)
Definition rotary_init (dim : nat) (theta : R) : RotaryEmbedding :=
  Rotary (map (fun k => 1 / Rpower theta (INR k / INR dim))
              (arange_by_2 dim)).

(** [RotaryEmbedding.forward(seq_len)]: the outer product of the
    positions [0 .. seq_len - 1] and [inv_freq], each row twice in a
    row. *)
Definition rotary_forward (r : RotaryEmbedding) (seq_len : nat)
  : list (list R) :=
  map (fun t => let freqs := map (fun f => INR t * f) (inv_freq r) in
                freqs ++ freqs)
      (seq 0 seq_len).

(** [apply_rotary_pos_emb(pos, t)]:
    [t * pos.cos() + rotate_half(t) * pos.sin()], for the angles [pos]
    of one position and one vector [t]. *)
Definition apply_rotary_pos_emb (pos t : list R) : result (list R) :=
  a ← bzip Rmult t (map cos pos);
  rh ← rotate_half Ropp t;
  b ← bzip Rmult rh (map sin pos);
  bzip Rplus a b.

(** The sum of the squares of a vector. *)
Definition sumsq (x : list R) : R :=
  fold_right Rplus 0 (map (fun a => a * a) x).

Record RMSNorm : Type := RMS { rms_scale : R; rms_eps : R; rms_g : list R }.

(** [RMSNorm.__init__(dim, eps)]: [scale = dim ** -0.5], which Python
    refuses for [dim = 0], and [g = ones(dim)]. *)
Definition rms_norm_init (dim : nat) (eps : R) : result RMSNorm :=
  if (dim =? 0)%nat then Raise ZeroDivisionError
  else Ok (RMS (Rpower (INR dim) (- (1 / 2))) eps (replicate dim 1)).

(** [RMSNorm.forward(x)]:
<<
  norm = torch.norm(x, dim=-1, keepdim=True) * self.scale
  return x / norm.clamp(min=self.eps) * self.g
>>  *)
Definition rms_norm_forward (n : RMSNorm) (x : list R) : result (list R) :=
  let norm := sqrt (sumsq x) * rms_scale n in
  bzip Rmult (map (fun a => a / Rmax norm (rms_eps n)) x) (rms_g n).

End Vectors.

(** ** Sampling *)

Module Sampling.
Import Helpers.
Local Open Scope R_scope.

(** [log(t, eps) = torch.log(t.clamp(min=eps))], on one entry. *)
Definition log (t eps : R) : R := ln (Rmax t eps).

(** The default [eps = 1e-20]. *)
Definition log_eps : R := / 10 ^ 20.

(** [gumbel_noise]: [-log(-log(noise))] for an entry [noise] drawn by
    [uniform_(0, 1)]. *)
Definition gumbel (noise : R) : R := - log (- log noise log_eps) log_eps.

(** The entries of a logit tensor: the special values of floating
    point, or a number. *)
Inductive xreal : Type := NegInfR | FinR (r : R) | PosInfR | NaN.

(** The order [torch.topk] and [argmax] use: a NaN is above everything. *)
Definition xreal_leb (a b : xreal) : bool :=
  match a, b with
  | _, NaN => true
  | NaN, _ => false
  | NegInfR, _ => true
  | _, NegInfR => false
  | _, PosInfR => true
  | PosInfR, _ => false
  | FinR x, FinR y => if Rle_dec x y then true else false
  end.

(** Overflow: a result whose magnitude reaches [inf_at], the bound of
    the tensor's dtype, is an infinity.  Below it, results are read as
    the real numbers they round. *)
Definition overflow (inf_at : R) (r : R) : xreal :=
  if Rle_dec inf_at r then PosInfR
  else if Rle_dec r (- inf_at) then NegInfR
  else FinR r.

(** [x / temperature], for a temperature that is a number (and a
    positive zero, when it is zero). *)
Definition xdiv (inf_at : R) (x : xreal) (temperature : R) : xreal :=
  match x with
  | FinR r =>
      if Req_dec_T temperature 0
      then (if Req_dec_T r 0 then NaN
            else if Rlt_dec 0 r then PosInfR else NegInfR)
      else overflow inf_at (r / temperature)
  | NegInfR => if Rlt_dec temperature 0 then PosInfR else NegInfR
  | PosInfR => if Rlt_dec temperature 0 then NegInfR else PosInfR
  | NaN => NaN
  end.

(** [x + g] for a number [g]. *)
Definition xadd (inf_at : R) (x : xreal) (g : R) : xreal :=
  match x with
  | FinR r => overflow inf_at (r + g)
  | other => other
  end.

(** [row.argmax()]: the column of the first largest entry; there is
    none in an empty row, where torch raises. *)
Fixpoint argmax_from (c : nat) (best : nat * xreal) (row : list xreal)
  : nat :=
  match row with
  | [] => fst best
  | x :: row' =>
      argmax_from (S c) (if xreal_leb x (snd best) then best else (c, x))
                  row'
  end.

Definition argmax (row : list xreal) : option nat :=
  match row with
  | [] => None
  | x :: row' => Some (argmax_from 1 (0%nat, x) row')
  end.

(** [gumbel_sample(t, temperature)] on one row [t]:
    [((t / temperature) + gumbel_noise(t)).argmax(dim=-1)]; [noise]
    gives the uniform draw for every column. *)
Definition gumbel_sample (inf_at : R) (t : list xreal) (temperature : R)
    (noise : nat -> R) : option nat :=
  argmax (imap (fun c x => xadd inf_at (xdiv inf_at x temperature)
                                (gumbel (noise c))) t).

End Sampling.

(* ===================================================================== *)
(** * Properties                                                          *)
(* ===================================================================== *)

(** ** The result monad *)

Lemma bind_Ok {A B} (a : A) (f : A -> result B) : (Ok a ≫= f) = f a.
Proof. reflexivity. Qed.

Lemma bind_Raise {A B} (e : error) (f : A -> result B) :
  (Raise e ≫= f) = Raise e.
Proof. reflexivity. Qed.

Lemma bind_Ok_inv {A B} (r : result A) (f : A -> result B) (b : B) :
  (r ≫= f) = Ok b -> exists a, r = Ok a /\ f a = Ok b.
Proof. destruct r as [a|e]; [eauto | discriminate]. Qed.

Lemma assert_true (b : bool) : b = true -> assert b = Ok tt.
Proof. by intros ->. Qed.

(* --------------------------------------------------------------------- *)
(** ** The store: what the opening statements of [forward] do            *)
(* --------------------------------------------------------------------- *)

Module StoreFacts.
Import Store.

Lemma move_cols_length n : forall d s row,
  length (move_cols n d s row) = length row.
Proof.
  induction n as [|n IH]; intros d s row; simpl; [done|].
  rewrite IH. destruct (row !! s); [apply length_insert | done].
Qed.

(** Copying from the column to the right is a left shift of the window. *)
Lemma move_cols_shift n : forall d row,
  d + n < length row ->
  move_cols n d (S d) row
  = take d row ++ take n (drop (S d) row) ++ drop (d + n) row.
Proof.
  induction n as [|n IH]; intros d row Hlen; simpl.
  - rewrite Nat.add_0_r. by rewrite take_drop.
  - destruct (lookup_lt_is_Some_2 row (S d)) as [x Hx]; [lia|].
    rewrite Hx.
    rewrite IH by (rewrite length_insert; lia).
    rewrite (drop_S row x (S d) Hx). simpl.
    assert (Hd : d < length row) by lia.
    rewrite (take_S_r (<[d:=x]> row) d x)
      by (apply list_lookup_insert_eq; lia).
    rewrite take_insert_ge by lia.
    rewrite !drop_insert_lt by lia.
    rewrite <- app_assoc. simpl.
    replace (S (d + n)) with (d + S n) by lia. done.
Qed.

(** The in-place assignment on one row of a whole tensor of [T] columns. *)
Lemma assignment_row T row :
  length row = T ->
  move_cols (T - 1 - 1) 0 (0 + Nat.min 1 (T - 1)) row = shifted_row 0 T row.
Proof.
  intros Hlen. unfold shifted_row.
  destruct (decide (T <= 2)) as [Hle|Hgt].
  - replace (T - 1 - 1) with 0 by lia. replace (T - 2) with 0 by lia.
    simpl. by rewrite drop_0.
  - replace (0 + Nat.min 1 (T - 1)) with 1 by lia.
    replace (T - 1 - 1) with (T - 2) by lia.
    rewrite move_cols_shift by lia. done.
Qed.

Lemma shifted_row_length T row :
  length row = T -> length (shifted_row 0 T row) = T.
Proof.
  intros Hlen. unfold shifted_row. simpl.
  rewrite length_app, length_take, !length_drop. lia.
Qed.

(** Column [j] after the assignment: the old column [j + 1] up to
    column [T - 3], the old column [j] in the last two columns. *)
Lemma shifted_row_lookup T row j :
  length row = T ->
  shifted_row 0 T row !! j
  = if decide (j + 2 < T) then row !! S j else row !! j.
Proof.
  intros Hlen. unfold shifted_row. simpl.
  case_decide as Hj.
  - rewrite lookup_app_l by (rewrite length_take, length_drop; lia).
    rewrite lookup_take_lt by lia. by rewrite lookup_drop.
  - rewrite lookup_app_r by (rewrite length_take, length_drop; lia).
    rewrite length_take, length_drop, lookup_drop. f_equal. lia.
Qed.

(** A row is left as it was exactly when its columns [0 .. T-2] all hold
    the same value as their right neighbour. *)
Lemma shifted_row_fixed T row :
  length row = T ->
  shifted_row 0 T row = row
  <-> (forall j x y, j + 2 < T -> row !! j = Some x -> row !! S j = Some y ->
                     x = y).
Proof.
  intros Hlen. split.
  - intros Heq j x y Hj Hx Hy.
    assert (H := shifted_row_lookup T row j Hlen).
    rewrite Heq, decide_True in H by done. congruence.
  - intros Hadj. apply list_eq. intros j.
    rewrite shifted_row_lookup by done. case_decide as Hj; [|done].
    destruct (lookup_lt_is_Some_2 row j) as [x Hx]; [lia|].
    destruct (lookup_lt_is_Some_2 row (S j)) as [y Hy]; [lia|].
    rewrite Hx, Hy. f_equal. symmetry. eauto.
Qed.

Ltac cases_nat :=
  repeat match goal with
         | |- context [?a =? ?b] => destruct (Nat.eqb_spec a b)
         | |- context [?a <? ?b] => destruct (Nat.ltb_spec a b)
         end.

(** The two sides of the assignment overlap in a way torch refuses
    exactly for one row of four columns or more. *)
Lemma overlap_whole l T m :
  rect T m ->
  partial_overlap (length m) (pitch m)
    (slice_to_m1 (slice_to_m1 (whole l T)))
    (slice_from_1 (slice_to_m1 (whole l T)))
  = bool_decide (length m = 1 /\ 4 <= T).
Proof.
  intros Hrect. unfold partial_overlap, dense. cbn [slice_to_m1 slice_from_1
    whole v_cols v_off v_base].
  destruct m as [|row m].
  { cbn [length Nat.mul Nat.eqb negb andb]. symmetry.
    apply bool_decide_eq_false. simpl. lia. }
  apply Forall_cons in Hrect as [Hrow _]. cbn [pitch]. rewrite Hrow.
  cbn [length]. generalize (length m). intros n.
  case_bool_decide as Hd; cases_nat; simpl; try done; nia.
Qed.

(** A single row of four columns or more: the assignment raises. *)
Lemma forward_preamble_one_row (h : heap) l tv T m :
  h !! l = Some m ->
  rect T m ->
  length m = 1 -> 4 <= T ->
  forward_preamble h (whole l T) tv = Raise RuntimeError.
Proof.
  intros Hl Hrect Hm HT. unfold forward_preamble, setitem.
  cbn [slice_to_m1 slice_from_1 whole v_cols v_off v_base].
  rewrite Nat.eqb_refl. cbn [negb]. rewrite Hl.
  rewrite decide_True by done.
  pose proof (overlap_whole l T m Hrect) as Ho.
  cbn [slice_to_m1 slice_from_1 whole v_cols v_off v_base] in Ho.
  rewrite Ho, bool_decide_eq_true_2 by done. reflexivity.
Qed.

(** The store and the view after the three opening statements, when the
    assignment is not refused. *)
Lemma forward_preamble_whole (h : heap) l tv T m mt :
  h !! l = Some m ->
  rect T m ->
  length m <> 1 \/ T <= 3 ->
  h !! v_base tv = Some mt ->
  length mt = length m ->
  let m' := map (shifted_row 0 T) m in
  let h1 := <[l := m']> h in
  exists lf rows_t,
    h1 !! lf = None
    /\ read h1 (slice_from_m1 tv) = Some rows_t
    /\ length rows_t = length m
    /\ forward_preamble h (whole l T) tv
       = Ok (<[lf := zip_with app (map (take (T - 1)) m') rows_t]> h1,
             View lf 0 (T - 1 + Nat.min 1 (v_cols tv))).
Proof.
  intros Hl Hrect Hfree Ht Hlen m' h1.
  assert (Hset : setitem h (slice_to_m1 (slice_to_m1 (whole l T)))
                           (slice_from_1 (slice_to_m1 (whole l T))) = Ok h1).
  { unfold setitem.
    cbn [slice_to_m1 slice_from_1 whole v_cols v_off v_base].
    rewrite Nat.eqb_refl. cbn [negb]. rewrite Hl.
    rewrite decide_True by done.
    pose proof (overlap_whole l T m Hrect) as Ho.
    cbn [slice_to_m1 slice_from_1 whole v_cols v_off v_base] in Ho.
    rewrite Ho, bool_decide_eq_false_2 by lia. do 2 f_equal.
    apply Forall_fmap_ext_1. eapply Forall_impl; [exact Hrect|].
    intros row Hrow. by apply assignment_row. }
  assert (Hm' : length m' = length m) by (unfold m'; by rewrite length_map).
  assert (Hrt : exists rows_t, read h1 (slice_from_m1 tv) = Some rows_t
                               /\ length rows_t = length m).
  { unfold read, h1. simpl.
    destruct (decide (l = v_base tv)) as [<-|Hne].
    - rewrite lookup_insert_eq. simpl. eexists; split; [done|].
      by rewrite length_map.
    - rewrite lookup_insert_ne by done. rewrite Ht. simpl.
      eexists; split; [done|]. rewrite length_map. done. }
  destruct Hrt as (rows_t & Hread & Hrl).
  exists (fresh (dom h1)), rows_t. split; [|split; [done|split; [done|]]].
  - apply not_elem_of_dom. apply is_fresh.
  - unfold forward_preamble. simpl. rewrite Hset. simpl.
    unfold cat_last. rewrite Hread.
    unfold read at 1. simpl. unfold h1 at 1. rewrite lookup_insert_eq. simpl.
    rewrite length_map, Hrl, Hm', Nat.eqb_refl. done.
Qed.

(** C10 (amended).  For a 2-D tensor of [T >= 3] columns passed as [ids]:
    with a single row of four columns or more, the slice assignment that
    opens [forward] is refused by torch ([RuntimeError]: the two sides
    overlap) and nothing is written; with another number of rows, or
    with three columns, the assignment mutates the caller's [ids] in
    place: it overwrites the columns [0 .. T-3] of the caller's block
    with the old columns [1 .. T-2] and leaves the last two columns as
    they were.  The block the caller sees afterwards then differs from
    the one passed in exactly when some row holds two unequal neighbours
    among its columns [0 .. T-2]. *)
Theorem forward_overwrites_caller_ids (h : heap) l tv T m mt :
  h !! l = Some m ->
  rect T m ->
  3 <= T ->
  h !! v_base tv = Some mt ->
  length mt = length m ->
  (length m = 1 -> 4 <= T ->
   forward_preamble h (whole l T) tv = Raise RuntimeError)
  /\
  (length m <> 1 \/ T = 3 ->
  exists h' ids' m',
    forward_preamble h (whole l T) tv = Ok (h', ids')
    /\ h' !! l = Some m'
    /\ length m' = length m
    /\ (forall i row row', m !! i = Some row -> m' !! i = Some row' ->
          length row' = T
          /\ forall j, row' !! j
                       = if decide (j + 2 < T) then row !! S j else row !! j)
    /\ (m' = m <->
        forall i row j x y, m !! i = Some row -> j + 2 < T ->
          row !! j = Some x -> row !! S j = Some y -> x = y)).
Proof.
  intros Hl Hrect HT Ht Hlen.
  split; [intros Hm H4; by apply (forward_preamble_one_row h l tv T m)|].
  intros Hfree.
  assert (Hfree' : length m <> 1 \/ T <= 3) by lia.
  destruct (forward_preamble_whole h l tv T m mt Hl Hrect Hfree' Ht Hlen)
    as (lf & rows_t & Hfresh & _ & _ & Hrun).
  eexists _, _, (map (shifted_row 0 T) m).
  split; [exact Hrun|]. split; [|split; [by rewrite length_map|split]].
  - rewrite lookup_insert_ne; [apply lookup_insert_eq|].
    intros ->. by rewrite lookup_insert_eq in Hfresh.
  - intros i row row' Hi Hi'.
    assert (Hrow : length row = T).
    { eapply (proj1 (Forall_lookup _ _) Hrect); eauto. }
    change (map (shifted_row 0 T) m) with (shifted_row 0 T <$> m) in Hi'.
    rewrite list_lookup_fmap, Hi in Hi'. simpl in Hi'.
    injection Hi' as <-. split; [by apply shifted_row_length|].
    intros j. by apply shifted_row_lookup.
  - split.
    + intros Heq i row j x y Hi.
      assert (Hrow : length row = T).
      { eapply (proj1 (Forall_lookup _ _) Hrect); eauto. }
      apply (proj1 (shifted_row_fixed T row Hrow)).
      assert (H' : (shifted_row 0 T <$> m) !! i = m !! i)
        by (change (shifted_row 0 T <$> m) with (map (shifted_row 0 T) m);
            by rewrite Heq).
      rewrite list_lookup_fmap, Hi in H'. simpl in H'. congruence.
    + intros Hadj. apply list_eq. intros i.
      change (map (shifted_row 0 T) m) with (shifted_row 0 T <$> m).
      rewrite list_lookup_fmap.
      destruct (m !! i) as [row|] eqn:Hi; [simpl|done]. f_equal.
      assert (Hrow : length row = T).
      { eapply (proj1 (Forall_lookup _ _) Hrect); eauto. }
      apply (proj2 (shifted_row_fixed T row Hrow)). eauto.
Qed.

Lemma forward_overwrites_caller_ids_witness :
  let m := [[1; 2; 3; 4]; [5; 6; 7; 8]]%Z in
  let h := store_of m [[2; 3; 4; 5]; [6; 7; 8; 9]]%Z in
  (3 <= 4 /\ length m <> 1) /\
  exists h' ids' m',
    forward_preamble h (whole 1 4) (whole 2 4) = Ok (h', ids')
    /\ h' !! 1%positive = Some m'
    /\ length m' = length m
    /\ (forall i row row', m !! i = Some row ->
          m' !! i = Some row' ->
          length row' = 4
          /\ forall j, row' !! j
                       = if decide (j + 2 < 4) then row !! S j else row !! j)
    /\ (m' = m <->
        forall i row j x y, m !! i = Some row -> j + 2 < 4 ->
          row !! j = Some x -> row !! S j = Some y -> x = y).
Proof.
  intros m h.
  assert (H3 : 3 <= 4) by lia.
  assert (Hm : length m <> 1) by (simpl; lia).
  split; [done|].
  refine (proj2 (forward_overwrites_caller_ids h 1%positive (whole 2 4) 4 m
                   [[2; 3; 4; 5]; [6; 7; 8; 9]]%Z _ _ H3 _ _) (or_introl Hm)).
  - vm_compute; reflexivity.
  - repeat constructor.
  - vm_compute; reflexivity.
  - reflexivity.
Defined.

(** C10, as stated, at a tensor whose rows are constant: the caller's
    tensor after the call is the one passed in.  At a single row of four
    columns, as at the [(1, 256)] ids of the module's own example, the
    call raises and the caller's tensor is as it was. *)
Lemma forward_leaves_constant_ids :
  (let h := store_of [[7; 7; 7]]%Z [[7; 7; 7]]%Z in
   exists h' ids',
     forward_preamble h (whole 1 3) (whole 2 3) = Ok (h', ids')
     /\ read h' (whole 1 3) = read h (whole 1 3)
     /\ read h (whole 1 3) = Some [[7; 7; 7]]%Z)
  /\ forward_preamble (store_of [[1; 2; 3; 4]]%Z [[2; 3; 4; 5]]%Z)
       (whole 1 4) (whole 2 4)
     = Raise RuntimeError.
Proof.
  split; [|vm_compute; reflexivity].
  eexists _, _. split; [vm_compute; reflexivity|].
  split; vm_compute; reflexivity.
Qed.

End StoreFacts.

(* --------------------------------------------------------------------- *)
(** ** The labels of the loss                                             *)
(* --------------------------------------------------------------------- *)

Module LabelFacts.
Import Helpers Store Values StoreFacts.

(** The label row [forward] builds from one row of ids of [T >= 2]
    columns holds, before the last target, the id of column [T - 2]
    a second time: the id of column [T - 1] is not in it. *)
Lemma label_row_duplicate T row j :
  length row = T -> 2 <= T ->
  take (T - 1) (shifted_row 0 T row) !! j
  = if decide (j + 2 < T) then row !! S j
    else if decide (j + 2 = T) then row !! j else None.
Proof.
  intros Hlen HT. destruct (decide (j < T - 1)) as [Hlt|Hge].
  - rewrite lookup_take_lt by lia. rewrite shifted_row_lookup by done.
    repeat case_decide; try done; lia.
  - rewrite lookup_take_ge by lia. repeat case_decide; try done; lia.
Qed.

(** C4, at the ids [[1, 2, 3, 4], [5, 6, 7, 8]] and the targets
    [[2, 3, 4, 5], [6, 7, 8, 9]]: the labels the code builds are
    [[2, 3, 3, 5], [6, 7, 7, 9]]; the ids shifted left by one with the
    last target at the end are [[2, 3, 4, 5], [6, 7, 8, 9]].  With the
    first row alone the code builds no labels: the assignment that
    opens [forward] raises. *)
Theorem forward_labels_repeat_an_id :
  forward_labels [3; 2] 15
    (store_of [[1; 2; 3; 4]; [5; 6; 7; 8]]%Z [[2; 3; 4; 5]; [6; 7; 8; 9]]%Z)
    (whole 1 4) (whole 2 4)
  = Ok [[2; 3; 3; 5]; [6; 7; 7; 9]]%Z
  /\ labels_as_specified [[1; 2; 3; 4]; [5; 6; 7; 8]]%Z
                         [[2; 3; 4; 5]; [6; 7; 8; 9]]%Z
     = [[2; 3; 4; 5]; [6; 7; 8; 9]]%Z
  /\ forward_labels [3; 2] 15
       (store_of [[1; 2; 3; 4]]%Z [[2; 3; 4; 5]]%Z) (whole 1 4) (whole 2 4)
     = Raise RuntimeError.
Proof. repeat split; vm_compute; reflexivity. Qed.

End LabelFacts.

(* --------------------------------------------------------------------- *)
(** ** Lists                                                              *)
(* --------------------------------------------------------------------- *)

Lemma lookup_map {A B} (f : A -> B) (l : list A) (i : nat) :
  map f l !! i = f <$> l !! i.
Proof. change (map f l) with (f <$> l). apply list_lookup_fmap. Qed.

Lemma join_length_uniform {A} (n : nat) (ls : list (list A)) :
  Forall (fun l => length l = n) ls -> length (mjoin ls) = length ls * n.
Proof. intros H. rewrite length_join. by apply sum_list_fmap_same. Qed.

Lemma mapM_result_ok {A B} (f : A -> result B) (g : A -> B) (l : list A) :
  Forall (fun x => f x = Ok (g x)) l -> mapM f l = Ok (map g l).
Proof.
  induction 1 as [|x l Hx _ IH]; [done|].
  simpl. rewrite Hx. simpl. rewrite IH. done.
Qed.

(* --------------------------------------------------------------------- *)
(** ** token_shift                                                        *)
(* --------------------------------------------------------------------- *)

Module TokenShiftFacts.
Import Helpers.

Lemma half_even (k : nat) : (2 * k) / 2 = k /\ (2 * k + 1) / 2 = k.
Proof.
  split.
  - replace (2 * k) with (k * 2) by lia. apply Nat.div_mul. lia.
  - symmetry. apply (Nat.div_unique _ _ _ 1); lia.
Qed.

Lemma half_odd (k : nat) : (2 * k + 1 + 1) / 2 = k + 1.
Proof.
  replace (2 * k + 1 + 1) with ((k + 1) * 2) by lia. apply Nat.div_mul. lia.
Qed.

Lemma half_sum (D : nat) : (D + 1) / 2 + D / 2 = D.
Proof.
  destruct (Nat.Even_or_Odd D) as [[k ->]|[k ->]].
  - destruct (half_even k) as [-> ->]. lia.
  - rewrite half_odd. destruct (half_even k) as [_ ->]. lia.
Qed.

(** [chunk(2)] gives two pieces, the first the larger on an odd axis,
    unless the axis has one entry: then one piece comes back. *)
Lemma chunk_sizes_two (D : nat) :
  D <> 1 -> chunk_sizes 2 D = [(D + 1) / 2; D / 2].
Proof.
  intros HD. unfold chunk_sizes.
  replace (D + 2 - 1) with (D + 1) by lia.
  destruct (Nat.Even_or_Odd D) as [[k ->]|[k ->]].
  - destruct (half_even k) as [-> ->].
    destruct k as [|k]; [done|].
    destruct (S k =? 0) eqn:E; [apply Nat.eqb_eq in E; lia|].
    unfold split_sizes.
    assert (Hq : (2 * S k + S k - 1) / S k = 2).
    { symmetry. apply (Nat.div_unique _ _ _ k); lia. }
    rewrite Hq. simpl. f_equal. f_equal. lia.
  - rewrite half_odd. destruct (half_even k) as [_ ->].
    destruct k as [|k]; [done|].
    destruct (S k + 1 =? 0) eqn:E; [apply Nat.eqb_eq in E; lia|].
    unfold split_sizes.
    assert (Hq : (2 * S k + 1 + (S k + 1) - 1) / (S k + 1) = 2).
    { symmetry. apply (Nat.div_unique _ _ _ k); lia. }
    rewrite Hq. simpl. f_equal. f_equal. lia.
Qed.

Lemma chunk_sizes_one : chunk_sizes 2 1 = [1].
Proof. reflexivity. Qed.

Lemma chunk_sizes_even (h : nat) : chunk_sizes 2 (2 * h) = [h; h].
Proof.
  destruct h as [|h]; [reflexivity|].
  rewrite chunk_sizes_two by lia.
  destruct (half_even (S h)) as [H1 H2]. by rewrite H1, H2.
Qed.

Section Shift.
Context {A : Type} (zero : A).

(** C6 (amended).  For every tensor [(batch, n, D)] with at least one
    sequence position and a feature axis of [D >= 2] entries,
    [token_shift] cuts the feature axis into a first piece of
    [ceil(D/2)] entries and a second piece of [floor(D/2)] entries (the
    two halves when [D] is even), leaves the first piece as it is and
    moves the second piece forward by one sequence position: at
    position [t > 0] the second piece of the output is the second piece
    of the input at position [t - 1], and at position 0 it is zero. *)
Theorem token_shift_shifts_second_piece (t : tensor3 A) :
  wf3 t ->
  2 <= t3_feat t ->
  1 <= t3_seq t ->
  let s1 := (t3_feat t + 1) / 2 in
  let s2 := t3_feat t / 2 in
  exists out,
    token_shift zero t = Ok out
    /\ t3_seq out = t3_seq t
    /\ t3_feat out = t3_feat t
    /\ forall b s pos v,
         t3_data t !! b = Some s -> s !! pos = Some v ->
         exists s' v',
           t3_data out !! b = Some s'
           /\ s' !! pos = Some v'
           /\ take s1 v' = take s1 v
           /\ (pos = 0 -> drop s1 v' = replicate s2 zero)
           /\ (forall p u, pos = S p -> s !! p = Some u ->
                 drop s1 v' = drop s1 u).
Proof.
  intros Hwf HD Hn s1 s2.
  unfold token_shift. rewrite chunk_sizes_two by lia.
  fold s1 s2. unfold pad_seq.
  destruct (t3_seq t <? 1) eqn:E; [apply Nat.ltb_lt in E; lia|].
  simpl. eexists. split; [reflexivity|]. simpl.
  split; [lia|]. split; [apply half_sum|].
  intros b s pos v Hb Hpos.
  assert (Hs : length s = t3_seq t /\ Forall (fun v => length v = t3_feat t) s).
  { eapply (proj1 (Forall_lookup _ _) Hwf); eauto. }
  destruct Hs as [Hsl Hsf].
  assert (Hv : length v = t3_feat t).
  { eapply (proj1 (Forall_lookup _ _) Hsf); eauto. }
  assert (Hposlt : pos < length s) by (eapply lookup_lt_Some; eauto).
  assert (Hsum := half_sum (t3_feat t)). fold s1 s2 in Hsum.
  set (shifted := replicate s2 zero
                  :: take (t3_seq t - 1)
                       (map (fun v => take s2 (drop s1 v)) s)).
  assert (Hsh : exists w, shifted !! pos = Some w
                /\ (pos = 0 -> w = replicate s2 zero)
                /\ (forall p u, pos = S p -> s !! p = Some u ->
                      w = drop s1 u)).
  { destruct pos as [|p].
    - eexists. split; [reflexivity|]. split; [done|]. intros; discriminate.
    - destruct (lookup_lt_is_Some_2 s p) as [u Hu]; [lia|].
      exists (drop s1 u). split; [|split; [discriminate|]].
      + unfold shifted. simpl. rewrite lookup_take_lt by lia.
        rewrite lookup_map, Hu. simpl. f_equal.
        apply take_ge. rewrite length_drop.
        assert (length u = t3_feat t)
          by (eapply (proj1 (Forall_lookup _ _) Hsf); eauto).
        lia.
      + intros p' u' [= <-] Hu'. congruence. }
  destruct Hsh as (w & Hw & Hw0 & HwS).
  exists (zip_with app (map (take s1) s) shifted), (take s1 v ++ w).
  assert (Hlt : length (take s1 v) = s1) by (rewrite length_take; lia).
  split; [|split; [|split; [|split]]].
  - rewrite lookup_zip_with, !lookup_map, Hb. done.
  - rewrite lookup_zip_with, lookup_map, Hpos. simpl. rewrite Hw. done.
  - rewrite take_app_length' by done. done.
  - intros Hp. rewrite drop_app_length' by done. auto.
  - intros p u Hp Hu. rewrite drop_app_length' by done. eauto.
Qed.

End Shift.

Lemma token_shift_shifts_second_piece_witness :
  let t := T3 2 4 [[[1; 2; 3; 4]; [5; 6; 7; 8]]]%Z in
  wf3 t /\ 2 <= t3_feat t /\ 1 <= t3_seq t /\
  exists out,
    token_shift 0%Z t = Ok out
    /\ t3_seq out = t3_seq t
    /\ t3_feat out = t3_feat t
    /\ forall b s pos v,
         t3_data t !! b = Some s -> s !! pos = Some v ->
         exists s' v',
           t3_data out !! b = Some s'
           /\ s' !! pos = Some v'
           /\ take 2 v' = take 2 v
           /\ (pos = 0 -> drop 2 v' = replicate 2 0%Z)
           /\ (forall p u, pos = S p -> s !! p = Some u ->
                 drop 2 v' = drop 2 u).
Proof.
  intros t.
  assert (Hwf : wf3 t) by (repeat constructor).
  assert (HD : 2 <= t3_feat t) by (simpl; lia).
  assert (Hn : 1 <= t3_seq t) by (simpl; lia).
  split; [exact Hwf|]. split; [exact HD|]. split; [exact Hn|].
  exact (token_shift_shifts_second_piece 0%Z t Hwf HD Hn).
Defined.

(** C6, as stated, at a tensor whose feature axis has one entry:
    [chunk] gives back one piece and the unpacking into two raises. *)
Lemma token_shift_rejects_one_feature :
  token_shift 0%Z (T3 3 1 [[[1]; [5]; [9]]]%Z) = Raise ValueError.
Proof. reflexivity. Qed.

(** An empty sequence axis is rejected as well: there is no last
    position to cut. *)
Lemma token_shift_rejects_empty_sequence :
  token_shift 0%Z (T3 0 4 [[]]) = Raise RuntimeError.
Proof. reflexivity. Qed.

End TokenShiftFacts.

(* --------------------------------------------------------------------- *)
(** ** top_k                                                              *)
(* --------------------------------------------------------------------- *)

Module TopKFacts.
Import Helpers.

(** The count is at least 1, whatever the threshold. *)
Lemma top_k_count_positive (thres : number) (n : nat) (k : Z) :
  top_k_count thres n = Ok k -> (1 <= k)%Z.
Proof.
  unfold top_k_count. intros H.
  apply bind_Ok_inv in H as (k0 & _ & [= <-]). lia.
Qed.

Section Select.
Context {A : Type} (neg_inf : A) (leb : A -> A -> bool).

(** Whatever the comparison answers, a candidate is picked as long as
    one is left, and it is one of the candidates. *)
Lemma foldr_better_elem (cs : list (nat * A)) :
  match foldr (better leb) None cs with
  | None => cs = []
  | Some c => c ∈ cs
  end.
Proof.
  induction cs as [|c0 cs IH]; [done|]. simpl.
  destruct (foldr (better leb) None cs) as [b|]; simpl.
  - destruct (leb (snd b) (snd c0)); [left|by right].
  - left.
Qed.

Lemma pick_elem taken row :
  match pick leb taken row with
  | Some (i, x) => row !! i = Some x /\ i ∉ taken
  | None => forall j y, row !! j = Some y -> j ∈ taken
  end.
Proof.
  unfold pick.
  pose proof (foldr_better_elem
    (filter (fun c => fst c ∉ taken) (imap pair row))) as H.
  destruct (foldr (better leb) None _) as [[i x]|].
  - apply list_elem_of_filter in H as [Hnt Hin].
    apply elem_of_lookup_imap in Hin as (i' & y & [= -> ->] & Hrow). done.
  - intros j y Hj. destruct (decide (j ∈ taken)) as [|Hnt]; [done|].
    exfalso. eapply (filter_nil_not_elem_of _ _ (j, y) H); [done|].
    by apply elem_of_lookup_imap_2.
Qed.

Lemma topk_from_columns k : forall taken row,
  NoDup taken -> length taken + k <= length row ->
  let sel := topk_from leb k taken row in
  length sel = k
  /\ NoDup sel.*1
  /\ (forall i x, (i, x) ∈ sel -> row !! i = Some x /\ i ∉ taken).
Proof.
  induction k as [|k IH]; intros taken row Hnd Hlen; simpl.
  { split; [done|]. split; [constructor|].
    intros i x H. by apply elem_of_nil in H. }
  pose proof (pick_elem taken row) as Hp.
  destruct (pick leb taken row) as [[i x]|].
  - destruct Hp as [Hrow Hnt].
    destruct (IH (i :: taken) row) as (Hl & Hnd' & Hin).
    { by constructor. }
    { simpl. lia. }
    simpl. split; [by rewrite Hl|]. split.
    + constructor; [|done]. intros Hi.
      apply list_elem_of_fmap in Hi as ([i' x'] & -> & Hi).
      apply Hin in Hi as [_ Hi]. apply Hi. simpl. left.
    + intros i' x' [[= -> ->]|Hi]%elem_of_cons; [done|].
      apply Hin in Hi as [? Hi]. split; [done|].
      intros ?. apply Hi. by right.
  - exfalso.
    assert (Hsub : seq 0 (length row) ⊆+ taken).
    { apply NoDup_submseteq; [apply NoDup_seq|].
      intros j [_ Hj]%elem_of_seq.
      destruct (lookup_lt_is_Some_2 row j) as [y Hy]; [lia|]. eauto. }
    apply submseteq_length in Hsub. rewrite length_seq in Hsub. lia.
Qed.

(** Taking the best candidate again and again gives different columns
    of the row, whatever the comparison answers. *)
Lemma largest_first_columns : topk_columns (largest_first leb).
Proof.
  intros k row Hk. unfold largest_first.
  destruct (topk_from_columns k [] row) as (Hl & Hnd & Hin).
  { constructor. }
  { simpl. lia. }
  split; [done|]. split; [done|]. intros i x Hi. by apply Hin.
Qed.

Section LargestFirst.
Hypothesis leb_total : forall x y, leb x y = true \/ leb y x = true.
Hypothesis leb_trans :
  forall x y z, leb x y = true -> leb y z = true -> leb x z = true.

Lemma foldr_better (cs : list (nat * A)) :
  match foldr (better leb) None cs with
  | None => cs = []
  | Some c => c ∈ cs /\ forall c', c' ∈ cs -> leb (snd c') (snd c) = true
  end.
Proof.
  induction cs as [|c0 cs IH]; [done|]. simpl.
  assert (Hrefl : leb (snd c0) (snd c0) = true)
    by (destruct (leb_total (snd c0) (snd c0)); done).
  destruct (foldr (better leb) None cs) as [b|]; simpl.
  - destruct IH as [Hb Hmax].
    destruct (leb (snd b) (snd c0)) eqn:E.
    + split; [left|]. intros c' [->|Hc']%elem_of_cons; [done|]. eauto.
    + split; [by right|]. intros c' [->|Hc']%elem_of_cons; [|eauto].
      destruct (leb_total (snd c0) (snd b)); congruence.
  - subst cs. split; [left|]. by intros c' ->%list_elem_of_singleton.
Qed.

Lemma pick_Some taken row i x :
  pick leb taken row = Some (i, x) ->
  row !! i = Some x /\ (i ∉ taken)
  /\ forall j y, row !! j = Some y -> j ∉ taken -> leb y x = true.
Proof.
  unfold pick. intros Hp.
  pose proof (foldr_better
    (filter (fun c => fst c ∉ taken) (imap pair row))) as H.
  rewrite Hp in H. destruct H as [Hin Hmax].
  apply list_elem_of_filter in Hin as [Hnt Hin].
  apply elem_of_lookup_imap in Hin as (i' & y & [= -> ->] & Hrow).
  split; [done|]. split; [done|]. intros j z Hj Hjt.
  apply (Hmax (j, z)). apply list_elem_of_filter. split; [done|].
  by apply elem_of_lookup_imap_2.
Qed.

Lemma pick_None taken row j y :
  pick leb taken row = None -> row !! j = Some y -> j ∈ taken.
Proof.
  unfold pick. intros Hp Hj.
  pose proof (foldr_better
    (filter (fun c => fst c ∉ taken) (imap pair row))) as H.
  rewrite Hp in H.
  destruct (decide (j ∈ taken)) as [|Hnt]; [done|]. exfalso.
  eapply (filter_nil_not_elem_of _ _ (j, y) H); [done|].
  by apply elem_of_lookup_imap_2.
Qed.

Lemma topk_from_spec k : forall taken row,
  NoDup taken -> length taken + k <= length row ->
  let sel := topk_from leb k taken row in
  length sel = k
  /\ NoDup sel.*1
  /\ (forall i x, (i, x) ∈ sel -> row !! i = Some x /\ i ∉ taken)
  /\ (forall i x j y, (i, x) ∈ sel -> row !! j = Some y ->
        j ∉ taken -> j ∉ sel.*1 -> leb y x = true).
Proof.
  induction k as [|k IH]; intros taken row Hnd Hlen; simpl.
  { split; [done|]. split; [constructor|].
    split; [intros i x H|intros i x j y H]; by apply elem_of_nil in H. }
  destruct (pick leb taken row) as [[i x]|] eqn:Hp.
  - destruct (pick_Some _ _ _ _ Hp) as (Hrow & Hnt & Hmax).
    destruct (IH (i :: taken) row) as (Hl & Hnd' & Hin & Hle).
    { by constructor. }
    { simpl. lia. }
    simpl. split; [by rewrite Hl|].
    split; [|split].
    + constructor; [|done]. intros Hi.
      apply list_elem_of_fmap in Hi as ([i' x'] & -> & Hi).
      apply Hin in Hi as [_ Hi]. apply Hi. simpl. left.
    + intros i' x' [[= -> ->]|Hi]%elem_of_cons; [done|].
      apply Hin in Hi as [? Hi]. split; [done|].
      intros ?. apply Hi. by right.
    + intros i' x' j y [[= -> ->]|Hi]%elem_of_cons Hj Hjt Hjs.
      * eauto.
      * apply (Hle i' x' j y Hi Hj).
        -- intros [->|?]%elem_of_cons; [|done]. apply Hjs. left.
        -- intros ?. apply Hjs. by right.
  - exfalso.
    assert (Hsub : seq 0 (length row) ⊆+ taken).
    { apply NoDup_submseteq; [apply NoDup_seq|].
      intros j [_ Hj]%elem_of_seq.
      destruct (lookup_lt_is_Some_2 row j) as [y Hy]; [lia|].
      eapply pick_None; eauto. }
    apply submseteq_length in Hsub. rewrite length_seq in Hsub. lia.
Qed.

(** Taking the largest entry again and again is a selection as
    [torch.topk] makes one. *)
Lemma largest_first_spec : topk_spec leb (largest_first leb).
Proof.
  split; [apply largest_first_columns|].
  intros k row Hk. unfold largest_first.
  destruct (topk_from_spec k [] row) as (Hl & Hnd & Hin & Hmax).
  { constructor. }
  { simpl. lia. }
  intros i x j y Hi Hj Hjs. eapply Hmax; eauto. apply not_elem_of_nil.
Qed.

End LargestFirst.

Lemma scatter_length (sel : list (nat * A)) : forall probs : list A,
  length (fold_left (fun p iv => <[fst iv := snd iv]> p) sel probs)
  = length probs.
Proof.
  induction sel as [|[i x] sel IH]; intros probs; simpl; [done|].
  by rewrite IH, length_insert.
Qed.

Lemma scatter_other (sel : list (nat * A)) i : forall probs : list A,
  i ∉ sel.*1 ->
  fold_left (fun p iv => <[fst iv := snd iv]> p) sel probs !! i = probs !! i.
Proof.
  induction sel as [|[i0 x0] sel IH]; intros probs Hi; simpl; [done|].
  rewrite IH by (intros ?; apply Hi; by right).
  apply list_lookup_insert_ne. intros ->. apply Hi. left.
Qed.

Lemma scatter_selected (sel : list (nat * A)) i x : forall probs : list A,
  NoDup sel.*1 -> (i, x) ∈ sel -> i < length probs ->
  fold_left (fun p iv => <[fst iv := snd iv]> p) sel probs !! i = Some x.
Proof.
  induction sel as [|[i0 x0] sel IH]; intros probs Hnd Hin Hlt; simpl.
  { by apply elem_of_nil in Hin. }
  apply NoDup_cons in Hnd as [Hi0 Hnd].
  apply elem_of_cons in Hin as [[= -> ->]|Hin].
  - rewrite scatter_other by done. by apply list_lookup_insert_eq.
  - apply IH; [done|done|by rewrite length_insert].
Qed.

Context (select : nat -> list A -> list (nat * A)).
Hypothesis select_spec : topk_spec leb select.

(** What [top_k] returns when the count is in range: every row
    scattered over minus infinity. *)
Lemma top_k_ok (n : nat) (logits : list (list A)) (thres : number) (k : Z) :
  top_k_count thres n = Ok k ->
  Z.to_nat k <= n ->
  top_k neg_inf select n logits thres
  = Ok (map (fun row =>
               scatter_row (replicate n neg_inf)
                 (select (Z.to_nat k) row).*1 (select (Z.to_nat k) row).*2)
            logits).
Proof.
  intros Hk Hle. unfold top_k. rewrite Hk. cbn [mbind result_bind].
  unfold topk.
  destruct (n <? Z.to_nat k) eqn:E; [apply Nat.ltb_lt in E; lia|].
  cbn [mbind result_bind]. f_equal.
  change (map ?f logits) with (f <$> logits).
  rewrite zip_with_fmap_r, zip_with_diag. done.
Qed.

Lemma top_k_out_of_range (n : nat) (logits : list (list A))
    (thres : number) (k : Z) :
  top_k_count thres n = Ok k ->
  n < Z.to_nat k ->
  top_k neg_inf select n logits thres = Raise RuntimeError.
Proof.
  intros Hk Hlt. unfold top_k. rewrite Hk. cbn [mbind result_bind].
  unfold topk.
  destruct (n <? Z.to_nat k) eqn:E; [done|apply Nat.ltb_ge in E; lia].
Qed.

(** One row of the result. *)
Lemma top_k_row (n k : nat) (row : list A) :
  length row = n -> k <= n ->
  let ks := kept select k row in
  let orow := scatter_row (replicate n neg_inf) ks (select k row).*2 in
  length orow = n
  /\ NoDup ks
  /\ length ks = k
  /\ (forall i, i ∈ ks -> i < n /\ orow !! i = row !! i)
  /\ (forall i, i < n -> i ∉ ks -> orow !! i = Some neg_inf)
  /\ (forall i j x y, i ∈ ks -> j ∉ ks ->
        row !! i = Some x -> row !! j = Some y -> leb y x = true).
Proof.
  intros Hrow Hk ks orow.
  destruct select_spec as [Hcol Hdom].
  destruct (Hcol k row) as (Hl & Hnd & Hin); [lia|].
  pose proof (Hdom k row ltac:(lia)) as Hmax. cbv zeta in Hmax.
  unfold orow, ks, kept, scatter_row. rewrite zip_fst_snd.
  set (sel := select k row) in *.
  split; [by rewrite scatter_length, length_replicate|].
  split; [done|]. split; [by rewrite length_fmap|].
  split; [|split].
  - intros i Hi. apply list_elem_of_fmap in Hi as ([i' x] & -> & Hi).
    simpl. pose proof (Hin _ _ Hi) as Hix.
    assert (i' < n) by (rewrite <- Hrow; eapply lookup_lt_Some; eauto).
    split; [done|]. rewrite Hix.
    apply scatter_selected; [done|done|by rewrite length_replicate].
  - intros i Hi Hni. rewrite scatter_other by done.
    by apply lookup_replicate_2.
  - intros i j x y Hi Hj Hx Hy.
    apply list_elem_of_fmap in Hi as ([i' x'] & -> & Hi). simpl in Hx.
    pose proof (Hin _ _ Hi) as Hix.
    assert (x' = x) as -> by congruence.
    eapply Hmax; eauto.
Qed.

(** C7 (amended).  For a batch of logit rows of [n] entries and a
    threshold [thres], let [k = max(int((1 - thres) * n), 1)] be the
    count as Python computes it (in binary64 for a float threshold).
    The count is at least 1.  When it is larger than [n], [torch.topk]
    raises.  Otherwise [top_k] keeps in every row [k] entries with their
    values, none of them smaller than an entry it does not keep, and
    sets every other entry to minus infinity; among equal entries the
    ones kept are those [torch.topk] selects. *)
Theorem top_k_keeps_the_largest (n : nat) (logits : list (list A))
    (thres : number) (k : Z) :
  top_k_count thres n = Ok k ->
  Forall (fun row => length row = n) logits ->
  (1 <= k)%Z
  /\ ((Z.of_nat n < k)%Z ->
      top_k neg_inf select n logits thres = Raise RuntimeError)
  /\ ((k <= Z.of_nat n)%Z ->
      exists out,
        top_k neg_inf select n logits thres = Ok out
        /\ length out = length logits
        /\ forall b row, logits !! b = Some row ->
             exists orow,
               out !! b = Some orow
               /\ length orow = n
               /\ let ks := kept select (Z.to_nat k) row in
                  NoDup ks
                  /\ length ks = Z.to_nat k
                  /\ (forall i, i ∈ ks -> i < n /\ orow !! i = row !! i)
                  /\ (forall i, i < n -> i ∉ ks -> orow !! i = Some neg_inf)
                  /\ (forall i j x y, i ∈ ks -> j ∉ ks ->
                        row !! i = Some x -> row !! j = Some y ->
                        leb y x = true)).
Proof.
  intros Hk Hrows.
  split; [by apply (top_k_count_positive thres n)|]. split.
  - intros Hlt. apply (top_k_out_of_range n logits thres k Hk). lia.
  - intros Hle. assert (Hle' : Z.to_nat k <= n) by lia.
    rewrite (top_k_ok n logits thres k Hk Hle').
    eexists. split; [reflexivity|]. split; [by rewrite length_map|].
    intros b row Hb.
    assert (Hrow : length row = n).
    { eapply (proj1 (Forall_lookup _ _) Hrows); eauto. }
    eexists. split; [by rewrite lookup_map, Hb|].
    apply (top_k_row n (Z.to_nat k) row Hrow Hle').
Qed.

End Select.

Lemma xint_leb_total (x y : xint) :
  xint_leb x y = true \/ xint_leb y x = true.
Proof. destruct x, y; simpl; auto. destruct (Z.leb_spec z z0); [auto|right]. lia. Qed.

Lemma xint_leb_trans (x y z : xint) :
  xint_leb x y = true -> xint_leb y z = true -> xint_leb x z = true.
Proof. destruct x, y, z; simpl; try done. lia. Qed.

Lemma xint_largest_first_spec : topk_spec xint_leb (largest_first xint_leb).
Proof. apply largest_first_spec; [apply xint_leb_total|apply xint_leb_trans]. Qed.

Lemma top_k_keeps_the_largest_witness :
  let logits := [[Fin 1; Fin 7; Fin 3; Fin 5]] in
  let thres := PyFloat (float_lit (1 # 2)) in
  let select := largest_first xint_leb in
  (topk_spec xint_leb select
   /\ top_k_count thres 4 = Ok 2%Z
   /\ Forall (fun row => length row = 4) logits) /\
  exists out,
    top_k NegInf select 4 logits thres = Ok out
    /\ length out = length logits
    /\ forall b row, logits !! b = Some row ->
         exists orow,
           out !! b = Some orow
           /\ length orow = 4
           /\ let ks := kept select (Z.to_nat 2) row in
              NoDup ks
              /\ length ks = Z.to_nat 2
              /\ (forall i, i ∈ ks -> i < 4 /\ orow !! i = row !! i)
              /\ (forall i, i < 4 -> i ∉ ks -> orow !! i = Some NegInf)
              /\ (forall i j x y, i ∈ ks -> j ∉ ks ->
                    row !! i = Some x -> row !! j = Some y ->
                    xint_leb y x = true).
Proof.
  intros logits thres select.
  assert (H1 : topk_spec xint_leb select) by apply xint_largest_first_spec.
  assert (H2 : top_k_count thres 4 = Ok 2%Z) by (vm_compute; reflexivity).
  assert (H3 : Forall (fun row : list xint => length row = 4) logits)
    by (repeat constructor).
  split; [done|].
  refine (proj2 (proj2 (top_k_keeps_the_largest NegInf xint_leb select H1
                          4 logits thres 2%Z H2 H3)) _).
  lia.
Defined.

(** C7, as stated.  At the threshold 1 the fraction [1 - thres] of the
    four logits is no logit at all, and [top_k] keeps one.  At the
    threshold 0.9 the fraction of twenty logits is two logits, and
    [top_k] keeps one: in binary64 [1 - 0.9] is below a tenth and the
    product below 2.  On rows without entries the one logit asked for
    is not there, and [torch.topk] raises. *)
Lemma top_k_keeps_one_at_threshold_one :
  top_k NegInf (largest_first xint_leb) 4 [[Fin 1; Fin 7; Fin 3; Fin 5]]
        (PyInt 1)
  = Ok [[NegInf; Fin 7; NegInf; NegInf]]
  /\ top_k_count (PyInt 1) 4 = Ok 1%Z
  /\ top_k_count (PyFloat (b64 1)) 4 = Ok 1%Z
  /\ top_k_count (PyFloat (float_lit (9 # 10))) 20 = Ok 1%Z
  /\ ((1 - (9 # 10)) * inject_Z 20 == 2)%Q
  /\ top_k NegInf (largest_first xint_leb) 0 [[]] (PyFloat (float_lit (1 # 2)))
     = Raise RuntimeError.
Proof. repeat split; vm_compute; reflexivity. Qed.

End TopKFacts.

(* --------------------------------------------------------------------- *)
(** ** Shapes: torch and einops operations                                *)
(* --------------------------------------------------------------------- *)

Module ShapeOps.
Import Helpers Shapes TokenShiftFacts.

Lemma unsnoc_app (o : shape) (d : nat) : unsnoc (o ++ [d]) = Some (o, d).
Proof. unfold unsnoc. by rewrite reverse_snoc, reverse_involutive. Qed.

Lemma unsnoc2_app (o : shape) (n d : nat) :
  unsnoc2 (o ++ [n; d]) = Some (o, n, d).
Proof.
  unfold unsnoc2. change [n; d] with ([n] ++ [d]).
  by rewrite app_assoc, !reverse_snoc, reverse_involutive.
Qed.

Lemma unsnoc2_cons (b : nat) (o : shape) (n d : nat) :
  unsnoc2 (b :: o ++ [n; d]) = Some (b :: o, n, d).
Proof. apply (unsnoc2_app (b :: o)). Qed.

Lemma numel_cons (a : nat) (s : shape) : numel (a :: s) = a * numel s.
Proof. reflexivity. Qed.

Lemma numel_app (a b : shape) : numel (a ++ b) = numel a * numel b.
Proof.
  induction a as [|x a IH]; simpl; [lia|].
  change (fold_right Nat.mul 1 (a ++ b)) with (numel (a ++ b)).
  change (fold_right Nat.mul 1 a) with (numel a). rewrite IH. lia.
Qed.

Lemma numel_reverse (s : shape) : numel (reverse s) = numel s.
Proof.
  induction s as [|x s IH]; [done|].
  rewrite reverse_cons, numel_app, IH, !numel_cons. simpl. lia.
Qed.

Lemma numel_pos (s : shape) : Forall (fun n => 0 < n) s -> 0 < numel s.
Proof.
  induction 1 as [|x s Hx _ IH]; simpl; [lia|].
  change (fold_right Nat.mul 1 s) with (numel s). nia.
Qed.

Lemma fold_left_mul (l : list nat) : forall a,
  fold_left Nat.mul l a = a * numel l.
Proof.
  induction l as [|x l IH]; intros a; simpl; [lia|].
  rewrite IH. change (fold_right Nat.mul 1 l) with (numel l). lia.
Qed.

Lemma reduce_mult_numel (l : list nat) : reduce_mult l = numel l.
Proof. unfold reduce_mult. rewrite fold_left_mul. lia. Qed.

Lemma broadcast_rev_same (s : list nat) : broadcast_rev s s = Ok s.
Proof.
  induction s as [|x s IH]; [done|]. simpl. rewrite IH. simpl.
  by rewrite Nat.eqb_refl.
Qed.

Lemma broadcast_same (s : shape) : broadcast s s = Ok s.
Proof.
  unfold broadcast. rewrite broadcast_rev_same. simpl.
  by rewrite reverse_involutive.
Qed.

(** Adding a tensor of the shape of the last two axes. *)
Lemma broadcast_last2 (o : shape) (n d : nat) :
  broadcast (o ++ [n; d]) [n; d] = Ok (o ++ [n; d]).
Proof.
  unfold broadcast. change [n; d] with ([n] ++ [d]) at 1.
  rewrite app_assoc, !reverse_snoc.
  change (reverse [n; d]) with [d; n]. simpl.
  destruct (reverse o) as [|x r] eqn:E; simpl; rewrite !Nat.eqb_refl; simpl.
  - apply (f_equal reverse) in E. rewrite reverse_involutive in E.
    subst o. done.
  - change [n; d] with ([n] ++ [d]).
    rewrite app_assoc, <- (reverse_involutive ((o ++ [n]) ++ [d])).
    by rewrite !reverse_snoc, E.
Qed.

Lemma broadcast_last2_cons (b : nat) (o : shape) (n d : nat) :
  broadcast (b :: o ++ [n; d]) [n; d] = Ok (b :: o ++ [n; d]).
Proof. apply (broadcast_last2 (b :: o)). Qed.

Lemma cat_m1_flat (b x y : nat) : cat_m1 [b; x] [b; y] = Ok [b; x + y].
Proof.
  unfold cat_m1. change [b; x] with ([b] ++ [x]).
  change [b; y] with ([b] ++ [y]). rewrite !unsnoc_app.
  by rewrite decide_True.
Qed.

Lemma cat_m2_3 (B x y d : nat) : cat_m2 [B; x; d] [B; y; d] = Ok [B; x + y; d].
Proof.
  unfold cat_m2. change [B; x; d] with ([B] ++ [x; d]).
  change [B; y; d] with ([B] ++ [y; d]). rewrite !unsnoc2_app.
  by rewrite decide_True.
Qed.

Lemma slice_axis_m2_app f (o : shape) (n d : nat) :
  slice_axis_m2 f (o ++ [n; d]) = Ok (o ++ [f n; d]).
Proof. unfold slice_axis_m2. by rewrite unsnoc2_app. Qed.

Lemma slice_axis_m2_cons f (b : nat) (o : shape) (n d : nat) :
  slice_axis_m2 f (b :: o ++ [n; d]) = Ok (b :: o ++ [f n; d]).
Proof. apply (slice_axis_m2_app f (b :: o)). Qed.

Lemma linear_app (i o : nat) (s : shape) :
  linear i o (s ++ [i]) = Ok (s ++ [o]).
Proof. unfold linear. by rewrite unsnoc_app, Nat.eqb_refl. Qed.

Lemma linear_cons (i o b : nat) (s : shape) :
  linear i o (b :: s ++ [i]) = Ok (b :: s ++ [o]).
Proof. apply (linear_app i o (b :: s)). Qed.

Lemma merge_last2_app (o : shape) (m n : nat) :
  merge_last2 (o ++ [m; n]) = Ok (o ++ [m * n]).
Proof. unfold merge_last2. by rewrite unsnoc2_app. Qed.

Lemma merge_last2_cons (b : nat) (o : shape) (m n : nat) :
  merge_last2 (b :: o ++ [m; n]) = Ok (b :: o ++ [m * n]).
Proof. apply (merge_last2_app (b :: o)). Qed.

Lemma flatten_middle_app (b c : nat) (mid : shape) :
  flatten_middle (b :: mid ++ [c]) = Ok [b; numel mid; c].
Proof. unfold flatten_middle. by rewrite unsnoc_app. Qed.

Lemma broadcast_last (o : shape) (d : nat) :
  broadcast (o ++ [d]) [d] = Ok (o ++ [d]).
Proof.
  assert (H : forall l, broadcast_rev l [] = Ok l) by (by intros [|? ?]).
  unfold broadcast. rewrite reverse_app.
  change (reverse [d] ++ reverse o) with (d :: reverse o).
  change (reverse [d]) with [d].
  cbn [broadcast_rev]. rewrite H. cbn [mbind result_bind].
  rewrite Nat.eqb_refl. cbn [mbind result_bind].
  by rewrite reverse_cons, reverse_involutive.
Qed.

Lemma rms_norm_3 (B n d : nat) : rms_norm d [B; n; d] = Ok [B; n; d].
Proof. apply (broadcast_last [B; n] d). Qed.

Lemma linear_3 (B n i o : nat) : linear i o [B; n; i] = Ok [B; n; o].
Proof. apply (linear_app i o [B; n]). Qed.

Lemma chunk_sizes_double (h : nat) : chunk_sizes 2 (h * 2) = [h; h].
Proof. rewrite Nat.mul_comm. apply chunk_sizes_even. Qed.

Lemma chunk2_double (o : shape) (h : nat) :
  chunk2 (o ++ [h * 2]) = Ok (o ++ [h], o ++ [h]).
Proof.
  unfold chunk2. by rewrite unsnoc_app, chunk_sizes_double.
Qed.

Lemma split_heads_ok (B n dh h : nat) :
  1 <= h -> split_heads h [B; n; dh * h] = Ok [B; h; n; dh].
Proof.
  intros Hh. unfold split_heads.
  destruct (h =? 0) eqn:E; [apply Nat.eqb_eq in E; lia|].
  rewrite Nat.Div0.mod_mul, Nat.div_mul by lia. done.
Qed.

Lemma feed_forward_keeps_shape (B n d mult : nat) :
  feed_forward d mult [B; n; d] = Ok [B; n; d].
Proof.
  unfold feed_forward. rewrite rms_norm_3. cbn [mbind result_bind].
  rewrite linear_3. cbn [mbind result_bind]. by rewrite linear_3.
Qed.

(** The width of the rotary table. *)
Lemma rotary_width_even (e : nat) :
  (2 * e + 1) / 2 + (2 * e + 1) / 2 = 2 * e.
Proof. destruct (half_even e) as [_ ->]. lia. Qed.

Lemma rotary_width_odd (e : nat) :
  (2 * e + 1 + 1) / 2 + (2 * e + 1 + 1) / 2 = 2 * e + 2.
Proof. rewrite half_odd. lia. Qed.

Lemma apply_rotary_even (B h n e : nat) :
  apply_rotary_pos_emb [n; 2 * e] [B; h; n; 2 * e] = Ok [B; h; n; 2 * e].
Proof.
  unfold apply_rotary_pos_emb.
  pose proof (broadcast_last2 [B; h] n (2 * e)) as Hb. cbn [app] in Hb.
  rewrite Hb. cbn [mbind result_bind].
  unfold rotate_half.
  pose proof (chunk2_double [B; h; n] e) as Hc. cbn [app] in Hc.
  replace (e * 2) with (2 * e) in Hc by lia. rewrite Hc.
  cbn [mbind result_bind]. unfold cat_m1.
  pose proof (unsnoc_app [B; h; n] e) as Hu. cbn [app] in Hu. rewrite Hu.
  rewrite decide_True by done. cbn [app].
  replace (e + e) with (2 * e) by lia. cbn [mbind result_bind].
  rewrite Hb. cbn [mbind result_bind]. apply broadcast_same.
Qed.

Lemma attend_same (B h n d : nat) :
  attend [B; h; n; d] [B; h; n; d] [B; h; n; d] = Ok [B; h; n; d].
Proof. unfold attend. by rewrite decide_True. Qed.

Section Attention.
Context (a : Attention) (B n : nat).
Hypothesis Hheads : 1 <= at_heads a.

(** The attention block up to the rotary positions: queries, keys and
    values, one head after the other. *)
Lemma attention_heads (rotary_emb : option shape) :
  attention a rotary_emb [B; n; at_dim a]
  = ('(q, k) ← match rotary_emb with
               | Some pos =>
                   q ← apply_rotary_pos_emb pos
                         [B; at_heads a; n; at_dim_head a];
                   k ← apply_rotary_pos_emb pos
                         [B; at_heads a; n; at_dim_head a];
                   Ok (q, k)
               | None => Ok ([B; at_heads a; n; at_dim_head a],
                             [B; at_heads a; n; at_dim_head a])
               end;
     out ← attend q k [B; at_heads a; n; at_dim_head a];
     out ← merge_heads out;
     linear (at_dim_head a * at_heads a) (at_dim a) out).
Proof.
  unfold attention. rewrite rms_norm_3. cbn [mbind result_bind].
  rewrite !linear_3. cbn [mbind result_bind].
  pose proof (chunk2_double [B; n] (at_dim_head a * at_heads a)) as Hc.
  cbn [app] in Hc. rewrite Hc. cbn [mbind result_bind].
  rewrite !split_heads_ok by done. cbn [mbind result_bind]. done.
Qed.

Lemma attention_tail :
  (out ← attend [B; at_heads a; n; at_dim_head a]
                [B; at_heads a; n; at_dim_head a]
                [B; at_heads a; n; at_dim_head a];
   out ← merge_heads out;
   linear (at_dim_head a * at_heads a) (at_dim a) out)
  = Ok [B; n; at_dim a].
Proof.
  rewrite attend_same. cbn [mbind result_bind merge_heads].
  rewrite (Nat.mul_comm (at_heads a)). apply linear_3.
Qed.

Lemma attention_keeps_shape (rotary_emb : option shape) :
  (rotary_emb = None
   \/ exists e, at_dim_head a = 2 * e /\ rotary_emb = Some [n; 2 * e]) ->
  attention a rotary_emb [B; n; at_dim a] = Ok [B; n; at_dim a].
Proof.
  intros Hr. rewrite attention_heads.
  destruct Hr as [->|(e & He & ->)].
  - cbn [mbind result_bind]. apply attention_tail.
  - rewrite He, apply_rotary_even. cbn [mbind result_bind].
    rewrite <- He. apply attention_tail.
Qed.

End Attention.

Section Transformer.
Context (t : Block) (B n : nat).
Hypothesis Hn : 1 <= n.
Hypothesis Hdim : 2 <= bl_dim t.
Hypothesis Hheads : 1 <= bl_heads t.

Lemma token_shift_shape_3 :
  token_shift_shape [B; n; bl_dim t] = Ok [B; n; bl_dim t].
Proof.
  unfold token_shift_shape.
  pose proof (unsnoc2_app [B] n (bl_dim t)) as Hu. cbn [app] in Hu.
  rewrite Hu, chunk_sizes_two by lia.
  destruct (n <? 1) eqn:E; [apply Nat.ltb_lt in E; lia|].
  cbn [app]. rewrite half_sum. by replace (1 + (n - 1)) with n by lia.
Qed.

Lemma layer_keeps_shape (rotary_emb : option shape) :
  (rotary_emb = None
   \/ exists e, bl_dim_head t = 2 * e /\ rotary_emb = Some [n; 2 * e]) ->
  layer t rotary_emb [B; n; bl_dim t] = Ok [B; n; bl_dim t].
Proof.
  intros Hr. unfold layer. rewrite token_shift_shape_3.
  cbn [mbind result_bind].
  pose proof (attention_keeps_shape
                (Attn (bl_dim t) (bl_dim_head t) (bl_heads t)) B n Hheads
                rotary_emb Hr) as Ha.
  cbn [at_dim] in Ha. rewrite Ha. cbn [mbind result_bind].
  rewrite broadcast_same. cbn [mbind result_bind].
  rewrite token_shift_shape_3. cbn [mbind result_bind].
  rewrite feed_forward_keeps_shape. cbn [mbind result_bind].
  apply broadcast_same.
Qed.

Lemma layers_keep_shape (rotary_emb : option shape) (count : nat) :
  (rotary_emb = None
   \/ exists e, bl_dim_head t = 2 * e /\ rotary_emb = Some [n; 2 * e]) ->
  layers t rotary_emb count [B; n; bl_dim t] = Ok [B; n; bl_dim t].
Proof.
  intros Hr. induction count as [|count IH]; [done|].
  cbn [layers]. rewrite layer_keeps_shape by done. done.
Qed.

End Transformer.

(** [Transformer.forward] keeps the shape of three axes. *)
Lemma transformer_forward_3 (t : Block) (B n : nat) :
  1 <= n -> 2 <= bl_dim t -> 1 <= bl_heads t ->
  (bl_rel_pos t = true -> exists e, bl_dim_head t = 2 * e) ->
  transformer_forward t [B; n; bl_dim t] = Ok [B; n; bl_dim t].
Proof.
  intros Hn Hdim Hheads Hrot. unfold transformer_forward.
  pose proof (unsnoc2_app [B] n (bl_dim t)) as Hu. cbn [app] in Hu.
  rewrite Hu. cbn [mbind result_bind].
  rewrite layers_keep_shape; [|done|done|done|].
  - cbn [mbind result_bind]. apply rms_norm_3.
  - destruct (bl_rel_pos t); [|by left]. right.
    destruct (Hrot eq_refl) as [e He]. exists e. split; [done|].
    unfold rotary_table. by rewrite He, rotary_width_even.
Qed.

(** What the attention of a transformer needs: a head, and an even head
    size for rotary positions. *)
Lemma transformer_3 (t : Transformer) (B n : nat) :
  1 <= n -> 2 <= tr_dim t -> 1 <= tr_heads t ->
  (tr_rel_pos t = true -> exists e, tr_dim_head t = 2 * e) ->
  transformer t [B; n; tr_dim t] = Ok [B; n; tr_dim t].
Proof.
  intros Hn Hdim Hheads Hrot. unfold transformer.
  by apply (transformer_forward_3
              (Blk (tr_dim t) (tr_layers t) (tr_dim_head t) (tr_heads t)
                   (tr_ff_mult t) (tr_rel_pos t)) B n).
Qed.

(** Ids inside the table are embedded. *)
Lemma embedding_ok (e : Embedding) (written : list Z) (ids : shape) :
  Forall (fun v => (0 <= v < Z.of_nat (emb_num e))%Z) written ->
  embedding e written ids = Ok (ids ++ [emb_dim e]).
Proof.
  intros Hw. unfold embedding.
  replace (forallb _ written) with true; [done|].
  symmetry. apply forallb_forall. intros v Hv%list_elem_of_In.
  apply (proj1 (Forall_forall _ _) Hw) in Hv. lia.
Qed.

(** The opening statements of [forward] on a flat input: refused for a
    single row of four ids or more. *)
Lemma forward_ids_flat (b L Lt : nat) :
  forward_ids [b; L] [b; Lt]
  = if bool_decide (b = 1 /\ 4 <= L) then Raise RuntimeError
    else Ok [b; L - 1 + Nat.min 1 Lt].
Proof.
  unfold forward_ids, slice_axis1, shift_in_place.
  cbn [mbind result_bind numel fold_right Nat.eqb negb].
  rewrite andb_true_r. unfold to_m1, from_m1.
  destruct (Nat.eqb_spec b 1) as [Hb|Hb];
    destruct (Nat.leb_spec 3 (L - 1)) as [HL|HL]; cbn [andb].
  1: rewrite bool_decide_eq_true_2 by lia; done.
  all: rewrite bool_decide_eq_false_2 by lia.
  all: cbn [mbind result_bind]; apply cat_m1_flat.
Qed.

Lemma to_m1_succ (n : nat) : to_m1 (1 + n) = n.
Proof. unfold to_m1. lia. Qed.

Lemma from_1_succ (n : nat) : from_1 (1 + n) = n.
Proof. unfold from_1. lia. Qed.

(** A projection to the next stage turns every coarse position into
    [next_seq_len] finer ones. *)
Lemma apply_projection_Project (h nh ns b c : nat) (mid : shape) :
  0 < ns ->
  apply_projection (Project h nh ns) (b :: mid ++ [c; h])
  = Ok [b * numel (mid ++ [c]); ns; nh].
Proof.
  intros Hns. unfold apply_projection.
  change (b :: mid ++ [c; h]) with (b :: mid ++ [c] ++ [h]).
  rewrite app_assoc, flatten_middle_app. simpl.
  change [b; numel (mid ++ [c]); h] with ([b; numel (mid ++ [c])] ++ [h]).
  rewrite linear_app. simpl.
  destruct (ns =? 0) eqn:E; [apply Nat.eqb_eq in E; lia|].
  by rewrite Nat.div_mul by lia.
Qed.

End ShapeOps.

(* --------------------------------------------------------------------- *)
(** ** Shapes: what the constructor builds                                *)
(* --------------------------------------------------------------------- *)

Module InitFacts.
Import Helpers Shapes ShapeOps.

Lemma mapM_result_map {A B C} (f : B -> result C) (h : A -> B) (g : A -> C)
    (l : list A) :
  Forall (fun x => f (h x) = Ok (g x)) l ->
  mapM f (map h l) = Ok (map g l).
Proof.
  induction 1 as [|x l Hx _ IH]; [done|].
  simpl. rewrite Hx. simpl. rewrite IH. done.
Qed.

Lemma unsnoc_Some (s o : shape) (d : nat) :
  unsnoc s = Some (o, d) -> s = o ++ [d].
Proof.
  unfold unsnoc. destruct (reverse s) as [|x r] eqn:E; [done|].
  intros [= <- <-]. apply (f_equal reverse) in E.
  rewrite reverse_involutive in E. by rewrite E, reverse_cons.
Qed.

Lemma build_stage_at (config : MegaByteConfig) (dims depth msl : list nat)
    (i : nat) :
  length dims = length depth -> length msl = length depth ->
  i < length depth ->
  build_stage config (dims !! i, tail dims !! i, depth !! i, tail msl !! i)
  = Ok (stage_at config (length depth) dims depth msl i).
Proof.
  intros Hd Hm Hi. unfold build_stage, stage_at, projection_at.
  rewrite (list_lookup_lookup_total_lt dims i) by lia.
  rewrite (list_lookup_lookup_total_lt depth i) by lia.
  rewrite !lookup_tail. replace (i + 1) with (S i) by lia.
  case_decide as Hlt.
  - rewrite (list_lookup_lookup_total_lt dims (S i)) by lia.
    rewrite (list_lookup_lookup_total_lt msl (S i)) by lia. done.
  - rewrite (lookup_ge_None_2 dims (S i)) by lia. done.
Qed.

(** What [__init__] leaves in the model. *)
Lemma init_inv (config : MegaByteConfig) (m : MegaByte) :
  init config = Ok m ->
  let S := length (depth config) in
  let dims := cast_tuple (dim config) S in
  let msl := max_seq_len config in
  length msl = S /\ length dims = S /\ 1 <= S
  /\ stages m = S
  /\ mb_max_seq_len m = msl
  /\ start_tokens m = dims
  /\ pos_embs m
     = (if pos_emb config
        then Some (map (fun p => Emb (snd p) (fst p)) (zip dims msl))
        else None)
  /\ token_embs m
     = TokFine (Emb (num_tokens config) (dims !!! (S - 1)))
       :: patch_embs (num_tokens config) (dims !!! (S - 1)) 1
            (zip (reverse (removelast dims)) (reverse (tail msl)))
  /\ transformers m
     = (map (stage_at config S dims (depth config) msl) (seq 0 S)).*1
  /\ to_next_transformer_projections m
     = (map (stage_at config S dims (depth config) msl) (seq 0 S)).*2
  /\ to_logits m = (dims !!! (S - 1), num_tokens config)
  /\ mb_pad_id m = pad_id config.
Proof.
  intros H S dims msl. unfold init in H. fold S dims msl in H.
  destruct (S =? length msl) eqn:E1; [|discriminate].
  apply Nat.eqb_eq in E1. simpl in H.
  destruct (length dims =? S) eqn:E2; [|discriminate].
  apply Nat.eqb_eq in E2. simpl in H.
  destruct (unsnoc dims) as [[o fd]|] eqn:E3; [|discriminate].
  apply unsnoc_Some in E3. simpl in H.
  assert (HS : 1 <= S).
  { rewrite <- E2, E3, length_app. simpl. lia. }
  assert (Hfd : dims !!! (S - 1) = fd).
  { apply list_lookup_total_correct. rewrite E3.
    rewrite lookup_app_r; rewrite <- E2, E3, length_app; simpl.
    - by replace (length o + 1 - 1 - length o) with 0 by lia.
    - lia. }
  assert (Hbuilt : mapM (build_stage config)
                     (zip_longest4 dims (tail dims) (depth config) (tail msl))
                   = Ok (map (stage_at config S dims (depth config) msl)
                             (seq 0 S))).
  { unfold zip_longest4. rewrite !length_tl.
    replace (Nat.max (Nat.max (Nat.max (length dims) (length dims - 1))
                         (length (depth config))) (length msl - 1))
      with S by (fold S; lia).
    apply mapM_result_map. apply Forall_forall.
    intros i [_ Hi]%elem_of_seq. apply build_stage_at; fold S; lia. }
  rewrite Hbuilt in H. simpl in H. injection H as <-. simpl.
  rewrite Hfd. repeat split; try done; try lia.
  apply fst_zip. lia.
Qed.

End InitFacts.

(* --------------------------------------------------------------------- *)
(** ** Shapes: [generate] and the nested input path                       *)
(* --------------------------------------------------------------------- *)

Module CallFacts.
Import Helpers Shapes ShapeOps.

Lemma init_config2 : init config2 = Ok model2.
Proof. reflexivity. Qed.

(** C1.  [generate] calls [self.forward(seq)] with one argument, and
    [forward] requires [targets]: whenever the loop has a turn to make
    (the total capacity is positive and there is no priming sequence),
    the first call raises [TypeError] and nothing is returned. *)
Theorem generate_raises_TypeError (m : MegaByte)
    (filter_thres temperature : number) (default_batch_size : nat) :
  0 < reduce_mult (mb_max_seq_len m) ->
  generate m None filter_thres temperature default_batch_size
  = Raise TypeError.
Proof.
  intros Hpos. unfold generate. simpl. rewrite Nat.sub_0_r.
  destruct (reduce_mult (mb_max_seq_len m)) as [|n]; [lia|]. reflexivity.
Qed.

Lemma generate_raises_TypeError_witness :
  0 < reduce_mult (mb_max_seq_len model2)
  /\ generate model2 None (PyFloat (float_lit (9 # 10))) (PyFloat (b64 1)) 1
     = Raise TypeError.
Proof.
  assert (H : 0 < reduce_mult (mb_max_seq_len model2)) by (vm_compute; lia).
  split; [exact H|].
  exact (generate_raises_TypeError model2 (PyFloat (float_lit (9 # 10)))
           (PyFloat (b64 1)) 1 H).
Defined.

(** A nested input whose first nested size is 3 or more never gets past
    the opening statements of [forward]: the ids lose one entry on axis
    1, the last target has one entry on axis 1, and the concatenation
    along the last axis refuses the two. *)
Lemma forward_nested_RuntimeError (m : MegaByte) (b d0 x : nat)
    (r : list nat) (return_loss : bool) :
  3 <= d0 ->
  forward m (b :: d0 :: r ++ [x]) (b :: d0 :: r ++ [x]) return_loss
  = Raise RuntimeError.
Proof.
  intros Hd. unfold forward, forward_ids. simpl.
  destruct (_ && _); [done|]. simpl.
  unfold cat_m1.
  change (b :: to_m1 d0 :: r ++ [x]) with ((b :: to_m1 d0 :: r) ++ [x]).
  change (b :: from_m1 d0 :: r ++ [x]) with ((b :: from_m1 d0 :: r) ++ [x]).
  rewrite !unsnoc_app. rewrite decide_False; [done|].
  intros [= Heq]. unfold to_m1, from_m1 in Heq.
  destruct d0 as [|[|[|d]]]; simpl in Heq; lia.
Qed.

(** C8, at nested inputs that meet every stated condition.  With
    [max_seq_len = (3, 2)], ids and targets of shape (1, 3, 2) are refused
    by [torch.cat]; with 2 on the first nested axis the concatenation
    goes through, doubles the last axis, and the assertion on the
    non-first sizes fails. *)
Theorem forward_rejects_exact_nested_input :
  stages model2 + 1 = 3
  /\ mb_max_seq_len model2 = [3; 2]
  /\ forward model2 [1; 3; 2] [1; 3; 2] true = Raise RuntimeError
  /\ forward model2 [1; 3; 2] [1; 3; 2] false = Raise RuntimeError
  /\ forward model2 [1; 2; 2] [1; 2; 2] true = Raise AssertionError
  /\ forward model2 [1; 2; 2] [1; 2; 2] false = Raise AssertionError.
Proof. repeat split; vm_compute; reflexivity. Qed.

End CallFacts.

(* --------------------------------------------------------------------- *)
(** ** Shapes: the loops of [forward]                                     *)
(* --------------------------------------------------------------------- *)

Module LoopFacts.
Import Helpers Shapes ShapeOps InitFacts.

Lemma take_succ (l : list nat) (i : nat) :
  i < length l -> take (i + 1) l = take i l ++ [l !!! i].
Proof.
  intros Hi. replace (i + 1) with (S i) by lia.
  apply take_S_r. by apply list_lookup_lookup_total_lt.
Qed.

Lemma drop_head (l : list nat) (i : nat) :
  i < length l -> drop i l = l !!! i :: drop (i + 1) l.
Proof.
  intros Hi. replace (i + 1) with (S i) by lia.
  apply drop_S. by apply list_lookup_lookup_total_lt.
Qed.

Lemma drop_tail (l : list nat) (n : nat) : drop n (tail l) = drop (S n) l.
Proof. destruct l; [by destruct n|done]. Qed.

Section Stages.
Context (b ns : nat) (ds dims depth msl : list nat) (config : MegaByteConfig).
Hypothesis Hheads : 1 <= heads config.
Hypothesis Hrot : rel_pos config = true -> exists e, dim_head config = 2 * e.
Hypothesis Hds : length ds = ns.
Hypothesis Hdims : length dims = ns.
Hypothesis HS : 1 <= ns.
Hypothesis Htail : tail ds = tail msl.
Hypothesis Hpos : Forall (fun n => 0 < n) (tail msl).
Hypothesis Hdim2 : forall i, i < ns -> 2 <= dims !!! i.

Lemma ds_msl (i : nat) : 1 <= i -> ds !!! i = msl !!! i.
Proof.
  intros Hi. destruct i as [|i]; [lia|].
  by rewrite <- !lookup_total_tail, Htail.
Qed.

Lemma msl_pos (i : nat) : 1 <= i -> i < ns -> 0 < msl !!! i.
Proof.
  intros Hi HiS. destruct i as [|i]; [lia|].
  rewrite <- lookup_total_tail.
  eapply (proj1 (Forall_lookup _ _) Hpos i).
  apply list_lookup_lookup_total_lt.
  rewrite <- Htail, length_tl. lia.
Qed.

Lemma stage_loop_from (items : list (nat * shape * Transformer * projection)) :
  forall i prev att,
  i + length items = ns ->
  (forall j it, items !! j = Some it ->
     it = stage_item_at b ns ds dims depth msl config (i + j)) ->
  (i = 0 -> prev = None) ->
  (0 < i -> i < ns -> prev = Some (prev_at b ds dims msl i)) ->
  (0 < i -> att = Some (attended_at b ds dims (i - 1))) ->
  stage_loop items prev att = Ok (Some (attended_at b ds dims (ns - 1))).
Proof.
  induction items as [|it items IH]; intros i prev att Hlen Hitems H0 Hprev Hatt.
  - simpl in *. rewrite Hatt by lia. do 3 f_equal. lia.
  - simpl in Hlen.
    assert (Hit := Hitems 0 it eq_refl). rewrite Nat.add_0_r in Hit.
    subst it. unfold stage_item_at at 1. simpl.
    unfold stage_tokens_at. rewrite take_succ by lia.
    rewrite <- app_assoc. simpl.
    change (b :: take i ds ++ [ds !!! i; dims !!! i])
      with ((b :: take i ds) ++ [ds !!! i; dims !!! i]).
    rewrite unsnoc2_app. simpl. rewrite cat_m2_3. simpl.
    match goal with |- (?e ≫= _) = _ =>
      assert (Hmid : e = Ok [b * numel (take i ds); 1 + ds !!! i; dims !!! i])
    end.
    { destruct (decide (i = 0)) as [->|Hi]; [by rewrite H0|].
      rewrite Hprev by lia. unfold prev_at, pad_front1.
      change [numel (b :: take i ds); msl !!! i; dims !!! i]
        with ([numel (b :: take i ds)] ++ [msl !!! i; dims !!! i]).
      rewrite unsnoc2_app. simpl. rewrite <- ds_msl by lia.
      replace (ds !!! i + 1) with (S (ds !!! i)) by lia.
      apply broadcast_same. }
    rewrite Hmid. simpl.
    pose proof (transformer_3
                  (Tr (dims !!! i) (depth !!! i) (dim_head config)
                      (heads config) (ff_mult config) (rel_pos config))
                  (b * numel (take i ds)) (S (ds !!! i))) as Htr.
    cbn [tr_dim tr_heads tr_rel_pos tr_dim_head] in Htr.
    rewrite Htr by first [lia | apply Hdim2; lia | done].
    simpl.
    rewrite slice_axis_m2_cons. simpl.
    replace (to_m1 (S (ds !!! i))) with (ds !!! i) by (unfold to_m1; lia).
    assert (Hproj : exists p,
      apply_projection (projection_at ns dims msl i)
                       (b :: take i ds ++ [ds !!! i; dims !!! i]) = Ok p
      /\ (i + 1 < ns -> p = prev_at b ds dims msl (i + 1))).
    { unfold projection_at. case_decide as Hlt.
      - eexists. split.
        + apply apply_projection_Project. apply msl_pos; lia.
        + intros _. unfold prev_at. rewrite (take_succ ds i) by lia. done.
      - eexists. split; [reflexivity|]. lia. }
    destruct Hproj as (p & -> & Hp). simpl.
    apply (IH (i + 1)).
    + lia.
    + intros j it Hj. rewrite (Hitems (S j) it Hj). f_equal. lia.
    + lia.
    + intros _ Hlt. f_equal. by apply Hp.
    + intros _. replace (i + 1 - 1) with i by lia. done.
Qed.

End Stages.

Section Tokens.
Context (b ns : nat) (ds dims msl : list nat) (nt : nat) (pe : bool).
Context (written : list Z).
Hypothesis Hwritten : Forall (fun v => (0 <= v < Z.of_nat nt)%Z) written.
Hypothesis Hds : length ds = ns.
Hypothesis Hdims : length dims = ns.
Hypothesis Hmsl : length msl = ns.
Hypothesis HS : 1 <= ns.
Hypothesis Htail : tail ds = tail msl.
Hypothesis Hle : forall i, i < ns -> ds !!! i <= msl !!! i.

Lemma drop_ds_msl (n : nat) : 1 <= n -> drop n ds = drop n msl.
Proof.
  intros Hn. destruct n as [|n]; [lia|].
  by rewrite <- !drop_tail, Htail.
Qed.

(** Adding the positional embedding of stage [i] keeps the shape. *)
Lemma add_positions_at (i : nat) :
  i < ns ->
  match pos_emb_at dims msl pe i with
  | Some e => add_positions e (stage_tokens_at b ds dims i)
  | None => Ok (stage_tokens_at b ds dims i)
  end = Ok (stage_tokens_at b ds dims i).
Proof.
  intros Hi. unfold pos_emb_at. destruct pe; [|done].
  unfold add_positions, stage_tokens_at. rewrite take_succ by lia.
  rewrite <- app_assoc. simpl.
  rewrite unsnoc2_cons. simpl.
  destruct (msl !!! i <? ds !!! i) eqn:E.
  { apply Nat.ltb_lt in E. specialize (Hle i Hi). lia. }
  apply broadcast_last2_cons.
Qed.

Lemma token_loop_from
    (items : list (option nat * option (option Embedding) * option token_emb)) :
  forall k acc,
  1 <= k -> k + length items = ns ->
  (forall j it, items !! j = Some it ->
     it = token_item_at ns dims msl nt pe (k + j)) ->
  token_loop items written (ids_at b ns ds k) acc
  = Ok (map (stage_tokens_at b ds dims) (seq 0 (ns - k)) ++ acc,
        ids_at b ns ds ns).
Proof.
  induction items as [|it items IH]; intros k acc Hk Hlen Hitems.
  - simpl in *. replace (ns - k) with 0 by lia.
    replace k with ns by lia. done.
  - simpl in Hlen.
    assert (Hit := Hitems 0 it eq_refl). rewrite Nat.add_0_r in Hit.
    subst it. unfold token_item_at at 1. simpl.
    rewrite bool_decide_false by (intros [= ?]; lia).
    set (i := ns - 1 - k).
    assert (Hi : i < ns) by (unfold i; lia).
    assert (Hnk : ns - k = i + 1) by (unfold i; lia).
    assert (Htok : apply_token_emb (token_emb_at ns dims msl nt k)
                                   written (ids_at b ns ds k)
                   = Ok (stage_tokens_at b ds dims i)).
    { unfold token_emb_at. destruct k as [|k']; [lia|].
      unfold apply_token_emb. rewrite embedding_ok by done.
      cbn [mbind result_bind].
      unfold ids_at, stage_tokens_at. simpl emb_dim.
      rewrite (drop_ds_msl (ns - S k')) by lia.
      rewrite Hnk.
      change ((b :: take (i + 1) ds ++ [numel (drop (i + 1) msl)])
              ++ [dims !!! (ns - 1)])
        with (b :: (take (i + 1) ds ++ [numel (drop (i + 1) msl)])
                   ++ [dims !!! (ns - 1)]).
      rewrite <- app_assoc. simpl app.
      rewrite merge_last2_cons. simpl.
      rewrite linear_cons. simpl. rewrite linear_cons. done. }
    rewrite Htok. simpl.
    pose proof (add_positions_at i Hi) as Hadd.
    fold i. destruct (pos_emb_at dims msl pe i) as [e|]; rewrite ?Hadd; simpl.
    all: assert (Hids : merge_last2 (ids_at b ns ds k)
                        = Ok (ids_at b ns ds (k + 1))).
    1,3: unfold ids_at; rewrite Hnk;
      replace (ns - (k + 1)) with i by lia;
      rewrite (take_succ ds i) by lia;
      rewrite (drop_head ds i) by lia;
      rewrite <- app_assoc; simpl;
      apply merge_last2_cons.
    all: rewrite Hids; simpl.
    all: rewrite (IH (k + 1)); [| lia | lia
      | intros j it Hj; rewrite (Hitems (S j) it Hj); f_equal; lia].
    all: f_equal; f_equal.
    all: rewrite Hnk; replace (ns - (k + 1)) with i by lia.
    all: replace (i + 1) with (S i) by lia.
    all: rewrite seq_S, map_app; simpl; by rewrite <- app_assoc.
Qed.

End Tokens.

(** *** The lists the loops run over *)

Lemma patch_embs_length (nt fd : nat) (l : list (nat * nat)) : forall p,
  length (patch_embs nt fd p l) = length l.
Proof.
  induction l as [|[dout sl] l IH]; intros p; simpl; [done|]. by rewrite IH.
Qed.

Lemma patch_embs_lookup (nt fd : nat) (l : list (nat * nat)) :
  forall p j dout sl,
  l !! j = Some (dout, sl) ->
  patch_embs nt fd p l !! j
  = Some (TokPatch (Emb nt fd) (p * numel (take (S j) l.*2)) dout).
Proof.
  induction l as [|[d0 s0] l IH]; intros p j dout sl Hj; [done|].
  destruct j as [|j]; simpl in *.
  - injection Hj as -> ->. do 2 f_equal. lia.
  - rewrite (IH _ _ _ _ Hj). do 2 f_equal.
    symmetry. apply Nat.mul_assoc.
Qed.

Section Items.
Context (b ns : nat) (ds dims depth msl : list nat) (nt : nat) (pe : bool).
Context (config : MegaByteConfig).
Hypothesis Hdims : length dims = ns.
Hypothesis Hdepth : length depth = ns.
Hypothesis Hmsl : length msl = ns.
Hypothesis HS : 1 <= ns.

Lemma token_items :
  zip_longest3
    (seq 0 ns)
    (reverse (if pe
              then Some <$> map (fun p => Emb (snd p) (fst p)) (zip dims msl)
              else replicate ns None))
    (TokFine (Emb nt (dims !!! (ns - 1)))
     :: patch_embs nt (dims !!! (ns - 1)) 1
          (zip (reverse (removelast dims)) (reverse (tail msl))))
  = map (token_item_at ns dims msl nt pe) (seq 0 ns).
Proof.
  set (pos := if pe
              then Some <$> map (fun p => Emb (snd p) (fst p)) (zip dims msl)
              else replicate ns None).
  assert (Hposl : length pos = ns).
  { unfold pos. destruct pe.
    - rewrite length_fmap, length_map, length_zip. lia.
    - apply length_replicate. }
  assert (Hrl : length (removelast dims) = ns - 1).
  { rewrite removelast_firstn_len, length_take. lia. }
  unfold zip_longest3. simpl length.
  rewrite length_seq, length_reverse, Hposl, patch_embs_length, length_zip.
  rewrite !length_reverse, Hrl, length_tl, Hmsl.
  replace (Nat.max (Nat.max ns ns) (S (Nat.min (ns - 1) (ns - 1))))
    with ns by lia.
  apply Forall_fmap_ext_1. apply Forall_forall.
  intros i [_ Hi]%elem_of_seq. simpl in Hi. unfold token_item_at.
  f_equal; [f_equal|].
  - by rewrite lookup_seq_lt.
  - rewrite reverse_lookup by lia. rewrite Hposl.
    replace (ns - S i) with (ns - 1 - i) by lia.
    unfold pos, pos_emb_at. destruct pe.
    + rewrite list_lookup_fmap, lookup_map.
      assert (Hz : zip dims msl !! (ns - 1 - i)
                   = Some (dims !!! (ns - 1 - i), msl !!! (ns - 1 - i))).
      { apply lookup_zip_Some.
        split; apply list_lookup_lookup_total_lt; lia. }
      rewrite Hz. done.
    + by rewrite lookup_replicate_2 by lia.
  - destruct i as [|j]; [done|]. simpl.
    assert (Hz : zip (reverse (removelast dims)) (reverse (tail msl)) !! j
                 = Some (dims !!! (ns - 1 - S j), msl !!! (ns - 1 - j))).
    { apply lookup_zip_Some. split.
      - rewrite reverse_lookup by lia. rewrite Hrl.
        rewrite removelast_firstn_len, lookup_take_lt by lia.
        replace (ns - 1 - S j) with (ns - 1 - S j) by lia.
        apply list_lookup_lookup_total_lt. lia.
      - rewrite reverse_lookup by (rewrite length_tl; lia).
        rewrite length_tl, lookup_tail, Hmsl.
        replace (S (ns - 1 - S j)) with (ns - 1 - j) by lia.
        apply list_lookup_lookup_total_lt. lia. }
    rewrite (patch_embs_lookup _ _ _ _ _ _ _ Hz). do 2 f_equal.
    rewrite snd_zip by (rewrite !length_reverse, Hrl, length_tl; lia).
    rewrite take_reverse, numel_reverse, length_tl, drop_tail, Hmsl.
    rewrite Nat.mul_1_l. do 2 f_equal. lia.
Qed.

Lemma stage_items :
  zip (zip (zip dims (map (stage_tokens_at b ds dims) (seq 0 ns)))
           (map (stage_at config ns dims depth msl) (seq 0 ns)).*1)
      (map (stage_at config ns dims depth msl) (seq 0 ns)).*2
  = map (stage_item_at b ns ds dims depth msl config) (seq 0 ns).
Proof.
  apply list_eq. intros i.
  rewrite !lookup_zip_with, !list_lookup_fmap, ?lookup_map.
  destruct (decide (i < ns)) as [Hi|Hi].
  - rewrite (list_lookup_lookup_total_lt dims i) by lia.
    rewrite lookup_seq_lt by lia. done.
  - rewrite (lookup_ge_None_2 dims i) by lia.
    rewrite lookup_seq_ge by lia. done.
Qed.

End Items.

End LoopFacts.

(* --------------------------------------------------------------------- *)
(** ** Shapes: the flat input path of [forward]                           *)
(* --------------------------------------------------------------------- *)

Module FlatFacts.
Import Helpers Shapes ShapeOps InitFacts LoopFacts.

Lemma seq_first (n : nat) : 1 <= n -> seq 0 n = 0 :: seq 1 (n - 1).
Proof. intros H. destruct n; [lia|]. simpl. by rewrite Nat.sub_0_r. Qed.

Lemma seq_last (n : nat) : 1 <= n -> seq 0 n = seq 0 (n - 1) ++ [n - 1].
Proof.
  intros H. destruct n; [lia|]. rewrite seq_S. simpl. by rewrite Nat.sub_0_r.
Qed.

Lemma numel_pos_inv (s : shape) : 0 < numel s -> Forall (fun n => 0 < n) s.
Proof.
  induction s as [|x s IH]; [constructor|].
  rewrite numel_cons. intros H. constructor; [nia|apply IH; nia].
Qed.

(** Padding to the next multiple: the padded length is a multiple of
    [mult], below [L + mult]. *)
Lemma padded_length (L mult : nat) :
  0 < mult ->
  let pad := (mult - L mod mult) mod mult in
  (L + pad) mod mult = 0 /\ pad < mult
  /\ L + pad = (L + pad) / mult * mult.
Proof.
  intros Hm pad.
  assert (Hr : L mod mult < mult) by (apply Nat.mod_upper_bound; lia).
  assert (HL : L = mult * (L / mult) + L mod mult) by (apply Nat.div_mod_eq).
  assert (Hp : pad < mult) by (apply Nat.mod_upper_bound; lia).
  assert (Hmod : (L + pad) mod mult = 0).
  { unfold pad. destruct (decide (L mod mult = 0)) as [E|E].
    - rewrite E, Nat.sub_0_r, Nat.Div0.mod_same, Nat.add_0_r. done.
    - rewrite (Nat.mod_small (mult - L mod mult)) by lia.
      replace (L + (mult - L mod mult))
        with ((L / mult + 1) * mult) by nia.
      apply Nat.Div0.mod_mul. }
  split; [done|]. split; [done|].
  pose proof (Nat.div_mod_eq (L + pad) mult) as H. rewrite Hmod in H. lia.
Qed.

Section FlatPath.
Context (config : MegaByteConfig) (m : MegaByte) (b L : nat).
Hypothesis Hinit : init config = Ok m.
Hypothesis Hb : 1 <= b.
Hypothesis HL : 1 <= L.
Hypothesis Hcap : L <= reduce_mult (max_seq_len config).
Hypothesis Hdim :
  Forall (fun d => 2 <= d)
         (cast_tuple (dim config) (length (depth config))).

Let ns := length (depth config).
Let dims := cast_tuple (dim config) ns.
Let msl := max_seq_len config.
Let mult := numel (tail msl).
Let pad := (mult - L mod mult) mod mult.
Let d0 := (L + pad) / mult.
Let ds := d0 :: tail msl.

Lemma flat_lengths :
  length msl = ns /\ length dims = ns /\ length ds = ns /\ 1 <= ns.
Proof.
  destruct (init_inv config m Hinit) as (H1 & H2 & H3 & _).
  fold ns dims msl in H1, H2, H3. unfold ds. simpl.
  rewrite length_tl. lia.
Qed.

Lemma flat_capacity : reduce_mult msl = msl !!! 0 * mult.
Proof.
  destruct flat_lengths as (H1 & _ & _ & H4). rewrite reduce_mult_numel.
  unfold mult. destruct msl as [|x l]; [simpl in H1; lia|]. done.
Qed.

Lemma flat_mult_pos : 0 < mult.
Proof.
  pose proof flat_capacity as H. pose proof Hcap as Hc.
  fold msl in Hc. rewrite H in Hc. destruct mult; lia.
Qed.

Lemma flat_positive : Forall (fun n => 0 < n) (tail msl).
Proof. apply numel_pos_inv. apply flat_mult_pos. Qed.

Lemma flat_d0 : L + pad = d0 * mult /\ 1 <= d0 <= msl !!! 0.
Proof.
  destruct (padded_length L mult flat_mult_pos) as (_ & Hp & Hq).
  fold pad in Hp, Hq. fold d0 in Hq. split; [done|].
  pose proof flat_capacity as Hc. pose proof Hcap as Hc'.
  fold msl in Hc'. rewrite Hc in Hc'.
  pose proof flat_mult_pos. split; nia.
Qed.

Lemma flat_numel_ds : numel ds = L + pad.
Proof. destruct flat_d0 as [-> _]. unfold ds. by rewrite numel_cons. Qed.

Lemma flat_le (i : nat) : i < ns -> ds !!! i <= msl !!! i.
Proof.
  intros Hi. destruct i as [|i].
  - destruct flat_d0 as [_ [_ H]]. done.
  - unfold ds. rewrite lookup_total_cons_ne_0 by lia. simpl.
    by rewrite lookup_total_tail.
Qed.

Lemma pad_and_nest_flat : pad_and_nest m b L [b; L] = Ok (b :: ds, pad).
Proof.
  destruct (init_inv config m Hinit) as (_ & _ & _ & _ & Hm & _).
  unfold pad_and_nest. rewrite Hm. fold msl.
  rewrite reduce_mult_numel. fold mult.
  pose proof flat_mult_pos as Hmp.
  unfold remainder_to_mult.
  destruct (mult =? 0) eqn:E; [apply Nat.eqb_eq in E; lia|]. simpl.
  fold pad. rewrite cat_m1_flat. simpl.
  unfold reshape_infer. fold mult.
  assert (Hn : numel [b; L + pad] = d0 * (b * mult)).
  { destruct flat_d0 as [-> _]. simpl. lia. }
  rewrite Hn.
  destruct (b * mult =? 0) eqn:E2; [apply Nat.eqb_eq in E2; nia|].
  rewrite Nat.Div0.mod_mul. simpl.
  rewrite Nat.div_mul by nia. done.
Qed.

Lemma check_dims_flat : check_dims m ds = Ok tt.
Proof.
  destruct (init_inv config m Hinit) as (_ & _ & _ & _ & Hm & _).
  destruct flat_lengths as (H1 & _ & _ & H4).
  destruct flat_d0 as [_ [_ Hle]].
  unfold check_dims. rewrite Hm. fold msl in Hm |- *. unfold ds. simpl.
  destruct msl as [|x l] eqn:E; [simpl in H1; lia|]. simpl.
  simpl in Hle. unfold assert.
  destruct (d0 <=? x) eqn:E3; [|apply Nat.leb_gt in E3; lia]. simpl.
  by rewrite bool_decide_true.
Qed.

Lemma ids_at_one : b :: ds = ids_at b ns ds 1.
Proof.
  destruct flat_lengths as (_ & _ & H3 & H4). unfold ids_at.
  rewrite (drop_head ds (ns - 1)) by lia.
  replace (ns - 1 + 1) with ns by lia.
  rewrite (drop_ge ds ns) by lia. rewrite numel_cons. simpl numel.
  rewrite Nat.mul_1_r. f_equal.
  rewrite <- (take_succ ds (ns - 1)) by lia.
  replace (ns - 1 + 1) with ns by lia. by rewrite take_ge by lia.
Qed.

Lemma ds_positive : Forall (fun n => 0 < n) ds.
Proof.
  unfold ds. constructor; [|apply flat_positive].
  destruct flat_d0 as [_ [H _]]. lia.
Qed.


Hypothesis Hpad :
  L mod reduce_mult (tail (max_seq_len config)) <> 0 ->
  (0 <= pad_id config < Z.of_nat (num_tokens config))%Z.

Let written := if 0 <? pad then [mb_pad_id m] else [].

(** The pad id, when [forward] writes one, is inside the table. *)
Lemma written_ok :
  Forall (fun v => (0 <= v < Z.of_nat (num_tokens config))%Z) written.
Proof.
  destruct (init_inv config m Hinit)
    as (_ & _ & _ & _ & _ & _ & _ & _ & _ & _ & _ & Hid).
  unfold written. destruct (0 <? pad) eqn:E; [|constructor].
  apply Nat.ltb_lt in E. constructor; [|constructor]. rewrite Hid.
  apply Hpad. rewrite reduce_mult_numel. fold msl mult. intros H0.
  unfold pad in E. rewrite H0, Nat.sub_0_r, Nat.Div0.mod_same in E. lia.
Qed.

Lemma tokens_flat :
  tokens_for_stages m written (b :: ds)
  = Ok (map (stage_tokens_at b ds dims) (seq 0 ns), ids_at b ns ds ns).
Proof.
  destruct (init_inv config m Hinit)
    as (_ & _ & _ & _ & _ & _ & Hpe & Hte & _).
  destruct flat_lengths as (H1 & H2 & H3 & H4).
  fold ns dims msl in Hpe, Hte.
  unfold tokens_for_stages. rewrite Hpe, Hte.
  change (length (tail (b :: ds))) with (length ds). rewrite H3.
  pose proof (token_items ns dims (depth config) msl (num_tokens config)
                (pos_emb config) H2 eq_refl H1 H4) as Hit.
  destruct (pos_emb config) eqn:Epe; rewrite Hit; clear Hit.
  all: rewrite (seq_first ns H4) at 1; rewrite map_cons.
  all: unfold token_item_at at 1, token_emb_at at 1, pos_emb_at at 1.
  all: cbn [token_loop apply_token_emb].
  all: rewrite bool_decide_true by done.
  all: rewrite embedding_ok by (cbn [emb_num]; apply written_ok).
  all: cbn [emb_dim mbind result_bind].
  all: assert (Htok : (b :: ds) ++ [dims !!! (ns - 1)]
                      = stage_tokens_at b ds dims (ns - 1))
         by (unfold stage_tokens_at;
             replace (ns - 1 + 1) with ns by lia;
             by rewrite take_ge by lia).
  all: rewrite Htok; cbn [mbind result_bind].
  all: replace (ns - 1 - 0) with (ns - 1) by lia.
  1: pose proof (add_positions_at b ns ds dims msl true H3 H2 H1 H4 flat_le
                   (ns - 1)) as Hadd;
     unfold pos_emb_at in Hadd; rewrite Hadd by lia.
  all: cbn [mbind result_bind].
  all: rewrite ids_at_one.
  all: match goal with |- context [token_item_at _ _ _ _ ?pe] =>
         rewrite (token_loop_from b ns ds dims msl (num_tokens config) pe
                    written written_ok H3 H2 H1 H4 eq_refl flat_le _ 1)
       end; [| lia
    | rewrite length_map, length_seq; lia
    | intros j it Hj; rewrite lookup_map in Hj;
      destruct (seq 1 (ns - 1) !! j) as [x|] eqn:Ex; [|discriminate];
      apply lookup_seq in Ex as [-> _]; by injection Hj as <-].
  all: do 2 f_equal.
  all: by rewrite (seq_last ns H4), map_app.
Qed.

Hypothesis Hheads : 1 <= heads config.
Hypothesis Hrot : rel_pos config = true -> exists e, dim_head config = 2 * e.

Lemma run_stages_flat :
  run_stages m (map (stage_tokens_at b ds dims) (seq 0 ns))
  = Ok (attended_at b ds dims (ns - 1)).
Proof.
  clear Hpad.
  destruct (init_inv config m Hinit)
    as (_ & _ & _ & _ & _ & Hst & _ & _ & Htr & Hpr & _).
  destruct flat_lengths as (H1 & H2 & H3 & H4).
  fold ns dims msl in Hst, Htr, Hpr.
  unfold run_stages. rewrite Hst, Htr, Hpr.
  rewrite (stage_items b ns ds dims (depth config) msl config H2 eq_refl H1
             H4).
  assert (Hdim2 : forall i, i < ns -> 2 <= dims !!! i).
  { intros i Hi. eapply (proj1 (Forall_lookup _ _) Hdim i).
    apply list_lookup_lookup_total_lt. fold ns dims. lia. }
  rewrite (stage_loop_from b ns ds dims (depth config) msl config Hheads
             Hrot H3 H2 H4 eq_refl flat_positive Hdim2 _ 0 None None);
    [done| | |done|lia|lia].
  - rewrite length_map, length_seq. lia.
  - intros j it Hj. rewrite lookup_map in Hj.
    destruct (seq 0 ns !! j) as [x|] eqn:Ex; [|discriminate].
    apply lookup_seq in Ex as [-> _]. by injection Hj as <-.
Qed.

End FlatPath.




End FlatFacts.

(* --------------------------------------------------------------------- *)
(** ** Values: the logits [forward] returns                               *)
(* --------------------------------------------------------------------- *)

Module LogitFacts.
Import Helpers Values.

Section Realign.
Context {A : Type}.

Lemma start_tokens_ok (logits : nested A) :
  has_start logits ->
  exists start,
    start_tokens logits = Ok start
    /\ length start = length logits
    /\ forall b, start !! b
                 = (fun v => [v]) <$> start_logit logits b.
Proof.
  induction 1 as [|rows logits (v & row & rest & ->) _ IH].
  - exists []. split; [done|]. split; [done|]. by intros [|b].
  - destruct IH as (start & Hs & Hl & Hb).
    exists ([v] :: start). split; [|split].
    + unfold start_tokens in *. simpl. rewrite Hs. done.
    + simpl. by rewrite Hl.
    + intros [|b]; [done|]. apply Hb.
Qed.

(** C2 (amended).  In a forward pass over a non-empty input the logit of
    the start-token position is taken out of the nested logits.  With
    [return_loss=True] it is put back as position 0 of the flattened
    logits, before the positions that follow the start token in every
    row.  With [return_loss=False] it is not put back: the returned
    logits are the positions that follow the start token in every row,
    so their position 0 is position 1 of the first row; on the flat
    path they are cut to the input length, and no position from
    [seq_len] on is returned.  On both paths there is one entry for
    every batch entry, and none beyond. *)
Theorem start_logit_is_prepended_with_loss (flattened_dims : bool)
    (seq_len : nat) (logits : nested A) :
  has_start logits ->
  (exists out,
     forward_logits flattened_dims true seq_len logits = Ok (Flat out)
     /\ (forall b rows, logits !! b = Some rows ->
           returned_at (Flat out) b 0 = start_logit logits b
           /\ forall j, returned_at (Flat out) b (S j)
                        = mjoin (map (drop 1) rows) !! j)
     /\ (forall b j, logits !! b = None ->
           returned_at (Flat out) b j = None))
  /\ (exists r,
        forward_logits flattened_dims false seq_len logits = Ok r
        /\ (forall b rows j, logits !! b = Some rows ->
              returned_at r b j
              = if flattened_dims && (seq_len <=? j) then None
                else mjoin (map (drop 1) rows) !! j)
        /\ (forall b j, logits !! b = None -> returned_at r b j = None)).
Proof.
  intros Hst.
  destruct (start_tokens_ok logits Hst) as (start & Hs & Hl & Hb).
  unfold forward_logits. rewrite Hs. simpl. split.
  - eexists. split; [reflexivity|]. split.
    + intros b rows Hrows.
      unfold returned_at, flatten, drop_start.
      rewrite lookup_zip_with, Hb, !lookup_map, Hrows.
      assert (Hrow : exists v row rest, rows = (v :: row) :: rest).
      { eapply (proj1 (Forall_lookup _ _) Hst); eauto. }
      destruct Hrow as (v & row & rest & ->).
      unfold start_logit. rewrite Hrows. simpl. done.
    + intros b j Hnone. unfold returned_at, flatten, drop_start.
      rewrite lookup_zip_with, Hb. unfold start_logit.
      rewrite Hnone. done.
  - destruct flattened_dims; eexists; (split; [reflexivity|split]).
    + intros b rows j Hrows.
      unfold returned_at, flatten, drop_start.
      rewrite !lookup_map, Hrows. simpl.
      destruct (Nat.leb_spec seq_len j).
      * by apply lookup_take_ge.
      * by apply lookup_take_lt.
    + intros b j Hnone. unfold returned_at, flatten, drop_start.
      by rewrite !lookup_map, Hnone.
    + intros b rows j Hrows.
      unfold returned_at, drop_start.
      rewrite lookup_map, Hrows. done.
    + intros b j Hnone. unfold returned_at, drop_start.
      by rewrite lookup_map, Hnone.
Qed.

End Realign.

Lemma start_logit_is_prepended_with_loss_witness :
  let logits := [[[[10]; [11]; [12]]; [[20]; [21]; [22]]]]%Z in
  has_start logits /\
  (exists out,
     forward_logits true true 3 logits = Ok (Flat out)
     /\ (forall b rows, logits !! b = Some rows ->
           returned_at (Flat out) b 0 = start_logit logits b
           /\ forall j, returned_at (Flat out) b (S j)
                        = mjoin (map (drop 1) rows) !! j)
     /\ (forall b j, logits !! b = None ->
           returned_at (Flat out) b j = None))
  /\ (exists r,
        forward_logits true false 3 logits = Ok r
        /\ (forall b rows j, logits !! b = Some rows ->
              returned_at r b j
              = if true && (3 <=? j) then None
                else mjoin (map (drop 1) rows) !! j)
        /\ (forall b j, logits !! b = None -> returned_at r b j = None)).
Proof.
  intros logits.
  assert (H : has_start logits).
  { repeat constructor. by eexists _, _, _. }
  split; [exact H|].
  exact (start_logit_is_prepended_with_loss true 3 logits H).
Defined.

(** C2, as stated, on the [return_loss=False] path: the start-token
    position holds [10], and position 0 of what is returned holds [11]. *)
Lemma start_logit_is_dropped_without_loss :
  let logits := [[[[10]; [11]; [12]]]]%Z in
  has_start logits
  /\ start_logit logits 0 = Some [10]%Z
  /\ forward_logits true false 2 logits = Ok (Flat [[[11]; [12]]]%Z)
  /\ returned_at (Flat [[[11]; [12]]]%Z) 0 0 = Some [11]%Z
  /\ forward_logits false false 2 logits = Ok (Nested [[[[11]; [12]]]]%Z).
Proof.
  intros logits. split; [|repeat split].
  repeat constructor. by eexists _, _, _.
Qed.

End LogitFacts.

(* --------------------------------------------------------------------- *)
(** ** Values: the inter-stage projector                                  *)
(* --------------------------------------------------------------------- *)

Module ProjectorFacts.
Import Helpers Shapes Values InitFacts.

(** The projections [__init__] builds: a linear projection to the next
    stage for every stage but the last, the identity for the last. *)
Lemma init_projections (config : MegaByteConfig) (m : MegaByte) (i : nat) :
  init config = Ok m ->
  let ns := length (depth config) in
  let dims := cast_tuple (dim config) ns in
  i < ns ->
  to_next_transformer_projections m !! i
  = Some (if decide (i + 1 < ns)
          then Project (dims !!! i) (dims !!! (i + 1))
                       (max_seq_len config !!! (i + 1))
          else Identity).
Proof.
  intros Hinit ns dims Hi.
  destruct (init_inv config m Hinit)
    as (_ & _ & _ & _ & _ & _ & _ & _ & _ & Hpr & _).
  rewrite Hpr. fold ns dims.
  rewrite list_lookup_fmap, lookup_map, lookup_seq_lt by done. done.
Qed.

Lemma but_last_lookup {B} (row : list B) (j : nat) :
  j + 1 < length row -> but_last row !! j = row !! j.
Proof. intros Hj. unfold but_last. apply lookup_take_lt. lia. Qed.

Lemma but_last_length {B} (row : list B) :
  length (but_last row) = length row - 1.
Proof. unfold but_last. rewrite length_take. lia. Qed.

Section Project.
Context {A : Type} (lin : list A -> list A).

Lemma chunks_length (n d : nat) : forall v : list A,
  length (chunks n d v) = n.
Proof. induction n as [|n IH]; intros v; simpl; [done|]. by rewrite IH. Qed.

(** C3 (amended).  For every stage except the finest the inter-stage
    projector takes the stage transformer's output of [Lp] positions
    (the start-token position first), leaves out the LAST position and
    keeps the start-token position, projects each of the remaining
    [Lp - 1] positions linearly from [dim_i] to
    [dim_{i+1} * max_seq_len_{i+1}] and cuts each into
    [max_seq_len_{i+1}] fine positions, in coarse-position-major order;
    the finest stage's projector is the identity. *)
Theorem projector_drops_last_position (config : MegaByteConfig)
    (m : MegaByte) (attended : nested A) (R Lp : nat) :
  init config = Ok m ->
  uniform R Lp attended ->
  let ns := length (depth config) in
  let dims := cast_tuple (dim config) ns in
  let msl := max_seq_len config in
  (forall i, i + 1 < ns ->
     to_next_transformer_projections m !! i
     = Some (Project (dims !!! i) (dims !!! (i + 1)) (msl !!! (i + 1)))
     /\ exists out,
          project (Project (dims !!! i) (dims !!! (i + 1)) (msl !!! (i + 1)))
                  lin attended = Finer out
          /\ forall b rows r row j x,
               attended !! b = Some rows -> rows !! r = Some row ->
               row !! j = Some x -> j + 1 < Lp ->
               out !! ((b * R + r) * (Lp - 1) + j)
               = Some (chunks (msl !!! (i + 1)) (dims !!! (i + 1)) (lin x))
               /\ length (chunks (msl !!! (i + 1)) (dims !!! (i + 1)) (lin x))
                  = msl !!! (i + 1))
  /\ to_next_transformer_projections m !! (ns - 1) = Some Identity
  /\ project Identity lin attended = Same (map (map but_last) attended).
Proof.
  intros Hinit Hun ns dims msl.
  assert (HS : 1 <= ns) by (destruct (init_inv config m Hinit) as (_&_&?&_); done).
  split; [|split; [|done]].
  - intros i Hi. split.
    { rewrite (init_projections config m i Hinit) by (fold ns; lia).
      fold ns dims msl. by rewrite decide_True. }
    eexists. split; [reflexivity|].
    intros b rows r row j x Hb Hr Hj Hlt.
    split; [|apply chunks_length].
    rewrite !map_map.
    assert (Hrows : length rows = R /\ Forall (fun row => length row = Lp) rows).
    { eapply (proj1 (Forall_lookup _ _) Hun); eauto. }
    destruct Hrows as [HR Hrows].
    assert (Hrow : length row = Lp).
    { eapply (proj1 (Forall_lookup _ _) Hrows); eauto. }
    assert (Hrlt : r < R) by (rewrite <- HR; eapply lookup_lt_Some; eauto).
    replace ((b * R + r) * (Lp - 1) + j)
      with (b * (R * (Lp - 1)) + (r * (Lp - 1) + j)) by nia.
    assert (Hinner : forall rows' : list (list (list A)),
              length rows' = R ->
              Forall (fun row => length row = Lp) rows' ->
              Forall (fun l : list (list A) => length l = Lp - 1)
                     (map but_last rows')).
    { intros rows' _ H'. apply Forall_forall. intros l Hl.
      apply list_elem_of_fmap in Hl as (row' & -> & Hrow').
      rewrite but_last_length.
      rewrite (proj1 (Forall_forall _ _) H' row' Hrow'). done. }
    apply join_lookup_Some_same_length'
      with (n := R * (Lp - 1)).
    + apply Forall_forall. intros l Hl.
      apply list_elem_of_fmap in Hl as (rows' & -> & Hrows').
      destruct (proj1 (Forall_forall _ _) Hun rows' Hrows') as [HR' Hf'].
      rewrite !length_map.
      rewrite (join_length_uniform (Lp - 1)) by (by apply Hinner).
      rewrite length_map, HR'. done.
    + nia.
    + eexists. split; [by rewrite lookup_map, Hb|].
      rewrite lookup_map.
      assert (Hx : mjoin (map but_last rows) !! (r * (Lp - 1) + j) = Some x).
      { apply join_lookup_Some_same_length' with (n := Lp - 1).
        - by apply Hinner.
        - lia.
        - exists (but_last row). split; [by rewrite lookup_map, Hr|].
          rewrite but_last_lookup by lia. done. }
      rewrite lookup_map, Hx. done.
  - rewrite (init_projections config m (ns - 1) Hinit) by (fold ns; lia).
    fold ns. rewrite decide_False by lia. done.
Qed.

End Project.

Lemma projector_drops_last_position_witness :
  let attended := [[[[10]; [11]; [12]]; [[20]; [21]; [22]]]]%Z in
  let lin := linear_Z [[1]; [2]]%Z [0; 0]%Z in
  (init config2 = Ok model2 /\ uniform 2 3 attended) /\
  let ns := length (depth config2) in
  let dims := cast_tuple (dim config2) ns in
  let msl := max_seq_len config2 in
  (forall i, i + 1 < ns ->
     to_next_transformer_projections model2 !! i
     = Some (Project (dims !!! i) (dims !!! (i + 1)) (msl !!! (i + 1)))
     /\ exists out,
          project (Project (dims !!! i) (dims !!! (i + 1)) (msl !!! (i + 1)))
                  lin attended = Finer out
          /\ forall b rows r row j x,
               attended !! b = Some rows -> rows !! r = Some row ->
               row !! j = Some x -> j + 1 < 3 ->
               out !! ((b * 2 + r) * (3 - 1) + j)
               = Some (chunks (msl !!! (i + 1)) (dims !!! (i + 1)) (lin x))
               /\ length (chunks (msl !!! (i + 1)) (dims !!! (i + 1)) (lin x))
                  = msl !!! (i + 1))
  /\ to_next_transformer_projections model2 !! (ns - 1) = Some Identity
  /\ project Identity lin attended = Same (map (map but_last) attended).
Proof.
  intros attended lin.
  assert (H1 : init config2 = Ok model2) by reflexivity.
  assert (H2 : uniform 2 3 attended) by (repeat constructor).
  split; [done|].
  exact (projector_drops_last_position lin config2 model2 attended 2 3 H1 H2).
Defined.

(** C3, as stated, on a transformer output of three positions
    [[10], [11], [12]], the first of them the start token's: the
    projector projects [10] and [11]; leaving out the start-token
    position would project [11] and [12]. *)
Lemma projector_keeps_start_position :
  let attended := [[[[10]; [11]; [12]]]]%Z in
  let lin := linear_Z [[1]; [2]]%Z [0; 0]%Z in
  project (Project 1 1 2) lin attended
  = Finer [[[10]; [20]]; [[11]; [22]]]%Z
  /\ project_as_specified (Project 1 1 2) lin attended
     = Finer [[[11]; [22]]; [[12]; [24]]]%Z
  /\ project (Project 1 1 2) lin attended
     <> project_as_specified (Project 1 1 2) lin attended.
Proof. intros attended lin. repeat split. discriminate. Qed.

End ProjectorFacts.

(* --------------------------------------------------------------------- *)
(** ** Values: the loss                                                   *)
(* --------------------------------------------------------------------- *)

Module LossFacts.
Import Helpers Values ProjectorFacts.

Lemma filter_join {B} (P : B -> Prop) `{forall x, Decision (P x)}
    (ls : list (list B)) :
  filter P (mjoin ls) = mjoin (map (filter P) ls).
Proof.
  induction ls as [|l ls IH]; [done|]. simpl.
  by rewrite filter_app, IH.
Qed.

Lemma filter_none {B} (P : B -> Prop) `{forall x, Decision (P x)}
    (l : list B) :
  (forall y, y ∈ l -> ~ P y) -> filter P l = [].
Proof.
  induction l as [|a l IH]; intros Hno; [done|].
  rewrite filter_cons_False by (apply Hno; left).
  apply IH. intros y Hy. apply Hno. by right.
Qed.

(** A list in which one entry alone satisfies [P] filters to that entry. *)
Lemma filter_single {B} (P : B -> Prop) `{forall x, Decision (P x)}
    (l : list B) : forall i x,
  l !! i = Some x -> P x ->
  (forall i' y, l !! i' = Some y -> P y -> i' = i) ->
  filter P l = [x].
Proof.
  induction l as [|a l IH]; intros i x Hi Hx Huniq; [done|].
  destruct i as [|i]; simpl in Hi.
  - injection Hi as ->. rewrite filter_cons_True by done. f_equal.
    apply filter_none. intros y Hy Py.
    apply list_elem_of_lookup in Hy as [i' Hi'].
    specialize (Huniq (S i') y Hi' Py). discriminate.
  - rewrite filter_cons_False.
    + apply (IH i x Hi Hx). intros i' y Hi' Py.
      specialize (Huniq (S i') y Hi' Py). lia.
    + intros Pa. specialize (Huniq 0 a eq_refl Pa). discriminate.
Qed.

Lemma join_single {B} (ls : list (list B)) : forall b x,
  ls !! b = Some [x] ->
  (forall b' l', ls !! b' = Some l' -> b' <> b -> l' = []) ->
  mjoin ls = [x].
Proof.
  induction ls as [|l ls IH]; intros b x Hb Hothers; [done|].
  destruct b as [|b]; simpl in Hb.
  - injection Hb as ->. simpl. f_equal.
    assert (Hall : Forall (fun l' => l' = []) ls).
    { apply Forall_lookup. intros i l' Hi. apply (Hothers (S i) l' Hi). lia. }
    clear -Hall. induction Hall as [|l' ls -> _ IH]; [done|]. done.
  - rewrite (Hothers 0 l eq_refl) by lia. simpl.
    apply (IH b x Hb). intros b' l' Hb' Hne.
    apply (Hothers (S b') l' Hb'). lia.
Qed.

Local Open Scope R_scope.

(** C9.  The loss of [forward] ignores the label positions that hold the
    pad id: when exactly one label position of the batch is not the pad
    id, the loss is the cross entropy of the logits at that position
    with that label. *)
Theorem loss_of_single_labelled_position (classes : nat)
    (logits : list (list (list R))) (labels : list (list Z)) (pad_id : Z)
    (b j : nat) (prow : list (list R)) (lrow : list Z) (v : list R) (l : Z) :
  logits !! b = Some prow -> prow !! j = Some v ->
  (j + 1 < length prow)%nat ->
  labels !! b = Some lrow -> lrow !! j = Some l ->
  l <> pad_id ->
  in_range classes l = true ->
  (forall b' lrow' j' l',
     labels !! b' = Some lrow' -> lrow' !! j' = Some l' -> l' <> pad_id ->
     b' = b /\ j' = j) ->
  forward_loss classes logits labels pad_id = Ok (nll v (Z.to_nat l)).
Proof.
  intros Hp Hv Hj Hl Hlj Hne Hrange Huniq.
  unfold forward_loss, cross_entropy.
  set (P := fun p : list R * Z => snd p <> pad_id).
  assert (Hused :
    filter P (mjoin (zip_with zip (map but_last logits) labels)) = [(v, l)]).
  { rewrite filter_join. apply (join_single _ b).
    - rewrite lookup_map, lookup_zip_with, lookup_map, Hp, Hl. simpl.
      f_equal. apply (filter_single P _ j).
      + apply lookup_zip_Some. split; [|done].
        by rewrite but_last_lookup.
      + done.
      + intros j' [y1 y2] Hj' Py. apply lookup_zip_Some in Hj' as [_ Hj'].
        by destruct (Huniq b lrow j' y2 Hl Hj' Py).
    - intros b' l' Hb' Hneb.
      rewrite lookup_map, lookup_zip_with, lookup_map in Hb'.
      destruct (logits !! b') as [prow'|]; [|done].
      destruct (labels !! b') as [lrow'|] eqn:El; [|done].
      simpl in Hb'. injection Hb' as <-.
      apply filter_none. intros [y1 y2] Hy Py.
      apply list_elem_of_lookup in Hy as [j' Hj'].
      apply lookup_zip_Some in Hj' as [_ Hj'].
      destruct (Huniq b' lrow' j' y2 El Hj' Py). done. }
  fold P. rewrite Hused. simpl. rewrite Hrange. simpl.
  f_equal. field.
Qed.

Lemma loss_of_single_labelled_position_witness :
  let logits := [[[1; 2]; [3; 4]; [0; 0]]] in
  let labels := [[15; 1]]%Z in
  (logits !! 0%nat = Some [[1; 2]; [3; 4]; [0; 0]]
   /\ [[1; 2]; [3; 4]; [0; 0]] !! 1%nat = Some [3; 4]
   /\ (1 + 1 < length [[1; 2]; [3; 4]; [0; 0]])%nat
   /\ labels !! 0%nat = Some [15; 1]%Z
   /\ [15; 1]%Z !! 1%nat = Some 1%Z
   /\ 1%Z <> 15%Z
   /\ in_range 2 1 = true
   /\ (forall b' lrow' j' l',
         labels !! b' = Some lrow' -> lrow' !! j' = Some l' -> l' <> 15%Z ->
         b' = 0%nat /\ j' = 1%nat))
  /\ forward_loss 2 logits labels 15 = Ok (nll [3; 4] (Z.to_nat 1)).
Proof.
  intros logits labels.
  assert (H1 : logits !! 0%nat = Some [[1; 2]; [3; 4]; [0; 0]]) by reflexivity.
  assert (H2 : [[1; 2]; [3; 4]; [0; 0]] !! 1%nat = Some [3; 4])
    by reflexivity.
  assert (H3 : (1 + 1 < length [[1; 2]; [3; 4]; [0; 0]])%nat)
    by (simpl; lia).
  assert (H4 : labels !! 0%nat = Some [15; 1]%Z) by reflexivity.
  assert (H5 : [15; 1]%Z !! 1%nat = Some 1%Z) by reflexivity.
  assert (H6 : 1%Z <> 15%Z) by lia.
  assert (H7 : in_range 2 1 = true) by reflexivity.
  assert (H8 : forall b' lrow' j' l',
            labels !! b' = Some lrow' -> lrow' !! j' = Some l' ->
            l' <> 15%Z -> b' = 0%nat /\ j' = 1%nat).
  { intros [|b'] lrow' j' l' Hb'; [|done]. injection Hb' as <-.
    destruct j' as [|[|j']]; intros [= <-]; [done|done]. }
  split; [done|].
  exact (loss_of_single_labelled_position 2 logits labels 15 0 1 _ _ _ _
           H1 H2 H3 H4 H5 H6 H7 H8).
Defined.

End LossFacts.

(* ===================================================================== *)
(** * Further properties of the helpers and of the model                  *)
(* ===================================================================== *)

(* --------------------------------------------------------------------- *)
(** ** [remainder_to_mult] and [reduce_mult]                              *)
(* --------------------------------------------------------------------- *)

Module PaddingFacts.
Import Helpers ShapeOps.

(** X1.  [remainder_to_mult(num, mult)], for a positive [mult], is the least
    padding that makes [num] a multiple of [mult]: it is below [mult],
    [num] plus it is a multiple of [mult], and no smaller number does
    that. *)
Theorem remainder_to_mult_is_least_padding (num mult : nat) :
  0 < mult ->
  exists p,
    remainder_to_mult num mult = Ok p
    /\ p < mult
    /\ (num + p) mod mult = 0
    /\ forall q, (num + q) mod mult = 0 -> p <= q.
Proof.
  intros Hm. unfold remainder_to_mult.
  destruct (mult =? 0) eqn:E; [apply Nat.eqb_eq in E; lia|].
  eexists. split; [reflexivity|].
  destruct (FlatFacts.padded_length num mult Hm) as (Hmod & Hlt & _).
  split; [done|]. split; [done|].
  intros q Hq.
  assert (Hr : num mod mult < mult) by (apply Nat.mod_upper_bound; lia).
  destruct (decide (num mod mult = 0)) as [E0|E0].
  - rewrite E0, Nat.sub_0_r, Nat.Div0.mod_same. lia.
  - rewrite (Nat.mod_small (mult - num mod mult)) by lia.
    rewrite <- Nat.Div0.add_mod_idemp_l in Hq.
    apply Nat.Lcm0.mod_divide in Hq as [c Hc].
    destruct c as [|c]; [lia|]. nia.
Qed.

Lemma remainder_to_mult_is_least_padding_witness :
  0 < 4 /\
  exists p,
    remainder_to_mult 10 4 = Ok p
    /\ p < 4
    /\ (10 + p) mod 4 = 0
    /\ forall q, (10 + q) mod 4 = 0 -> p <= q.
Proof.
  split; [lia|]. apply (remainder_to_mult_is_least_padding 10 4). lia.
Defined.

(** X2.  [reduce_mult] of a concatenation is the product of the two parts'
    results, and the result is zero exactly when an entry is zero. *)
Theorem reduce_mult_splits (a b : list nat) :
  reduce_mult (a ++ b) = reduce_mult a * reduce_mult b
  /\ (reduce_mult a = 0 <-> 0 ∈ a).
Proof.
  rewrite !reduce_mult_numel. split; [apply numel_app|].
  induction a as [|x a IH].
  - simpl. split; [lia|]. by intros ?%elem_of_nil.
  - rewrite numel_cons, elem_of_cons. split.
    + intros [->|H]%Nat.eq_mul_0; [by left|]. right. by apply IH.
    + intros [<-|H]; [done|]. apply IH in H. rewrite H. lia.
Qed.

End PaddingFacts.

(* --------------------------------------------------------------------- *)
(** ** [MegaByte.__init__]: the stage lists                               *)
(* --------------------------------------------------------------------- *)

Module InitMore.
Import Helpers Shapes ShapeOps InitFacts LoopFacts.

(** X3.  A configuration without stages (empty [depth] and [max_seq_len],
    [dim] an int or the empty tuple) passes both length assertions and
    fails at [*_, fine_dim = dim], which needs one value: [__init__]
    raises [ValueError] and builds no model. *)
Theorem init_rejects_no_stages (config : MegaByteConfig) :
  depth config = [] ->
  max_seq_len config = [] ->
  cast_tuple (dim config) 0 = [] ->
  init config = Raise ValueError.
Proof.
  intros Hd Hm Hc. unfold init. rewrite Hd, Hm. simpl length.
  rewrite Hc. reflexivity.
Qed.

Lemma init_rejects_no_stages_witness :
  let config := Config 16 (DimInt 8) [] [] 4 2 4 15 false false true in
  (depth config = [] /\ max_seq_len config = []
   /\ cast_tuple (dim config) 0 = [])
  /\ init config = Raise ValueError.
Proof.
  split; [repeat split|].
  apply (init_rejects_no_stages
           (Config 16 (DimInt 8) [] [] 4 2 4 15 false false true));
    reflexivity.
Defined.

(** X4.  What [__init__] puts in [token_embs]: one entry for every stage,
    finest first.  Entry 0 is the plain table into the finest stage's
    dimension; entry [k >= 1] looks the ids up in a table of the same
    dimension, flattens patches of [reduce_mult(max_seq_len[S-k:])]
    tokens (the running [patch_size]) and maps them to the dimension of
    stage [S-1-k]. *)
Theorem init_token_embs (config : MegaByteConfig) (m : MegaByte) :
  init config = Ok m ->
  let S := length (depth config) in
  let dims := cast_tuple (dim config) S in
  let msl := max_seq_len config in
  let fine := Emb (num_tokens config) (dims !!! (S - 1)) in
  length (token_embs m) = S
  /\ token_embs m !! 0 = Some (TokFine fine)
  /\ forall k, 1 <= k -> k < S ->
       token_embs m !! k
       = Some (TokPatch fine (reduce_mult (drop (S - k) msl))
                        (dims !!! (S - 1 - k))).
Proof.
  intros Hinit S dims msl fine.
  destruct (init_inv config m Hinit)
    as (H1 & H2 & H3 & _ & _ & _ & _ & Hte & _).
  fold S dims msl in H1, H2, H3, Hte.
  pose proof (token_items S dims (depth config) msl (num_tokens config)
                false H2 eq_refl H1 H3) as Hit.
  rewrite <- Hte in Hit.
  assert (Hlen : length (token_embs m) = S).
  { rewrite Hte. simpl. rewrite patch_embs_length, length_zip.
    rewrite !length_reverse, length_tl, H1.
    rewrite removelast_firstn_len, length_take. lia. }
  assert (Hk : forall k, k < S ->
            token_embs m !! k
            = Some (token_emb_at S dims msl (num_tokens config) k)).
  { intros k Hk.
    assert (E : zip_longest3 (seq 0 S) (reverse (replicate S None))
                  (token_embs m) !! k
                = Some (token_item_at S dims msl (num_tokens config)
                          false k)).
    { rewrite Hit, lookup_map, lookup_seq_lt by lia. done. }
    unfold zip_longest3 in E. rewrite lookup_map in E.
    rewrite lookup_seq_lt in E.
    2:{ rewrite length_seq, length_reverse, length_replicate, Hlen. lia. }
    simpl in E. unfold token_item_at in E.
    destruct (token_embs m !! k) as [t|]; [|discriminate].
    by injection E as _ _ ->. }
  split; [done|]. split; [apply (Hk 0); lia|].
  intros k Hk1 Hk2. rewrite (Hk k Hk2). unfold token_emb_at.
  destruct k as [|k]; [lia|]. by rewrite reduce_mult_numel.
Qed.

Lemma init_token_embs_witness :
  init config3 = Ok model3
  /\ forall k, 1 <= k -> k < 3 ->
       [TokFine (Emb 16 4); TokPatch (Emb 16 4) 2 6;
        TokPatch (Emb 16 4) 6 8] !! k
       = Some (TokPatch (Emb 16 4) (reduce_mult (drop (3 - k) [4; 3; 2]))
                        ([8; 6; 4] !!! (3 - 1 - k))).
Proof.
  split; [reflexivity|].
  exact (proj2 (proj2 (init_token_embs config3 _ eq_refl))).
Defined.

End InitMore.

(* --------------------------------------------------------------------- *)
(** ** [forward_empty], and [forward] on empty, long and labelled input   *)
(* --------------------------------------------------------------------- *)

Module ForwardMore.
Import Helpers Shapes ShapeOps InitFacts LoopFacts FlatFacts.

Section EmptyPath.
Context (b ns : nat) (dims depth msl : list nat) (config : MegaByteConfig).
Hypothesis Hheads : 1 <= heads config.
Hypothesis Hrot : rel_pos config = true -> exists e, dim_head config = 2 * e.
Hypothesis Hdims : length dims = ns.
Hypothesis Hmsl : length msl = ns.
Hypothesis Hpos : Forall (fun n => 0 < n) (tail msl).
Hypothesis Hdim2 : forall i, i < ns -> 2 <= dims !!! i.

Lemma later_len_pos (i : nat) : 1 <= i -> i < ns -> 0 < msl !!! i.
Proof.
  intros H1 H2. destruct i as [|i]; [lia|].
  rewrite <- lookup_total_tail.
  eapply (proj1 (Forall_lookup _ _) Hpos i).
  apply list_lookup_lookup_total_lt. rewrite length_tl. lia.
Qed.

(** The loop of [forward_empty] from stage [i] on: every stage works on
    one position, and hands one block of the next stage's length to the
    next stage, of which the first position is used. *)
Lemma forward_empty_loop_from
    (items : list (nat * Transformer * projection)) :
  forall i prev last,
  i + length items = ns ->
  (forall j it, items !! j = Some it ->
     it = (dims !!! (i + j), fst (stage_at config ns dims depth msl (i + j)),
           projection_at ns dims msl (i + j))) ->
  (i = 0 -> prev = None) ->
  (0 < i -> i < ns -> prev = Some [b; msl !!! i; dims !!! i]) ->
  (0 < i -> last = Some [b; 1; dims !!! (i - 1)]) ->
  1 <= ns ->
  forward_empty_loop b items prev last = Ok (Some [b; 1; dims !!! (ns - 1)]).
Proof.
  induction items as [|it items IH]; intros i prev last Hlen Hit H0 Hp Hl HS.
  - simpl in Hlen. rewrite Nat.add_0_r in Hlen. subst i.
    simpl. rewrite Hl by lia. done.
  - simpl in Hlen.
    pose proof (Hit 0 it eq_refl) as ->. rewrite Nat.add_0_r.
    cbn [forward_empty_loop].
    assert (Htok : match prev with
                   | Some p => p ← slice_axis_m2 (Nat.min 1) p;
                               broadcast [b; 1; dims !!! i] p
                   | None => Ok [b; 1; dims !!! i]
                   end = Ok [b; 1; dims !!! i]).
    { destruct (decide (i = 0)) as [->|Hi].
      - by rewrite H0.
      - rewrite Hp by lia.
        change [b; msl !!! i; dims !!! i]
          with ([b] ++ [msl !!! i; dims !!! i]).
        rewrite slice_axis_m2_app. cbn [mbind result_bind app].
        pose proof (later_len_pos i ltac:(lia) ltac:(lia)).
        rewrite Nat.min_l by lia. apply broadcast_same. }
    match goal with |- (?e ≫= _) = _ =>
      replace e with (Ok (A:=shape) [b; 1; dims !!! i]) end.
    cbn [mbind result_bind].
    pose proof (transformer_3 (fst (stage_at config ns dims depth msl i))
                  b 1 ltac:(lia) (Hdim2 i ltac:(lia)) Hheads Hrot) as Htr.
    cbn [tr_dim stage_at fst] in Htr. cbn [stage_at fst].
    rewrite Htr. cbn [mbind result_bind].
    assert (Hnext : forall j it', items !! j = Some it' ->
              it' = (dims !!! (i + 1 + j),
                     fst (stage_at config ns dims depth msl (i + 1 + j)),
                     projection_at ns dims msl (i + 1 + j))).
    { intros j it' Hj. rewrite (Hit (S j) it' Hj).
      by replace (i + S j) with (i + 1 + j) by lia. }
    unfold projection_at at 1.
    destruct (decide (i + 1 < ns)) as [Hlt|Hge].
    + pose proof (later_len_pos (i + 1) ltac:(lia) Hlt) as Hn.
      pose proof (apply_projection_Project (dims !!! i) (dims !!! (i + 1))
                    (msl !!! (i + 1)) b 1 [] Hn) as Hpr.
      cbn [app numel fold_right] in Hpr. rewrite Hpr.
      cbn [mbind result_bind].
      apply (IH (i + 1)); [lia|done|lia| |intros _|done].
      * intros _ _. do 3 f_equal. lia.
      * by replace (i + 1 - 1) with i by lia.
    + cbn [apply_projection mbind result_bind].
      apply (IH (i + 1)); [lia|done|lia|lia|intros _|done].
      by replace (i + 1 - 1) with i by lia.
Qed.

End EmptyPath.

Lemma forward_empty_of_init (config : MegaByteConfig) (m : MegaByte)
    (b : nat) :
  init config = Ok m ->
  Forall (fun d => 2 <= d)
         (cast_tuple (dim config) (length (depth config))) ->
  Forall (fun n => 0 < n) (tail (max_seq_len config)) ->
  1 <= heads config ->
  (rel_pos config = true -> exists e, dim_head config = 2 * e) ->
  forward_empty m b = Ok [b; 1; num_tokens config].
Proof.
  intros Hinit Hdim Hpos Hheads Hrot.
  destruct (init_inv config m Hinit)
    as (H1 & H2 & H3 & _ & _ & Hst & _ & _ & Htr & Hpr & Hlg & _).
  set (ns := length (depth config)) in *.
  set (dims := cast_tuple (dim config) ns) in *.
  set (msl := max_seq_len config) in *.
  assert (Hdim2 : forall i, i < ns -> 2 <= dims !!! i).
  { intros i Hi. eapply (proj1 (Forall_lookup _ _) Hdim i).
    apply list_lookup_lookup_total_lt. lia. }
  unfold forward_empty. rewrite Hst, Htr, Hpr, Hlg.
  rewrite (forward_empty_loop_from b ns dims (depth config) msl config
             Hheads Hrot H2 H1 Hpos Hdim2 _ 0 None None);
    [| | |done|lia|lia|lia].
  - cbn [mbind result_bind the_last fst snd].
    change [b; 1; dims !!! (ns - 1)] with ([b; 1] ++ [dims !!! (ns - 1)]).
    by rewrite linear_app.
  - rewrite !length_zip, !length_fmap, length_seq. lia.
  - intros j it Hj. destruct it as [[d t] p].
    apply lookup_zip_Some in Hj as [Hj Hp].
    apply lookup_zip_Some in Hj as [Hd Ht].
    assert (Hjn : j < ns) by (apply lookup_lt_Some in Hd; lia).
    rewrite list_lookup_fmap, lookup_map, lookup_seq_lt in Ht by done.
    rewrite list_lookup_fmap, lookup_map, lookup_seq_lt in Hp by done.
    simpl in Ht, Hp.
    injection Ht as <-. injection Hp as <-.
    apply list_lookup_total_correct in Hd as <-. done.
Qed.

(** X5.  The start-token path: for a model that [__init__] built, with every
    stage dimension at least 2, every later stage length positive, at
    least one attention head of at least one entry and, with rotary
    positions, an even head size, [forward_empty(batch_size)] returns
    logits for one position, [(batch_size, 1, num_tokens)], whatever the
    number of stages. *)
Theorem forward_empty_shape (config : MegaByteConfig) (m : MegaByte)
    (b : nat) :
  init config = Ok m ->
  Forall (fun d => 2 <= d)
         (cast_tuple (dim config) (length (depth config))) ->
  Forall (fun n => 0 < n) (tail (max_seq_len config)) ->
  1 <= heads config -> 1 <= dim_head config ->
  (rel_pos config = true -> exists e, dim_head config = 2 * e) ->
  1 <= b ->
  forward_empty m b = Ok [b; 1; num_tokens config].
Proof. intros H1 H2 H3 H4 _ H5 _. by apply (forward_empty_of_init config). Qed.

Lemma forward_empty_shape_witness :
  (init config3 = Ok model3
   /\ Forall (fun d => 2 <= d)
             (cast_tuple (dim config3) (length (depth config3)))
   /\ Forall (fun n => 0 < n) (tail (max_seq_len config3))
   /\ 1 <= heads config3 /\ 1 <= dim_head config3
   /\ (rel_pos config3 = true -> exists e, dim_head config3 = 2 * e)
   /\ 1 <= 2)
  /\ forward_empty model3 2 = Ok [2; 1; num_tokens config3].
Proof.
  assert (H0 : Forall (fun d => 2 <= d)
                      (cast_tuple (dim config3) (length (depth config3))))
    by (repeat constructor; lia).
  assert (H1 : Forall (fun n => 0 < n) (tail (max_seq_len config3)))
    by (repeat constructor; lia).
  assert (Hh : 1 <= heads config3) by (simpl; lia).
  assert (Hd : 1 <= dim_head config3) by (simpl; lia).
  assert (Hr : rel_pos config3 = true -> exists e, dim_head config3 = 2 * e)
    by (intros _; by exists 2).
  assert (H2 : 1 <= 2) by lia.
  split; [done|].
  exact (forward_empty_shape config3 model3 2 eq_refl H0 H1 Hh Hd Hr H2).
Defined.

(** X6.  An input without tokens (ids of at most one column and targets of
    none, so that nothing is left after the opening statements) is
    answered by [forward_empty]: [forward] returns the logits of one
    position, [(batch, 1, num_tokens)], and no loss, also when
    [return_loss] is true.  The model is one that [__init__] built, with
    stage dimensions of at least 2, positive later stage lengths, at
    least one attention head of at least one entry and, with rotary
    positions, an even head size. *)
Theorem forward_without_tokens_returns_logits_only
    (config : MegaByteConfig) (m : MegaByte) (b L : nat)
    (return_loss : bool) :
  init config = Ok m ->
  Forall (fun d => 2 <= d)
         (cast_tuple (dim config) (length (depth config))) ->
  Forall (fun n => 0 < n) (tail (max_seq_len config)) ->
  1 <= heads config -> 1 <= dim_head config ->
  (rel_pos config = true -> exists e, dim_head config = 2 * e) ->
  1 <= b -> L <= 1 ->
  forward m [b; L] [b; 0] return_loss
  = Ok (Logits [b; 1; num_tokens config]).
Proof.
  intros Hinit Hdim Hpos Hheads _ Hrot Hb HL. unfold forward.
  assert (Hids : forward_ids [b; L] [b; 0] = Ok [b; 0]).
  { rewrite forward_ids_flat, bool_decide_eq_false_2 by lia.
    do 3 f_equal. simpl. lia. }
  rewrite Hids. cbn [mbind result_bind].
  rewrite !bool_decide_true by (first [done | left; done]).
  cbn [assert mbind result_bind].
  replace (numel [b; 0] =? 0) with true
    by (symmetry; apply Nat.eqb_eq; simpl; lia).
  by rewrite (forward_empty_of_init config m b Hinit Hdim Hpos Hheads Hrot).
Qed.

Lemma forward_without_tokens_returns_logits_only_witness :
  (init config3 = Ok model3
   /\ Forall (fun d => 2 <= d)
             (cast_tuple (dim config3) (length (depth config3)))
   /\ Forall (fun n => 0 < n) (tail (max_seq_len config3))
   /\ 1 <= heads config3 /\ 1 <= dim_head config3
   /\ (rel_pos config3 = true -> exists e, dim_head config3 = 2 * e)
   /\ 1 <= 1 /\ 1 <= 1)
  /\ forward model3 [1; 1] [1; 0] true
     = Ok (Logits [1; 1; num_tokens config3]).
Proof.
  assert (H0 : Forall (fun d => 2 <= d)
                      (cast_tuple (dim config3) (length (depth config3))))
    by (repeat constructor; lia).
  assert (H1 : Forall (fun n => 0 < n) (tail (max_seq_len config3)))
    by (repeat constructor; lia).
  assert (Hh : 1 <= heads config3) by (simpl; lia).
  assert (Hd : 1 <= dim_head config3) by (simpl; lia).
  assert (Hr : rel_pos config3 = true -> exists e, dim_head config3 = 2 * e)
    by (intros _; by exists 2).
  assert (H3 : 1 <= 1) by lia.
  split; [done|].
  exact (forward_without_tokens_returns_logits_only config3 model3 1 1 true
           eq_refl H0 H1 Hh Hd Hr H3 H3).
Defined.

End ForwardMore.

(* --------------------------------------------------------------------- *)
(** ** [forward] with the loss, on input that is too long, [generate]      *)
(* --------------------------------------------------------------------- *)

Module LossPathFacts.
Import Helpers Shapes ShapeOps InitFacts LoopFacts FlatFacts.

Section LossPath.
Context (config : MegaByteConfig) (m : MegaByte) (b L : nat).
Hypothesis Hinit : init config = Ok m.
Hypothesis Hb : 1 <= b.
Hypothesis HL : 1 <= L.
Hypothesis Hcap : L <= reduce_mult (max_seq_len config).

Let ns := length (depth config).
Let dims := cast_tuple (dim config) ns.
Let msl := max_seq_len config.
Let mult := numel (tail msl).
Let pad := (mult - L mod mult) mod mult.
Let d0 := (L + pad) / mult.
Let ds := d0 :: tail msl.

(** The end of [forward] when the loss is asked for: the start-token
    logit is put in front of the flattened logits, nothing is cut, and
    the predictions without their last position line up with the
    flattened ids. *)
Lemma forward_result_loss :
  forward_result m true true L (ids_at b ns ds ns)
                 (attended_at b ds dims (ns - 1))
  = Ok (LogitsLoss [b; 1 + (L + pad); num_tokens config]).
Proof.
  destruct (init_inv config m Hinit)
    as (_ & _ & _ & _ & _ & _ & _ & _ & _ & _ & Hlg & _).
  destruct (flat_lengths config m b L Hinit Hb HL Hcap)
    as (H1 & H2 & H3 & H4).
  pose proof (ds_positive config m b L Hinit Hb HL Hcap) as Hdsp.
  pose proof (flat_numel_ds config m b L Hinit Hb HL Hcap) as Hnum.
  fold ns dims msl mult pad d0 ds in Hlg, H1, H2, H3, H4, Hdsp, Hnum.
  unfold forward_result, attended_at. rewrite Hlg. simpl fst. simpl snd.
  set (d := ds !!! (ns - 1)). set (V := num_tokens config).
  change (take (ns - 1) ds ++ [1 + d; dims !!! (ns - 1)])
    with (take (ns - 1) ds ++ [1 + d] ++ [dims !!! (ns - 1)]).
  rewrite app_assoc, linear_cons. cbn [mbind result_bind].
  unfold start_logits. rewrite unsnoc_app.
  assert (Hall : forallb (fun n => 0 <? n) (take (ns - 1) ds ++ [1 + d])
                 = true).
  { apply forallb_forall. intros x Hx. apply Nat.ltb_lt.
    apply in_app_or in Hx as [Hx|[<-|[]]]; [|lia].
    apply list_elem_of_In in Hx. apply elem_of_take in Hx as (i & Hx & _).
    eapply (proj1 (Forall_lookup _ _) Hdsp); eauto. }
  rewrite Hall. cbn [mbind result_bind].
  rewrite <- app_assoc. cbn [app].
  rewrite slice_axis_m2_cons. cbn [mbind result_bind negb].
  rewrite from_1_succ.
  assert (Hfl : flatten_middle (b :: take (ns - 1) ds ++ [d; V])
                = Ok [b; numel ds; V]).
  { change (take (ns - 1) ds ++ [d; V])
      with (take (ns - 1) ds ++ [d] ++ [V]).
    rewrite app_assoc. unfold d. rewrite <- (take_succ ds (ns - 1)) by lia.
    replace (ns - 1 + 1) with ns by lia. rewrite take_ge by lia.
    apply flatten_middle_app. }
  rewrite Hfl. cbn [mbind result_bind].
  rewrite cat_m2_3. cbn [mbind result_bind].
  unfold ids_at. rewrite Nat.sub_diag, take_0, drop_0.
  cbn [app flatten_tail mbind result_bind cross_entropy].
  rewrite to_m1_succ. rewrite Nat.eqb_refl.
  replace (numel ds =? numel [numel ds]) with true
    by (symmetry; apply Nat.eqb_eq; simpl; lia).
  cbn [andb mbind result_bind]. by rewrite Hnum.
Qed.

End LossPath.

(** X7.  With [return_loss=True], a flat input of [L] tokens that fits the
    capacity gives logits for the start token and for every position of
    the padded sequence: [1 + L + remainder_to_mult(L, multiple_of)]
    positions, not cut back to [L].  The input has two rows or more, or
    at most three columns; the model has stage dimensions of at least
    2, at least one attention head of at least one entry, an even head
    size with rotary positions, and a pad id inside the vocabulary when
    [L] needs padding. *)
Theorem forward_loss_logits_shape (config : MegaByteConfig) (m : MegaByte)
    (b L Lt : nat) :
  init config = Ok m ->
  Forall (fun d => 2 <= d)
         (cast_tuple (dim config) (length (depth config))) ->
  1 <= heads config -> 1 <= dim_head config ->
  (rel_pos config = true -> exists e, dim_head config = 2 * e) ->
  (L mod reduce_mult (tail (max_seq_len config)) <> 0 ->
   (0 <= pad_id config < Z.of_nat (num_tokens config))%Z) ->
  1 <= b -> 1 <= L -> 1 <= Lt ->
  2 <= b \/ L <= 3 ->
  L <= reduce_mult (max_seq_len config) ->
  exists padding,
    remainder_to_mult L (reduce_mult (tail (max_seq_len config)))
    = Ok padding
    /\ forward m [b; L] [b; Lt] true
       = Ok (LogitsLoss [b; 1 + (L + padding); num_tokens config]).
Proof.
  intros Hinit Hdim Hheads _ Hrot Hpad Hb HL HLt Hfree Hcap.
  pose proof (flat_mult_pos config m b L Hinit Hb HL Hcap) as Hmp.
  eexists. split.
  { unfold remainder_to_mult. rewrite reduce_mult_numel.
    destruct (numel (tail (max_seq_len config)) =? 0) eqn:E;
      [apply Nat.eqb_eq in E; lia|]. reflexivity. }
  unfold forward.
  assert (Hids : forward_ids [b; L] [b; Lt] = Ok [b; L]).
  { rewrite forward_ids_flat, bool_decide_eq_false_2 by lia.
    do 3 f_equal. lia. }
  rewrite Hids. cbn [mbind result_bind].
  rewrite !bool_decide_true by (first [done | left; done]).
  cbn [assert mbind result_bind].
  destruct (numel [b; L] =? 0) eqn:E.
  { apply Nat.eqb_eq in E. simpl in E. nia. }
  change (default 0 (snd <$> unsnoc [b; L])) with L.
  erewrite pad_and_nest_flat by eassumption.
  cbn [mbind result_bind tail].
  erewrite check_dims_flat by eassumption.
  cbn [mbind result_bind].
  erewrite tokens_flat by eassumption.
  cbn [mbind result_bind].
  erewrite run_stages_flat by eassumption.
  cbn [mbind result_bind].
  eapply forward_result_loss; eassumption.
Qed.

Lemma forward_loss_logits_shape_witness :
  (init config3 = Ok model3
   /\ Forall (fun d => 2 <= d)
             (cast_tuple (dim config3) (length (depth config3)))
   /\ 1 <= heads config3 /\ 1 <= dim_head config3
   /\ (rel_pos config3 = true -> exists e, dim_head config3 = 2 * e)
   /\ (5 mod reduce_mult (tail (max_seq_len config3)) <> 0 ->
       (0 <= pad_id config3 < Z.of_nat (num_tokens config3))%Z)
   /\ 1 <= 2 /\ 1 <= 5 /\ 1 <= 5
   /\ (2 <= 2 \/ 5 <= 3)
   /\ 5 <= reduce_mult (max_seq_len config3))
  /\ exists padding,
       remainder_to_mult 5 (reduce_mult (tail (max_seq_len config3)))
       = Ok padding
       /\ forward model3 [2; 5] [2; 5] true
          = Ok (LogitsLoss [2; 1 + (5 + padding); num_tokens config3]).
Proof.
  assert (H0 : Forall (fun d => 2 <= d)
                      (cast_tuple (dim config3) (length (depth config3))))
    by (repeat constructor; lia).
  assert (Hh : 1 <= heads config3) by (simpl; lia).
  assert (Hd : 1 <= dim_head config3) by (simpl; lia).
  assert (Hr : rel_pos config3 = true -> exists e, dim_head config3 = 2 * e)
    by (intros _; by exists 2).
  assert (Hp : 5 mod reduce_mult (tail (max_seq_len config3)) <> 0 ->
               (0 <= pad_id config3 < Z.of_nat (num_tokens config3))%Z)
    by (intros _; simpl; lia).
  assert (H2 : 1 <= 2) by lia.
  assert (H3 : 1 <= 5) by lia.
  assert (Hf : 2 <= 2 \/ 5 <= 3) by (left; lia).
  assert (H4 : 5 <= reduce_mult (max_seq_len config3)) by (vm_compute; lia).
  split; [done|].
  exact (forward_loss_logits_shape config3 model3 2 5 5 eq_refl H0 Hh Hd Hr
           Hp H2 H3 H3 Hf H4).
Defined.

(** X8.  A flat input of two rows or more (or of at most three columns)
    that is longer than the product of all of [max_seq_len] fails the
    first size assertion of [forward], with or without the loss: after
    padding it has more rows than the first stage allows.  For a single
    row of four columns or more the opening assignment raises before. *)
Theorem forward_rejects_long_input (config : MegaByteConfig) (m : MegaByte)
    (b L Lt : nat) (return_loss : bool) :
  init config = Ok m ->
  1 <= b -> 1 <= Lt ->
  2 <= b \/ L <= 3 ->
  0 < reduce_mult (tail (max_seq_len config)) ->
  reduce_mult (max_seq_len config) < L ->
  forward m [b; L] [b; Lt] return_loss = Raise AssertionError.
Proof.
  intros Hinit Hb HLt Hfree Hmp Hlong.
  destruct (init_inv config m Hinit) as (H1 & _ & H3 & _ & Hm & _).
  rewrite !reduce_mult_numel in *.
  set (msl := max_seq_len config) in *.
  set (mult := numel (tail msl)) in *.
  destruct msl as [|x l] eqn:Emsl; [simpl in H1; lia|].
  rewrite numel_cons in Hlong. change (numel (tail (x :: l))) with (numel l) in mult.
  fold mult in Hlong.
  unfold forward.
  assert (Hids : forward_ids [b; L] [b; Lt] = Ok [b; L]).
  { rewrite forward_ids_flat, bool_decide_eq_false_2 by lia.
    do 3 f_equal. lia. }
  rewrite Hids. cbn [mbind result_bind].
  rewrite !bool_decide_true by (first [done | left; done]).
  cbn [assert mbind result_bind].
  destruct (numel [b; L] =? 0) eqn:E.
  { apply Nat.eqb_eq in E. simpl in E. nia. }
  change (default 0 (snd <$> unsnoc [b; L])) with L.
  cbn [bool_decide decide_rel].
  unfold pad_and_nest. rewrite Hm. cbn [tail].
  rewrite reduce_mult_numel. fold mult.
  unfold remainder_to_mult.
  destruct (mult =? 0) eqn:E0; [apply Nat.eqb_eq in E0; lia|].
  cbn [mbind result_bind].
  set (pad := (mult - L mod mult) mod mult).
  destruct (padded_length L mult Hmp) as (_ & _ & Hq). fold pad in Hq.
  set (d0 := (L + pad) / mult) in *.
  rewrite cat_m1_flat. cbn [mbind result_bind].
  unfold reshape_infer. fold mult.
  assert (Hn : numel [b; L + pad] = d0 * (b * mult)).
  { rewrite Hq. simpl. lia. }
  rewrite Hn.
  destruct (b * mult =? 0) eqn:E2; [apply Nat.eqb_eq in E2; nia|].
  rewrite Nat.Div0.mod_mul. cbn [negb Nat.eqb].
  rewrite Nat.div_mul by nia. cbn [mbind result_bind tail].
  unfold check_dims. rewrite Hm. cbn [mbind result_bind].
  replace (d0 <=? x) with false
    by (symmetry; apply Nat.leb_gt; nia).
  reflexivity.
Qed.

Lemma forward_rejects_long_input_witness :
  (init config2 = Ok model2 /\ 1 <= 2 /\ 1 <= 7
   /\ (2 <= 2 \/ 7 <= 3)
   /\ 0 < reduce_mult (tail (max_seq_len config2))
   /\ reduce_mult (max_seq_len config2) < 7)
  /\ forward model2 [2; 7] [2; 7] true = Raise AssertionError.
Proof.
  assert (H2 : 1 <= 2) by lia.
  assert (H3 : 1 <= 7) by lia.
  assert (Hf : 2 <= 2 \/ 7 <= 3) by (left; lia).
  assert (H4 : 0 < reduce_mult (tail (max_seq_len config2)))
    by (vm_compute; lia).
  assert (H5 : reduce_mult (max_seq_len config2) < 7) by (vm_compute; lia).
  split; [done|].
  exact (forward_rejects_long_input config2 model2 2 7 7 true eq_refl H2 H3
           Hf H4 H5).
Defined.

(** X9.  [generate] on a two-dimensional prime of [n] tokens: when [n] is
    below the total length the first turn of the loop calls
    [self.forward(seq)] without [targets] and raises [TypeError]; when
    [n] is the total length the loop does not run and the prime comes
    back reshaped to [(batch, *max_seq_len)]; when [n] is above it the
    loop does not run either and the reshape raises. *)
Theorem generate_from_prime (m : MegaByte) (b n : nat)
    (filter_thres temperature : number) (default_batch_size : nat) :
  1 <= b ->
  generate m (Some [b; n]) filter_thres temperature default_batch_size
  = if n <? reduce_mult (mb_max_seq_len m) then Raise TypeError
    else if n =? reduce_mult (mb_max_seq_len m)
         then Ok (b :: mb_max_seq_len m)
         else Raise RuntimeError.
Proof.
  intros Hb. unfold generate.
  change (default [default_batch_size; 0] (Some [b; n])) with [b; n].
  cbn [mbind result_bind]. change (unsnoc [b; n]) with (Some ([b], n)).
  cbn [mbind result_bind].
  set (total := reduce_mult (mb_max_seq_len m)).
  destruct (n <? total) eqn:E1.
  - apply Nat.ltb_lt in E1.
    destruct (total - n) as [|k] eqn:Ek; [lia|]. reflexivity.
  - apply Nat.ltb_ge in E1.
    replace (total - n) with 0 by lia. cbn [generate_loop mbind result_bind].
    unfold reshape. rewrite numel_cons. unfold total in *.
    rewrite reduce_mult_numel in *. simpl numel. rewrite Nat.mul_1_r.
    destruct (n =? numel (mb_max_seq_len m)) eqn:E2.
    + apply Nat.eqb_eq in E2. subst n. by rewrite Nat.eqb_refl.
    + apply Nat.eqb_neq in E2.
      replace (b * n =? b * numel (mb_max_seq_len m)) with false; [done|].
      symmetry. apply Nat.eqb_neq. nia.
Qed.

Lemma generate_from_prime_witness :
  1 <= 2
  /\ generate model2 (Some [2; 6]) (PyFloat (float_lit (9 # 10)))
       (PyFloat (b64 1)) 1
     = if 6 <? reduce_mult (mb_max_seq_len model2) then Raise TypeError
       else if 6 =? reduce_mult (mb_max_seq_len model2)
            then Ok (2 :: mb_max_seq_len model2)
            else Raise RuntimeError.
Proof.
  split; [lia|].
  apply (generate_from_prime model2 2 6 (PyFloat (float_lit (9 # 10)))
           (PyFloat (b64 1)) 1).
  lia.
Defined.

End LossPathFacts.

(* --------------------------------------------------------------------- *)
(** ** [top_k] without truncation, [token_shift] and the future           *)
(* --------------------------------------------------------------------- *)

Module TopKMore.
Import Helpers TopKFacts.

Section All.
Context {A : Type} (neg_inf : A).

Context (select : nat -> list A -> list (nat * A)).

(** X10.  With [thres = 0] nothing is filtered: [k] is the number of logits,
    [torch.topk] returns every column once, and the scatter writes every
    value back where it was.  [top_k] returns the logits it was given,
    whatever the values and their order are, and whichever columns
    [torch.topk] puts first.  The same holds for every threshold for
    which the count is the number of logits. *)
Theorem top_k_threshold_zero_keeps_everything (n : nat)
    (logits : list (list A)) :
  topk_columns select ->
  1 <= n ->
  Forall (fun row => length row = n) logits ->
  top_k neg_inf select n logits (PyInt 0) = Ok logits
  /\ forall thres, top_k_count thres n = Ok (Z.of_nat n) ->
       top_k neg_inf select n logits thres = Ok logits.
Proof.
  intros Hsel Hn Hrows.
  assert (Hall : forall thres, top_k_count thres n = Ok (Z.of_nat n) ->
                   top_k neg_inf select n logits thres = Ok logits).
  { intros thres Hk.
    rewrite (top_k_ok neg_inf select n logits thres (Z.of_nat n) Hk) by lia.
    rewrite Nat2Z.id. f_equal.
    apply list_eq. intros b. rewrite lookup_map.
    destruct (logits !! b) as [row|] eqn:Hb; [|done]. simpl. f_equal.
    assert (Hrow : length row = n).
    { eapply (proj1 (Forall_lookup _ _) Hrows); eauto. }
    destruct (Hsel n row) as (Hl & Hnd & Hin); [lia|].
    set (sel := select n row) in *.
    unfold scatter_row. rewrite zip_fst_snd.
    assert (Hperm : sel.*1 ≡ₚ seq 0 n).
    { apply submseteq_length_Permutation.
      - apply NoDup_submseteq; [done|]. intros i Hi.
        apply list_elem_of_fmap in Hi as ([i' x] & -> & Hi).
        apply Hin in Hi. apply lookup_lt_Some in Hi.
        apply elem_of_seq. simpl. lia.
      - rewrite length_seq, length_fmap. lia. }
    apply list_eq. intros i.
    destruct (decide (i < n)) as [Hi|Hi].
    - assert (His : i ∈ sel.*1).
      { rewrite Hperm. apply elem_of_seq. lia. }
      apply list_elem_of_fmap in His as ([i' x] & -> & His).
      pose proof (Hin _ _ His) as Hx. simpl. rewrite Hx.
      apply scatter_selected; [done|done|].
      rewrite length_replicate. by apply lookup_lt_Some in Hx; lia.
    - rewrite (lookup_ge_None_2 row) by lia.
      apply lookup_ge_None_2. rewrite scatter_length, length_replicate. lia. }
  split; [|done]. apply Hall. unfold top_k_count.
  cbn [mbind result_bind]. f_equal. lia.
Qed.

End All.

Lemma top_k_threshold_zero_keeps_everything_witness :
  let logits := [[Fin 2; NegInf; Fin 5]; [Fin 0; Fin 3; Fin 1]] in
  (topk_columns (largest_first xint_leb)
   /\ 1 <= 3 /\ Forall (fun row => length row = 3) logits)
  /\ top_k NegInf (largest_first xint_leb) 3 logits (PyInt 0) = Ok logits
  /\ top_k NegInf (largest_first xint_leb) 3 logits (PyFloat (b64 0))
     = Ok logits.
Proof.
  intros logits.
  assert (H0 : topk_columns (largest_first xint_leb))
    by apply largest_first_columns.
  assert (H1 : 1 <= 3) by lia.
  assert (H2 : Forall (fun row : list xint => length row = 3) logits)
    by (repeat constructor).
  split; [done|].
  destruct (top_k_threshold_zero_keeps_everything NegInf
              (largest_first xint_leb) 3 logits H0 H1 H2) as [Ha Hb].
  split; [exact Ha|]. apply Hb. vm_compute. reflexivity.
Defined.

End TopKMore.

Module TokenShiftMore.
Import Helpers TokenShiftFacts.

Section Causal.
Context {A : Type} (zero : A).

(** One batch entry of the output of [token_shift]. *)
Lemma token_shift_data (t : tensor3 A) :
  2 <= t3_feat t -> 1 <= t3_seq t ->
  let s1 := (t3_feat t + 1) / 2 in
  let s2 := t3_feat t / 2 in
  exists out,
    token_shift zero t = Ok out
    /\ length (t3_data out) = length (t3_data t)
    /\ forall b s, t3_data t !! b = Some s ->
         t3_data out !! b
         = Some (zip_with app (map (take s1) s)
                   (replicate s2 zero
                    :: take (t3_seq t - 1)
                         (map (fun v => take s2 (drop s1 v)) s))).
Proof.
  intros HD Hn s1 s2. unfold token_shift.
  rewrite chunk_sizes_two by lia. fold s1 s2. unfold pad_seq.
  destruct (t3_seq t <? 1) eqn:E; [apply Nat.ltb_lt in E; lia|].
  simpl. eexists. split; [reflexivity|]. simpl. split.
  - rewrite length_zip_with, !length_map. lia.
  - intros b s Hb. rewrite lookup_zip_with, !lookup_map, Hb. done.
Qed.

(** X11.  [token_shift] never looks ahead: when two inputs of the same sizes
    agree on the positions up to [p] of every batch entry, so do the two
    outputs. *)
Theorem token_shift_is_causal (t t' : tensor3 A) (p : nat) :
  wf3 t -> wf3 t' ->
  t3_seq t' = t3_seq t -> t3_feat t' = t3_feat t ->
  length (t3_data t') = length (t3_data t) ->
  2 <= t3_feat t -> 1 <= t3_seq t ->
  (forall b s s', t3_data t !! b = Some s -> t3_data t' !! b = Some s' ->
     take (S p) s = take (S p) s') ->
  exists out out',
    token_shift zero t = Ok out
    /\ token_shift zero t' = Ok out'
    /\ length (t3_data out) = length (t3_data t)
    /\ length (t3_data out') = length (t3_data t)
    /\ forall b o o', t3_data out !! b = Some o ->
         t3_data out' !! b = Some o' ->
         take (S p) o = take (S p) o'.
Proof.
  intros _ _ Hseq Hfeat Hlen HD Hn Hagree.
  destruct (token_shift_data t HD Hn) as (out & Hout & Hl & Hd).
  destruct (token_shift_data t') as (out' & Hout' & Hl' & Hd'); [lia|lia|].
  rewrite Hseq, Hfeat in Hd'.
  exists out, out'. split; [done|]. split; [done|].
  split; [done|]. split; [lia|].
  intros b o o' Ho Ho'.
  destruct (lookup_lt_is_Some_2 (t3_data t) b) as [s Hs].
  { apply lookup_lt_Some in Ho. lia. }
  destruct (lookup_lt_is_Some_2 (t3_data t') b) as [s' Hs'].
  { apply lookup_lt_Some in Ho'. lia. }
  rewrite (Hd b s Hs) in Ho. rewrite (Hd' b s' Hs') in Ho'.
  injection Ho as <-. injection Ho' as <-.
  pose proof (Hagree b s s' Hs Hs') as Ht.
  rewrite !zip_with_take. f_equal.
  - rewrite !firstn_map. by rewrite Ht.
  - cbn [take]. f_equal. rewrite !take_take.
    rewrite !firstn_map.
    assert (Hmin : forall l : list (list A),
              take (Nat.min p (t3_seq t - 1)) l
              = take (Nat.min p (t3_seq t - 1)) (take (S p) l)).
    { intros l. rewrite take_take. f_equal. lia. }
    by rewrite (Hmin s), (Hmin s'), Ht.
Qed.

End Causal.

Lemma token_shift_is_causal_witness :
  let t := T3 3 2 [[[1; 2]; [3; 4]; [5; 6]]]%Z in
  let t' := T3 3 2 [[[1; 2]; [3; 4]; [7; 8]]]%Z in
  (wf3 t /\ wf3 t' /\ t3_seq t' = t3_seq t /\ t3_feat t' = t3_feat t
   /\ length (t3_data t') = length (t3_data t)
   /\ 2 <= t3_feat t /\ 1 <= t3_seq t
   /\ (forall b s s', t3_data t !! b = Some s -> t3_data t' !! b = Some s' ->
         take 2 s = take 2 s'))
  /\ exists out out',
       token_shift 0%Z t = Ok out
       /\ token_shift 0%Z t' = Ok out'
       /\ length (t3_data out) = length (t3_data t)
       /\ length (t3_data out') = length (t3_data t)
       /\ forall b o o', t3_data out !! b = Some o ->
            t3_data out' !! b = Some o' ->
            take 2 o = take 2 o'.
Proof.
  intros t t'.
  assert (H1 : wf3 t) by (repeat constructor).
  assert (H2 : wf3 t') by (repeat constructor).
  assert (H3 : 2 <= t3_feat t) by (simpl; lia).
  assert (H4 : 1 <= t3_seq t) by (simpl; lia).
  assert (H5 : forall b s s', t3_data t !! b = Some s ->
                 t3_data t' !! b = Some s' -> take 2 s = take 2 s').
  { intros [|b] s s' Hs Hs'; [|discriminate].
    injection Hs as <-. injection Hs' as <-. reflexivity. }
  split; [repeat split; try done; simpl; lia|].
  exact (token_shift_is_causal 0%Z t t' 1 H1 H2 eq_refl eq_refl eq_refl
           H3 H4 H5).
Defined.

End TokenShiftMore.

(* --------------------------------------------------------------------- *)
(** ** [once], [print_once] and the causal mask                            *)
(* --------------------------------------------------------------------- *)

Module OnceFacts.
Import Once.

Lemma calls_after_first {X Y S : Type} (fn : X -> S -> Y * S)
    (xs : list X) (s : S) :
  calls fn xs (true, s) = (replicate (length xs) None, (true, s)).
Proof.
  induction xs as [|x xs IH]; [done|].
  cbn [calls inner fst snd length replicate]. by rewrite IH.
Qed.

(** X12.  A function wrapped by [once] is applied to the argument of the
    first call and to no other: the first call returns what the
    function returns, every later call returns [None] and leaves the
    state as the first call left it.  So [print_once] writes the first
    message it is given and nothing after it. *)
Theorem once_applies_fn_to_first_call_only {X Y S : Type}
    (fn : X -> S -> Y * S) (x : X) (xs : list X) (s : S) (out : list X) :
  calls fn (x :: xs) (false, s)
  = (Some (fst (fn x s)) :: replicate (length xs) None,
     (true, snd (fn x s)))
  /\ snd (calls print (x :: xs) (false, out)) = (true, out ++ [x])
  /\ snd (snd (print_once x (false, out))) = out ++ [x]
  /\ forall y, print_once y (true, out) = (None, (true, out)).
Proof.
  split; [|split; [|split]].
  - cbn [calls inner fst snd]. by rewrite calls_after_first.
  - cbn [calls inner fst snd print]. by rewrite calls_after_first.
  - reflexivity.
  - reflexivity.
Qed.

End OnceFacts.

Module MaskFacts.
Import Mask.

(** X13.  The causal mask of [i] queries over [j] keys: the query of row [r]
    sees the keys up to column [r + (j - i)] and no later one.  Row [r]
    is [min(j, r + j + 1 - i)] entries that are false (visible) followed
    by entries that are true (hidden); for [i = j] the mask is the
    strict upper triangle, and the last row hides nothing. *)
Theorem get_mask_rows (i j r : nat) :
  r < i ->
  let visible := Nat.min j (r + j + 1 - i) in
  length (get_mask i j) = i
  /\ get_mask i j !! r
     = Some (replicate visible false ++ replicate (j - visible) true)
  /\ (r = i - 1 -> get_mask i j !! r = Some (replicate j false)).
Proof.
  intros Hr visible.
  assert (Hrow : get_mask i j !! r
                 = Some (replicate visible false
                         ++ replicate (j - visible) true)).
  { unfold get_mask, triu, ones. rewrite list_lookup_imap.
    rewrite lookup_replicate_2 by done. simpl. f_equal.
    apply list_eq. intros c. rewrite list_lookup_imap.
    destruct (decide (c < j)) as [Hc|Hc].
    - rewrite lookup_replicate_2 by done. simpl.
      destruct (decide (c < visible)) as [Hv|Hv].
      + rewrite lookup_app_l by (rewrite length_replicate; lia).
        rewrite lookup_replicate_2 by done.
        destruct (_ <=? _)%Z eqn:E; [|done].
        apply Z.leb_le in E. unfold visible in Hv. lia.
      + rewrite lookup_app_r by (rewrite length_replicate; lia).
        rewrite length_replicate.
        rewrite lookup_replicate_2 by (unfold visible in *; lia).
        destruct (_ <=? _)%Z eqn:E; [done|].
        apply Z.leb_gt in E. unfold visible in Hv. lia.
    - rewrite (lookup_ge_None_2 (replicate j true)) by (rewrite length_replicate; lia). simpl. symmetry.
      apply lookup_ge_None_2.
      rewrite length_app, !length_replicate. unfold visible. lia. }
  split; [|split; [done|]].
  - unfold get_mask, triu, ones. by rewrite length_imap, length_replicate.
  - intros ->. rewrite Hrow. f_equal.
    replace visible with j by (unfold visible; lia).
    by rewrite Nat.sub_diag, app_nil_r.
Qed.

Lemma get_mask_rows_witness :
  1 < 3 /\
  let visible := Nat.min 3 (1 + 3 + 1 - 3) in
  length (get_mask 3 3) = 3
  /\ get_mask 3 3 !! 1
     = Some (replicate visible false ++ replicate (3 - visible) true)
  /\ (1 = 3 - 1 -> get_mask 3 3 !! 1 = Some (replicate 3 false)).
Proof. split; [lia|]. apply (get_mask_rows 3 3 1). lia. Defined.

End MaskFacts.

(* --------------------------------------------------------------------- *)
(** ** Rotary positions and the norm                                      *)
(* --------------------------------------------------------------------- *)

Module VectorFacts.
Import Helpers Vectors TokenShiftFacts.

Lemma rotate_half_app {A} (neg : A -> A) (a b : list A) :
  length a = length b ->
  rotate_half neg (a ++ b) = Ok (map neg b ++ a).
Proof.
  intros Hab. unfold rotate_half. rewrite length_app.
  replace (length a + length b) with (2 * length a) by lia.
  rewrite chunk_sizes_even.
  rewrite drop_app_length, take_app_length.
  by rewrite take_ge by lia.
Qed.

(** Two halves of a vector of even length. *)
Lemma split_even {A} (x : list A) (h : nat) :
  length x = 2 * h ->
  exists a b, x = a ++ b /\ length a = h /\ length b = h.
Proof.
  intros Hx. exists (take h x), (drop h x).
  rewrite take_drop, length_take, length_drop. split; [done|lia].
Qed.

(** X14.  On a vector of even length, [rotate_half] applied twice negates
    every entry: it is a quarter turn of every pair made of entry [i]
    and entry [i + D/2]. *)
Theorem rotate_half_twice_negates {A} (neg : A -> A) (x : list A)
    (h : nat) :
  length x = 2 * h ->
  exists y,
    rotate_half neg x = Ok y
    /\ length y = length x
    /\ rotate_half neg y = Ok (map neg x).
Proof.
  intros Hx. destruct (split_even x h Hx) as (a & b & -> & Ha & Hb).
  exists (map neg b ++ a).
  split; [apply rotate_half_app; lia|].
  split; [rewrite !length_app, length_map; lia|].
  rewrite rotate_half_app by (rewrite length_map; lia).
  by rewrite map_app.
Qed.

Lemma rotate_half_twice_negates_witness :
  length [1; 2; 3; 4]%Z = 2 * 2 /\
  exists y,
    rotate_half Z.opp [1; 2; 3; 4]%Z = Ok y
    /\ length y = length [1; 2; 3; 4]%Z
    /\ rotate_half Z.opp y = Ok (map Z.opp [1; 2; 3; 4]%Z).
Proof.
  split; [reflexivity|].
  apply (rotate_half_twice_negates Z.opp [1; 2; 3; 4]%Z 2). reflexivity.
Defined.

Local Open Scope R_scope.

(** The row of the rotary table for position [p]. *)
Lemma rotary_row (dim : nat) (theta : R) (n p : nat) :
  (p < n)%nat ->
  exists f,
    rotary_forward (rotary_init dim theta) n !! p = Some (f ++ f)
    /\ length f = ((dim + 1) / 2)%nat
    /\ (p = 0%nat -> Forall (fun a => a = 0) f).
Proof.
  intros Hp. unfold rotary_forward, rotary_init. cbn [inv_freq].
  rewrite lookup_map, lookup_seq_lt by done. simpl.
  eexists. split; [reflexivity|]. split.
  - unfold arange_by_2. by rewrite !length_map, length_seq.
  - intros ->. apply Forall_forall. intros a Ha.
    apply list_elem_of_In, in_map_iff in Ha as (w & <- & _).
    simpl. lra.
Qed.

Lemma bzip_same {A B C} (f : A -> B -> C) (u : list A) (v : list B) :
  length u = length v -> bzip f u v = Ok (zip_with f u v).
Proof. intros H. unfold bzip. by rewrite H, Nat.eqb_refl. Qed.

Lemma sumsq_app (u v : list R) : sumsq (u ++ v) = sumsq u + sumsq v.
Proof.
  unfold sumsq. induction u as [|a u IH]; simpl; [lra|].
  rewrite IH. lra.
Qed.

(** The rotation of every pair keeps the pair's length. *)
Lemma rotation_sumsq (a : list R) : forall b f : list R,
  length a = length b -> length b = length f ->
  sumsq (zip_with Rplus (zip_with Rmult a (map cos f))
                        (zip_with Rmult (map Ropp b) (map sin f)))
  + sumsq (zip_with Rplus (zip_with Rmult b (map cos f))
                          (zip_with Rmult a (map sin f)))
  = sumsq a + sumsq b.
Proof.
  induction a as [|x a IH]; intros [|y b] [|w f] Hab Hbf;
    try discriminate; [unfold sumsq; simpl; lra|].
  simpl in Hab, Hbf. injection Hab as Hab. injection Hbf as Hbf.
  specialize (IH b f Hab Hbf). unfold sumsq in *. simpl.
  pose proof (sin2_cos2 w) as Hsc. unfold Rsqr in Hsc.
  nra.
Qed.

(** The vector a rotation gives, from its two halves. *)
Lemma apply_rotary_halves (a b f : list R) :
  length a = length b -> length b = length f ->
  apply_rotary_pos_emb (f ++ f) (a ++ b)
  = Ok (zip_with Rplus (zip_with Rmult a (map cos f))
                       (zip_with Rmult (map Ropp b) (map sin f))
        ++ zip_with Rplus (zip_with Rmult b (map cos f))
                          (zip_with Rmult a (map sin f))).
Proof.
  intros Hab Hbf. unfold apply_rotary_pos_emb.
  rewrite !map_app.
  rewrite bzip_same by (rewrite !length_app, !length_map; lia).
  cbn [mbind result_bind].
  rewrite rotate_half_app by done. cbn [mbind result_bind].
  rewrite bzip_same by (rewrite !length_app, !length_map; lia).
  cbn [mbind result_bind].
  rewrite !zip_with_app by (rewrite ?length_map; lia).
  rewrite bzip_same.
  2:{ rewrite !length_app, !length_zip_with, !length_map. lia. }
  rewrite zip_with_app.
  2:{ rewrite !length_zip_with, !length_map. lia. }
  done.
Qed.

(** X15.  Rotary positions turn every pair and stretch nothing: for an even
    [dim], the row of [RotaryEmbedding(dim).forward(n)] for a position
    [p < n], applied to a vector of [dim] entries, gives a vector with
    the same sum of squares. *)
Theorem rotary_preserves_norm (h : nat) (theta : R) (n p : nat)
    (t : list R) :
  (p < n)%nat ->
  length t = (2 * h)%nat ->
  exists pos out,
    rotary_forward (rotary_init (2 * h) theta) n !! p = Some pos
    /\ apply_rotary_pos_emb pos t = Ok out
    /\ length out = length t
    /\ sumsq out = sumsq t.
Proof.
  intros Hp Ht.
  destruct (rotary_row (2 * h) theta n p Hp) as (f & Hrow & Hf & _).
  destruct (half_even h) as [_ Hh]. rewrite Hh in Hf.
  destruct (split_even t h Ht) as (a & b & -> & Ha & Hb).
  exists (f ++ f). eexists. split; [done|].
  split; [apply apply_rotary_halves; lia|]. split.
  - rewrite !length_app, !length_zip_with, !length_map. lia.
  - rewrite !sumsq_app. apply rotation_sumsq; lia.
Qed.

Lemma rotary_preserves_norm_witness :
  ((1 < 2)%nat /\ length [1; 2] = (2 * 1)%nat) /\
  exists pos out,
    rotary_forward (rotary_init (2 * 1) 10000) 2 !! 1%nat = Some pos
    /\ apply_rotary_pos_emb pos [1; 2] = Ok out
    /\ length out = length [1; 2]
    /\ sumsq out = sumsq [1; 2].
Proof.
  assert (H1 : (1 < 2)%nat) by lia.
  assert (H2 : length [1; 2] = (2 * 1)%nat) by reflexivity.
  split; [done|].
  exact (rotary_preserves_norm 1 10000 2 1 [1; 2] H1 H2).
Defined.

Lemma zip_with_zero_angle (a b f : list R) :
  length a = length f -> length b = length f ->
  Forall (fun w => w = 0) f ->
  zip_with Rplus (zip_with Rmult a (map cos f))
                 (zip_with Rmult b (map sin f)) = a.
Proof.
  revert b f. induction a as [|x a IH]; intros [|y b] [|w f] Ha Hb Hf;
    try discriminate; [done|].
  apply Forall_cons in Hf as [-> Hf]. simpl.
  rewrite cos_0, sin_0. f_equal; [lra|].
  apply IH; [by injection Ha|by injection Hb|done].
Qed.

(** X16.  Position 0 is not turned: the first row of the rotary table is
    zero, and [apply_rotary_pos_emb] of it returns the vector it is
    given. *)
Theorem rotary_leaves_first_position (h : nat) (theta : R) (n : nat)
    (t : list R) :
  (0 < n)%nat ->
  length t = (2 * h)%nat ->
  exists pos,
    rotary_forward (rotary_init (2 * h) theta) n !! 0%nat = Some pos
    /\ Forall (fun a => a = 0) pos
    /\ apply_rotary_pos_emb pos t = Ok t.
Proof.
  intros Hn Ht.
  destruct (rotary_row (2 * h) theta n 0 Hn) as (f & Hrow & Hf & H0).
  specialize (H0 eq_refl).
  destruct (half_even h) as [_ Hh]. rewrite Hh in Hf.
  destruct (split_even t h Ht) as (a & b & -> & Ha & Hb).
  exists (f ++ f). split; [done|].
  split; [by apply Forall_app|].
  rewrite apply_rotary_halves by lia.
  rewrite !zip_with_zero_angle; try done; rewrite ?length_map; lia.
Qed.

Lemma rotary_leaves_first_position_witness :
  ((0 < 2)%nat /\ length [1; 2] = (2 * 1)%nat) /\
  exists pos,
    rotary_forward (rotary_init (2 * 1) 10000) 2 !! 0%nat = Some pos
    /\ Forall (fun a => a = 0) pos
    /\ apply_rotary_pos_emb pos [1; 2] = Ok [1; 2].
Proof.
  assert (H1 : (0 < 2)%nat) by lia.
  assert (H2 : length [1; 2] = (2 * 1)%nat) by reflexivity.
  split; [done|].
  exact (rotary_leaves_first_position 1 10000 2 [1; 2] H1 H2).
Defined.

(** X17.  For an odd [dim] the rotary table has [dim + 1] columns, one more
    than the vectors it is made for: [apply_rotary_pos_emb] cannot
    multiply the two and raises (for [dim = 1] the product broadcasts
    and [rotate_half] raises, having a single piece to unpack). *)
Theorem rotary_rejects_odd_dim (h : nat) (theta : R) (n p : nat)
    (t : list R) :
  (p < n)%nat ->
  length t = (2 * h + 1)%nat ->
  exists pos,
    rotary_forward (rotary_init (2 * h + 1) theta) n !! p = Some pos
    /\ length pos = (2 * h + 2)%nat
    /\ apply_rotary_pos_emb pos t
       = Raise (if (h =? 0)%nat then ValueError else RuntimeError).
Proof.
  intros Hp Ht.
  destruct (rotary_row (2 * h + 1) theta n p Hp) as (f & Hrow & Hf & _).
  rewrite half_odd in Hf.
  exists (f ++ f). split; [done|].
  assert (Hlen : length (f ++ f) = (2 * h + 2)%nat)
    by (rewrite length_app; lia).
  split; [done|].
  assert (Hne : (length t =? length (map cos (f ++ f)))%nat = false).
  { apply Nat.eqb_neq. rewrite length_map. lia. }
  unfold apply_rotary_pos_emb.
  destruct h as [|h].
  - destruct t as [|x [|y t]]; try discriminate.
    assert (Hb : bzip Rmult [x] (map cos (f ++ f))
                 = Ok (map (Rmult x) (map cos (f ++ f)))).
    { unfold bzip. by rewrite Hne. }
    rewrite Hb. cbn [mbind result_bind]. unfold rotate_half. simpl length.
    rewrite chunk_sizes_one. reflexivity.
  - assert (Hb : bzip Rmult t (map cos (f ++ f)) = Raise RuntimeError).
    { unfold bzip. rewrite Hne.
      destruct t as [|x [|y t]]; try (simpl in Ht; lia).
      destruct f as [|w [|w' f]]; try (simpl in Hf; lia).
      reflexivity. }
    rewrite Hb. reflexivity.
Qed.

Lemma rotary_rejects_odd_dim_witness :
  ((0 < 2)%nat /\ length [1; 2; 3] = (2 * 1 + 1)%nat) /\
  exists pos,
    rotary_forward (rotary_init (2 * 1 + 1) 10000) 2 !! 0%nat = Some pos
    /\ length pos = (2 * 1 + 2)%nat
    /\ apply_rotary_pos_emb pos [1; 2; 3]
       = Raise (if (1 =? 0)%nat then ValueError else RuntimeError).
Proof.
  assert (H1 : (0 < 2)%nat) by lia.
  assert (H2 : length [1; 2; 3] = (2 * 1 + 1)%nat) by reflexivity.
  split; [done|].
  exact (rotary_rejects_odd_dim 1 10000 2 0 [1; 2; 3] H1 H2).
Defined.

End VectorFacts.

Module NormFacts.
Import Helpers Vectors VectorFacts.
Local Open Scope R_scope.

Lemma sumsq_nonneg (x : list R) : 0 <= sumsq x.
Proof.
  unfold sumsq. induction x as [|a x IH]; simpl; [lra|]. nra.
Qed.

Lemma sumsq_scaled (c : R) (x : list R) :
  sumsq (map (fun a => a / c * 1) x) = sumsq x / (c * c).
Proof.
  unfold sumsq. induction x as [|a x IH]; simpl.
  - unfold Rdiv. lra.
  - rewrite IH. destruct (Req_dec_T c 0) as [->|Hc].
    + unfold Rdiv. rewrite Rmult_0_l, Rinv_0. lra.
    + field. done.
Qed.

Lemma zip_with_ones (x : list R) (n : nat) (c : R) :
  length x = n ->
  zip_with Rmult (map (fun a => a / c) x) (replicate n 1)
  = map (fun a => a / c * 1) x.
Proof.
  intros <-. induction x as [|a x IH]; simpl; [done|]. by rewrite IH.
Qed.

(** [dim ** -0.5] is one over the square root of [dim]. *)
Lemma rms_scale_value (dim : nat) :
  (0 < dim)%nat -> Rpower (INR dim) (- (1 / 2)) = / sqrt (INR dim).
Proof.
  intros Hd. rewrite Rpower_Ropp. f_equal.
  replace (1 / 2) with (/ 2) by lra.
  apply Rpower_sqrt. apply lt_0_INR. lia.
Qed.

(** X18.  A freshly built [RMSNorm(dim)] (its gain [g] still all ones) gives
    every vector of [dim] entries whose scaled norm is not below [eps]
    a root mean square of one: the squares of the output sum to [dim]. *)
Theorem rms_norm_gives_unit_rms (dim : nat) (eps : R) (n : RMSNorm)
    (x : list R) :
  rms_norm_init dim eps = Ok n ->
  length x = dim ->
  0 < eps ->
  eps <= sqrt (sumsq x) * rms_scale n ->
  exists y,
    rms_norm_forward n x = Ok y
    /\ length y = dim
    /\ sumsq y = INR dim.
Proof.
  intros Hinit Hx Heps Hnorm. unfold rms_norm_init in Hinit.
  destruct (dim =? 0)%nat eqn:E; [discriminate|].
  apply Nat.eqb_neq in E. injection Hinit as <-. cbn [rms_scale] in Hnorm.
  unfold rms_norm_forward. cbn [rms_scale rms_eps rms_g].
  rewrite rms_scale_value in * by lia.
  set (c := sqrt (sumsq x) * / sqrt (INR dim)) in *.
  rewrite Rmax_left by done.
  rewrite bzip_same by (rewrite length_map, length_replicate; lia).
  rewrite zip_with_ones by done.
  eexists. split; [reflexivity|]. split; [by rewrite length_map|].
  rewrite sumsq_scaled.
  assert (Hd : 0 < INR dim) by (apply lt_0_INR; lia).
  assert (Hsd : 0 < sqrt (INR dim)) by (by apply sqrt_lt_R0).
  pose proof (sumsq_nonneg x) as Hs.
  assert (Hcc : c * c = sumsq x / INR dim).
  { unfold c.
    replace (sqrt (sumsq x) * / sqrt (INR dim)
             * (sqrt (sumsq x) * / sqrt (INR dim)))
      with ((sqrt (sumsq x) * sqrt (sumsq x))
            * / (sqrt (INR dim) * sqrt (INR dim)))
      by (field; lra).
    rewrite !sqrt_sqrt by lra. reflexivity. }
  assert (Hcpos : 0 < c) by lra.
  assert (Hspos : 0 < sumsq x).
  { destruct (Req_dec_T (sumsq x) 0) as [H0|H0]; [|lra].
    exfalso. unfold c in Hcpos. rewrite H0, sqrt_0 in Hcpos. lra. }
  rewrite Hcc. field. split; lra.
Qed.

Lemma rms_norm_gives_unit_rms_witness :
  (rms_norm_init 2 (/ 2)
   = Ok (RMS (Rpower (INR 2) (- (1 / 2))) (/ 2) [1; 1])
   /\ length [2; 2] = 2%nat
   /\ 0 < / 2
   /\ / 2 <= sqrt (sumsq [2; 2])
             * rms_scale (RMS (Rpower (INR 2) (- (1 / 2))) (/ 2) [1; 1]))
  /\ exists y,
       rms_norm_forward (RMS (Rpower (INR 2) (- (1 / 2))) (/ 2) [1; 1])
                        [2; 2] = Ok y
       /\ length y = 2%nat
       /\ sumsq y = INR 2.
Proof.
  assert (H1 : rms_norm_init 2 (/ 2)
               = Ok (RMS (Rpower (INR 2) (- (1 / 2))) (/ 2) [1; 1]))
    by reflexivity.
  assert (H2 : length [2; 2] = 2%nat) by reflexivity.
  assert (H3 : 0 < / 2) by lra.
  assert (H4 : / 2 <= sqrt (sumsq [2; 2])
                      * rms_scale (RMS (Rpower (INR 2) (- (1 / 2))) (/ 2)
                                       [1; 1])).
  { cbn [rms_scale]. rewrite rms_scale_value by lia.
    replace (sumsq [2; 2]) with (2 * 2 * INR 2)
      by (unfold sumsq; simpl; lra).
    assert (Hs : 0 < sqrt (INR 2)) by (apply sqrt_lt_R0; simpl; lra).
    rewrite sqrt_mult by (simpl; lra).
    rewrite sqrt_square by lra.
    replace (2 * sqrt (INR 2) * / sqrt (INR 2)) with 2 by (field; lra).
    lra. }
  split; [done|].
  exact (rms_norm_gives_unit_rms 2 (/ 2) _ [2; 2] H1 H2 H3 H4).
Defined.

End NormFacts.

(* --------------------------------------------------------------------- *)
(** ** Sampling: the noise, and what is sampled after [top_k]             *)
(* --------------------------------------------------------------------- *)

Module SamplingFacts.
Import Helpers Sampling TopKFacts TopKMore.
Local Open Scope R_scope.

Lemma log_eps_bounds : 0 < log_eps /\ log_eps <= / 2.
Proof.
  unfold log_eps.
  assert (H : 2 <= 10 ^ 20) by (simpl; lra).
  split.
  - apply Rinv_0_lt_compat. lra.
  - apply Rinv_le_contravar; lra.
Qed.

Lemma ln_le_mono (x y : R) : 0 < x -> x <= y -> ln x <= ln y.
Proof.
  intros Hx [Hlt| ->]; [|lra]. left. by apply ln_increasing.
Qed.

Lemma ln_below (x : R) : 0 < x -> ln x <= x - 1.
Proof.
  intros Hx. pose proof (exp_ineq1_le (x - 1)) as H.
  replace (1 + (x - 1)) with x in H by lra.
  apply (ln_le_mono x (exp (x - 1)) Hx) in H. by rewrite ln_exp in H.
Qed.

(** X19.  The two clamps of [log] keep the Gumbel noise finite and bounded:
    for a uniform draw in [0, 1] it lies between [-ln(-ln eps)] and
    [-ln eps], with [eps = 1e-20]. *)
Theorem gumbel_noise_is_bounded (noise : R) :
  0 <= noise <= 1 ->
  - ln (- ln log_eps) <= gumbel noise <= - ln log_eps.
Proof.
  intros [H0 H1]. destruct log_eps_bounds as [He He2].
  pose proof (ln_below log_eps He) as Hle.
  unfold gumbel, log.
  set (a := Rmax noise log_eps).
  assert (Ha : log_eps <= a <= 1).
  { unfold a. split; [apply Rmax_r|]. apply Rmax_lub; lra. }
  assert (Hla : ln log_eps <= ln a <= 0).
  { split; [apply ln_le_mono; lra|].
    rewrite <- ln_1. apply ln_le_mono; lra. }
  set (c := Rmax (- ln a) log_eps).
  assert (Hc : log_eps <= c <= - ln log_eps).
  { unfold c. split; [apply Rmax_r|]. apply Rmax_lub; lra. }
  assert (Hlc : ln log_eps <= ln c <= ln (- ln log_eps)).
  { split; apply ln_le_mono; lra. }
  lra.
Qed.

Lemma gumbel_noise_is_bounded_witness :
  0 <= / 2 <= 1
  /\ - ln (- ln log_eps) <= gumbel (/ 2) <= - ln log_eps.
Proof.
  assert (H : 0 <= / 2 <= 1) by lra.
  split; [done|]. exact (gumbel_noise_is_bounded (/ 2) H).
Defined.

Lemma xreal_leb_total (x y : xreal) :
  xreal_leb x y = true \/ xreal_leb y x = true.
Proof.
  destruct x as [|a| |], y as [|b| |]; simpl; auto.
  destruct (Rle_dec a b), (Rle_dec b a); auto. lra.
Qed.

Lemma xreal_leb_trans (x y z : xreal) :
  xreal_leb x y = true -> xreal_leb y z = true -> xreal_leb x z = true.
Proof.
  destruct x as [|a| |], y as [|b| |], z as [|c| |]; simpl; auto;
    try discriminate.
  destruct (Rle_dec a b), (Rle_dec b c), (Rle_dec a c); auto;
    try discriminate. lra.
Qed.

(** [argmax] returns a column that holds a largest entry. *)
Lemma argmax_from_largest (row : list xreal) :
  forall (pre : list xreal) (bi : nat) (bx : xreal),
  pre !! bi = Some bx ->
  (forall i x, pre !! i = Some x -> xreal_leb x bx = true) ->
  exists v,
    (pre ++ row) !! argmax_from (length pre) (bi, bx) row = Some v
    /\ forall i x, (pre ++ row) !! i = Some x -> xreal_leb x v = true.
Proof.
  induction row as [|x row IH]; intros pre bi bx Hb Hmax.
  - simpl. rewrite app_nil_r. eauto.
  - cbn [argmax_from snd].
    replace (pre ++ x :: row) with ((pre ++ [x]) ++ row)
      by (by rewrite <- app_assoc).
    replace (S (length pre)) with (length (pre ++ [x]))
      by (rewrite length_app; simpl; lia).
    destruct (xreal_leb x bx) eqn:E.
    + apply IH.
      * rewrite lookup_app_l; [done|]. by eapply lookup_lt_Some.
      * intros i y Hi. apply lookup_app_Some in Hi as [Hi|[_ Hi]]; [eauto|].
        apply list_lookup_singleton_Some in Hi as [_ <-]. done.
    + assert (Hbx : xreal_leb bx x = true)
        by (destruct (xreal_leb_total x bx); congruence).
      apply IH.
      * rewrite lookup_app_r by lia. by rewrite Nat.sub_diag.
      * intros i y Hi. apply lookup_app_Some in Hi as [Hi|[_ Hi]].
        -- eapply xreal_leb_trans; eauto.
        -- apply list_lookup_singleton_Some in Hi as [_ <-].
           destruct (xreal_leb_total x x); done.
Qed.

Lemma argmax_largest (row : list xreal) :
  row <> [] ->
  exists j v,
    argmax row = Some j /\ row !! j = Some v
    /\ forall i x, row !! i = Some x -> xreal_leb x v = true.
Proof.
  destruct row as [|x row]; [done|]. intros _.
  destruct (argmax_from_largest row [x] 0 x eq_refl) as (v & Hv & Hmax).
  { intros i y Hi. apply list_lookup_singleton_Some in Hi as [_ <-].
    destruct (xreal_leb_total x x); done. }
  exists (argmax_from 1 (0%nat, x) row), v. done.
Qed.

(** The noise is above [-ln(-ln eps)], itself above [-1e20]. *)
Lemma gumbel_lower (noise : R) :
  0 <= noise <= 1 -> - 10 ^ 20 <= gumbel noise.
Proof.
  intros [H0 H1]. destruct log_eps_bounds as [He He2].
  pose proof (ln_below log_eps He) as Hle.
  unfold gumbel, log.
  set (a := Rmax noise log_eps).
  assert (Ha : log_eps <= a <= 1).
  { unfold a. split; [apply Rmax_r|]. apply Rmax_lub; lra. }
  assert (Hla : ln log_eps <= ln a <= 0).
  { split; [apply ln_le_mono; lra|].
    rewrite <- ln_1. apply ln_le_mono; lra. }
  set (c := Rmax (- ln a) log_eps).
  assert (Hc : log_eps <= c <= - ln log_eps).
  { unfold c. split; [apply Rmax_r|]. apply Rmax_lub; lra. }
  assert (Hc0 : 0 < c) by lra.
  pose proof (ln_below c Hc0) as Hlc.
  assert (Hp : 0 < 10 ^ 20) by (simpl; lra).
  assert (Hl : - ln log_eps = ln (10 ^ 20)).
  { unfold log_eps. rewrite ln_Rinv by done. lra. }
  pose proof (ln_below (10 ^ 20) Hp) as Hl2.
  lra.
Qed.

(** With a positive temperature, a column that holds minus infinity is
    not sampled while another column holds a number, as long as no
    number of the row overflows to minus infinity. *)
Lemma gumbel_sample_finite (inf_at : R) (row : list xreal) (temperature : R)
    (noise : nat -> R) :
  0 < temperature ->
  (forall i x, row !! i = Some x ->
     x = NegInfR
     \/ exists r, x = FinR r /\ - inf_at < r / temperature
                  /\ - inf_at < r / temperature + gumbel (noise i)) ->
  (exists i r, row !! i = Some (FinR r)) ->
  exists j r, gumbel_sample inf_at row temperature noise = Some j
              /\ row !! j = Some (FinR r).
Proof.
  intros Ht Hrow (i0 & r0 & Hi0). unfold gumbel_sample.
  set (f := fun (c : nat) (x : xreal) =>
              xadd inf_at (xdiv inf_at x temperature) (gumbel (noise c))).
  destruct (argmax_largest (imap f row)) as (j & v & Hj & Hv & Hmax).
  { intros E. apply (f_equal length) in E. rewrite length_imap in E.
    apply lookup_lt_Some in Hi0. simpl in E. lia. }
  rewrite list_lookup_imap in Hv.
  destruct (row !! j) as [x|] eqn:Hx; [|discriminate].
  injection Hv as <-.
  exists j. destruct (Hrow j x Hx) as [->|(r & -> & _)]; [|eauto].
  exfalso.
  specialize (Hmax i0 (f i0 (FinR r0))).
  rewrite list_lookup_imap, Hi0 in Hmax. specialize (Hmax eq_refl).
  destruct (Hrow i0 _ Hi0) as [?|(r & [= <-] & Hd & Ha)]; [discriminate|].
  unfold f, xdiv, xadd, overflow in Hmax.
  destruct (Req_dec_T temperature 0); [lra|].
  destruct (Rlt_dec temperature 0); [lra|].
  destruct (Rle_dec inf_at (r0 / temperature)); [discriminate|].
  destruct (Rle_dec (r0 / temperature) (- inf_at)); [lra|].
  destruct (Rle_dec inf_at (r0 / temperature + gumbel (noise i0)));
    [discriminate|].
  destruct (Rle_dec (r0 / temperature + gumbel (noise i0)) (- inf_at));
    [lra|discriminate].
Qed.

(** X20.  [top_k] followed by [gumbel_sample], as [generate] chains them: for
    rows of [n] numbers, a threshold whose count [k] is at most [n], a
    positive temperature and logits that do not overflow to minus
    infinity when they are divided by the temperature and the noise is
    added, the column sampled in a row is one of the columns that
    [top_k] kept in it, whichever columns [torch.topk] selects and
    whatever noise is drawn for the row. *)
Theorem sampling_stays_within_top_k
    (select : nat -> list xreal -> list (nat * xreal)) (inf_at : R)
    (n : nat) (logits : list (list R)) (thres : number) (k : Z)
    (temperature : R) (noise : nat -> nat -> R) :
  topk_columns select ->
  top_k_count thres n = Ok k ->
  (k <= Z.of_nat n)%Z ->
  Forall (fun row => length row = n) logits ->
  0 < temperature ->
  (forall b row c r, logits !! b = Some row -> row !! c = Some r ->
     - inf_at < r / temperature
     /\ - inf_at < r / temperature + gumbel (noise b c)) ->
  exists out,
    top_k NegInfR select n (map (map FinR) logits) thres = Ok out
    /\ length out = length logits
    /\ forall b row orow,
         logits !! b = Some row -> out !! b = Some orow ->
         exists j,
           gumbel_sample inf_at orow temperature (noise b) = Some j
           /\ j ∈ kept select (Z.to_nat k) (map FinR row).
Proof.
  intros Hcol Hk Hkn Hrows Ht Hfin.
  pose proof (top_k_count_positive thres n k Hk) as Hk1.
  assert (Hkn' : (Z.to_nat k <= n)%nat) by lia.
  rewrite (top_k_ok NegInfR select n _ thres k Hk Hkn').
  eexists. split; [reflexivity|].
  split; [by rewrite !length_map|].
  intros b row orow Hb Ho.
  assert (Hrow : length row = n).
  { eapply (proj1 (Forall_lookup _ _) Hrows); eauto. }
  rewrite !lookup_map, Hb in Ho. simpl in Ho. injection Ho as <-.
  destruct (Hcol (Z.to_nat k) (map FinR row)) as (Hl & Hnd & Hin).
  { rewrite length_map. lia. }
  unfold kept.
  set (sel := select (Z.to_nat k) (map FinR row)) in *.
  unfold scatter_row. rewrite zip_fst_snd.
  set (orow := fold_left _ sel _).
  assert (Hsel : forall i x, (i, x) ∈ sel ->
            orow !! i = Some x /\ exists r, row !! i = Some r /\ x = FinR r).
  { intros i x Hi. pose proof (Hin i x Hi) as Hx. split.
    - apply scatter_selected; [done|done|].
      rewrite length_replicate. apply lookup_lt_Some in Hx.
      rewrite length_map in Hx. lia.
    - rewrite lookup_map in Hx. destruct (row !! i); [|discriminate].
      injection Hx as <-. eauto. }
  destruct (gumbel_sample_finite inf_at orow temperature (noise b) Ht)
    as (j & r & Hj & Hjr).
  - intros i x Hi. destruct (decide (i ∈ sel.*1)) as [His|His].
    + apply list_elem_of_fmap in His as ([i' x'] & -> & His).
      destruct (Hsel _ _ His) as [Hx' (r & Hr & ->)]. simpl in Hi.
      rewrite Hx' in Hi. injection Hi as <-. right.
      exists r. split; [done|]. by apply (Hfin b row).
    + unfold orow in Hi. rewrite scatter_other in Hi by done.
      apply lookup_replicate in Hi as [-> _]. by left.
  - destruct sel as [|[i x] sel'] eqn:Es; [simpl in Hl; lia|].
    destruct (Hsel i x) as [Hx (r & _ & ->)]; [left|]. eauto.
  - exists j. split; [done|].
    destruct (decide (j ∈ sel.*1)) as [His|His]; [done|].
    exfalso. unfold orow in Hjr. rewrite scatter_other in Hjr by done.
    apply lookup_replicate in Hjr as [? _]. discriminate.
Qed.

Lemma xreal_largest_first_columns :
  topk_columns (largest_first xreal_leb).
Proof. apply largest_first_columns. Qed.

Lemma sampling_stays_within_top_k_witness :
  let select := largest_first xreal_leb in
  let thres := PyFloat (float_lit (1 # 2)) in
  (topk_columns select
   /\ top_k_count thres 2 = Ok 1%Z
   /\ (1 <= Z.of_nat 2)%Z
   /\ Forall (fun row => length row = 2%nat) [[1; 3]]
   /\ 0 < 1
   /\ (forall (b : nat) row (c : nat) r,
         [[1; 3]] !! b = Some row -> row !! c = Some r ->
         - 10 ^ 38 < r / 1 /\ - 10 ^ 38 < r / 1 + gumbel (/ 2)))
  /\ exists out,
       top_k NegInfR select 2 (map (map FinR) [[1; 3]]) thres = Ok out
       /\ length out = length [[1; 3]]
       /\ forall b row orow,
            [[1; 3]] !! b = Some row -> out !! b = Some orow ->
            exists j,
              gumbel_sample (10 ^ 38) orow 1 ((fun _ _ => / 2) b) = Some j
              /\ j ∈ kept select (Z.to_nat 1) (map FinR row).
Proof.
  intros select thres.
  assert (H0 : topk_columns select) by apply xreal_largest_first_columns.
  assert (H1 : top_k_count thres 2 = Ok 1%Z) by (vm_compute; reflexivity).
  assert (H2 : (1 <= Z.of_nat 2)%Z) by lia.
  assert (H4 : Forall (fun row => length row = 2%nat) [[1; 3]])
    by (repeat constructor).
  assert (H5 : 0 < 1) by lra.
  assert (H6 : forall (b : nat) row (c : nat) r,
             [[1; 3]] !! b = Some row -> row !! c = Some r ->
             - 10 ^ 38 < r / 1 /\ - 10 ^ 38 < r / 1 + gumbel (/ 2)).
  { intros b row c r Hb Hc.
    pose proof (gumbel_lower (/ 2) ltac:(lra)) as Hg.
    assert (Hp : 10 ^ 20 + 2 <= 10 ^ 38) by (simpl; lra).
    destruct b as [|b]; [|discriminate]. injection Hb as <-.
    destruct c as [|[|c]]; [| |discriminate]; injection Hc as <-; lra. }
  split; [done|].
  exact (sampling_stays_within_top_k select (10 ^ 38) 2 [[1; 3]] thres 1%Z 1
           (fun _ _ => / 2) H0 H1 H2 H4 H5 H6).
Defined.

End SamplingFacts.

(* --------------------------------------------------------------------- *)
(** ** The loss and the padded positions                                  *)
(* --------------------------------------------------------------------- *)

Module PaddedLossFacts.
Import Values LossFacts.

(** The labelled pairs of one row that the loss uses depend on the
    predictions of the used positions only. *)
Lemma used_pairs_agree {P : Type} (ign : Z) (l : list Z) :
  forall p1 p2 : list P,
  length p1 = length p2 ->
  (forall j x, l !! j = Some x -> x <> ign -> p1 !! j = p2 !! j) ->
  filter (fun p : P * Z => snd p <> ign) (zip p1 l)
  = filter (fun p : P * Z => snd p <> ign) (zip p2 l).
Proof.
  induction l as [|x l IH]; intros [|a p1] [|b p2] Hlen Hag;
    try discriminate; try done.
  simpl in Hlen. injection Hlen as Hlen. cbn [zip zip_with].
  rewrite !filter_cons. cbn [snd].
  assert (Hrest : filter (fun p : P * Z => snd p <> ign) (zip p1 l)
                  = filter (fun p : P * Z => snd p <> ign) (zip p2 l)).
  { apply IH; [done|]. intros j y Hj Hy. apply (Hag (S j) y Hj Hy). }
  destruct (decide (x <> ign)) as [Hx|Hx]; [|done].
  pose proof (Hag 0%nat x eq_refl Hx) as H0. simpl in H0.
  injection H0 as <-. by rewrite Hrest.
Qed.

(** X21.  The loss of [forward] does not look at the positions whose label is
    [pad_id] (the positions that padding added, and any token equal to
    [pad_id]): two logit tensors of the same sizes that agree on every
    position with another label give the same loss. *)
Theorem loss_ignores_pad_positions (classes : nat)
    (logits logits' : list (list (list R))) (labels : list (list Z))
    (pad_id : Z) :
  length logits = length logits' ->
  (forall b prow prow', logits !! b = Some prow ->
     logits' !! b = Some prow' -> length prow = length prow') ->
  (forall b j prow prow' lrow l,
     logits !! b = Some prow -> logits' !! b = Some prow' ->
     labels !! b = Some lrow -> lrow !! j = Some l -> l <> pad_id ->
     but_last prow !! j = but_last prow' !! j) ->
  forward_loss classes logits labels pad_id
  = forward_loss classes logits' labels pad_id.
Proof.
  intros Hlen Hrows Hag. unfold forward_loss, cross_entropy.
  assert (Hused :
    filter (fun p : list R * Z => snd p <> pad_id)
           (mjoin (zip_with zip (map but_last logits) labels))
    = filter (fun p : list R * Z => snd p <> pad_id)
             (mjoin (zip_with zip (map but_last logits') labels))).
  { rewrite !filter_join. f_equal.
    apply list_eq. intros b. rewrite !lookup_map, !lookup_zip_with.
    rewrite !lookup_map.
    destruct (logits !! b) as [prow|] eqn:Hp;
      destruct (logits' !! b) as [prow'|] eqn:Hp'.
    - simpl. destruct (labels !! b) as [lrow|] eqn:Hl; [|done]. simpl.
      f_equal. apply used_pairs_agree.
      + unfold but_last. rewrite !length_take.
        by rewrite (Hrows b prow prow' Hp Hp').
      + intros j x Hj Hx. eapply Hag; eauto.
    - apply lookup_lt_Some in Hp. apply lookup_ge_None in Hp'. lia.
    - apply lookup_ge_None in Hp. apply lookup_lt_Some in Hp'. lia.
    - done. }
  by rewrite Hused.
Qed.

Lemma loss_ignores_pad_positions_witness :
  let logits := [[[1; 2]; [3; 4]; [0; 0]]]%R in
  let logits' := [[[1; 2]; [7; 9]; [5; 5]]]%R in
  let labels := [[1; 15]]%Z in
  (length logits = length logits'
   /\ (forall b prow prow', logits !! b = Some prow ->
         logits' !! b = Some prow' -> length prow = length prow')
   /\ (forall b j prow prow' lrow l,
         logits !! b = Some prow -> logits' !! b = Some prow' ->
         labels !! b = Some lrow -> lrow !! j = Some l -> l <> 15%Z ->
         but_last prow !! j = but_last prow' !! j))
  /\ forward_loss 2 logits labels 15 = forward_loss 2 logits' labels 15.
Proof.
  intros logits logits' labels.
  assert (H1 : length logits = length logits') by reflexivity.
  assert (H2 : forall b prow prow', logits !! b = Some prow ->
                 logits' !! b = Some prow' -> length prow = length prow').
  { intros [|b] prow prow' Hp Hp'; [|discriminate].
    injection Hp as <-. injection Hp' as <-. reflexivity. }
  assert (H3 : forall b j prow prow' lrow l,
                 logits !! b = Some prow -> logits' !! b = Some prow' ->
                 labels !! b = Some lrow -> lrow !! j = Some l ->
                 l <> 15%Z ->
                 but_last prow !! j = but_last prow' !! j).
  { intros [|b] j prow prow' lrow l Hp Hp' Hl Hj Hne; [|discriminate].
    injection Hp as <-. injection Hp' as <-. injection Hl as <-.
    destruct j as [|[|j]]; [reflexivity| |discriminate].
    injection Hj as <-. done. }
  split; [done|].
  exact (loss_ignores_pad_positions 2 logits logits' labels 15 H1 H2 H3).
Defined.

End PaddedLossFacts.

(* --------------------------------------------------------------------- *)
(** ** The transformer blocks                                             *)
(* --------------------------------------------------------------------- *)

Module BlockFacts.
Import Helpers Shapes ShapeOps TokenShiftFacts.

(** X22.  [Transformer.forward] keeps the shape [(B, n, dim)] of its input,
    for at least one position, a dimension of at least 2, at least one
    head of at least one entry and, with rotary positions, an even head
    size; the reading of
    a stage's transformer used for [forward] gives the same. *)
Theorem transformer_forward_keeps_shape (t : Block) (B n : nat) :
  1 <= n -> 2 <= bl_dim t -> 1 <= bl_heads t -> 1 <= bl_dim_head t ->
  (bl_rel_pos t = true -> exists e, bl_dim_head t = 2 * e) ->
  transformer_forward t [B; n; bl_dim t] = Ok [B; n; bl_dim t]
  /\ transformer (Tr (bl_dim t) (bl_layers t) (bl_dim_head t) (bl_heads t)
                     (bl_ff_mult t) (bl_rel_pos t)) [B; n; bl_dim t]
     = transformer_forward t [B; n; bl_dim t].
Proof.
  intros Hn Hdim Hheads _ Hrot.
  split; [by apply transformer_forward_3|].
  unfold transformer. cbn [tr_dim tr_layers tr_dim_head tr_heads tr_ff_mult
                           tr_rel_pos].
  by destruct t.
Qed.

Lemma transformer_forward_keeps_shape_witness :
  let t := stage_block config2 8 2 in
  (1 <= 3 /\ 2 <= bl_dim t /\ 1 <= bl_heads t /\ 1 <= bl_dim_head t
   /\ (bl_rel_pos t = true -> exists e, bl_dim_head t = 2 * e))
  /\ transformer_forward t [2; 3; bl_dim t] = Ok [2; 3; bl_dim t]
  /\ transformer (Tr (bl_dim t) (bl_layers t) (bl_dim_head t) (bl_heads t)
                     (bl_ff_mult t) (bl_rel_pos t)) [2; 3; bl_dim t]
     = transformer_forward t [2; 3; bl_dim t].
Proof.
  intros t.
  assert (H1 : 1 <= 3) by lia.
  assert (H2 : 2 <= bl_dim t) by (simpl; lia).
  assert (H3 : 1 <= bl_heads t) by (simpl; lia).
  assert (H4 : 1 <= bl_dim_head t) by (simpl; lia).
  assert (H5 : bl_rel_pos t = true -> exists e, bl_dim_head t = 2 * e)
    by (intros _; by exists 2).
  split; [done|].
  exact (transformer_forward_keeps_shape t 2 3 H1 H2 H3 H4 H5).
Defined.

(** X23.  With rotary positions ([rel_pos]) and an odd head size the first
    layer of [Transformer.forward] raises: the rotary table is one
    column wider than the heads ([RuntimeError]; for a head size of 1
    the product broadcasts and [rotate_half] has a single piece to
    unpack, [ValueError]). *)
Theorem transformer_rejects_odd_rotary_head (t : Block) (B n e : nat) :
  1 <= n -> 2 <= bl_dim t -> 1 <= bl_heads t -> 1 <= bl_layers t ->
  bl_rel_pos t = true ->
  bl_dim_head t = 2 * e + 1 ->
  transformer_forward t [B; n; bl_dim t]
  = Raise (if e =? 0 then ValueError else RuntimeError).
Proof.
  intros Hn Hdim Hheads Hl Hrel He.
  unfold transformer_forward.
  pose proof (unsnoc2_app [B] n (bl_dim t)) as Hu. cbn [app] in Hu.
  rewrite Hu. cbn [mbind result_bind]. rewrite Hrel.
  destruct (bl_layers t) as [|count]; [lia|]. cbn [layers].
  unfold layer at 1. rewrite token_shift_shape_3 by done.
  cbn [mbind result_bind].
  rewrite attention_heads by done. cbn [at_dim at_dim_head at_heads].
  unfold rotary_table. rewrite He, rotary_width_odd.
  assert (Hrot : apply_rotary_pos_emb [n; 2 * e + 2]
                   [B; bl_heads t; n; 2 * e + 1]
                 = Raise (if e =? 0 then ValueError else RuntimeError)).
  { unfold apply_rotary_pos_emb, broadcast.
    cbn [reverse rev_append broadcast_rev mbind result_bind].
    rewrite Nat.eqb_refl. cbn [mbind result_bind].
    replace (2 * e + 1 =? 2 * e + 2) with false
      by (symmetry; apply Nat.eqb_neq; lia).
    destruct e as [|e].
    - cbn [Nat.mul Nat.add Nat.eqb mbind result_bind reverse rev_append].
      unfold rotate_half, chunk2.
      pose proof (unsnoc_app [B; bl_heads t; n] 1) as Hs. cbn [app] in Hs.
      rewrite Hs, chunk_sizes_one. reflexivity.
    - replace (2 * S e + 1 =? 1) with false
        by (symmetry; apply Nat.eqb_neq; lia).
      replace (2 * S e + 2 =? 1) with false
        by (symmetry; apply Nat.eqb_neq; lia).
      reflexivity. }
  rewrite Hrot. reflexivity.
Qed.

Lemma transformer_rejects_odd_rotary_head_witness :
  let t := Blk 8 2 3 2 4 true in
  (1 <= 3 /\ 2 <= bl_dim t /\ 1 <= bl_heads t /\ 1 <= bl_layers t
   /\ bl_rel_pos t = true /\ bl_dim_head t = 2 * 1 + 1)
  /\ transformer_forward t [2; 3; bl_dim t]
     = Raise (if 1 =? 0 then ValueError else RuntimeError).
Proof.
  intros t.
  assert (H1 : 1 <= 3) by lia.
  assert (H2 : 2 <= bl_dim t) by (simpl; lia).
  assert (H3 : 1 <= bl_heads t) by (simpl; lia).
  assert (H4 : 1 <= bl_layers t) by (simpl; lia).
  split; [done|].
  exact (transformer_rejects_odd_rotary_head t 2 3 1 H1 H2 H3 H4 eq_refl
           eq_refl).
Defined.

End BlockFacts.

(* --------------------------------------------------------------------- *)
(** ** A stage of length zero                                             *)
(* --------------------------------------------------------------------- *)

Module EdgeFacts.
Import Helpers Shapes ShapeOps.

(** X24.  When one of the later entries of [max_seq_len] is zero, a flat
    input with tokens, of two rows or more or of at most three columns,
    makes [forward] raise [ZeroDivisionError]: [remainder_to_mult] takes
    the sequence length modulo the product of those entries.  (For a
    single row of four columns or more the opening assignment raises
    before.) *)
Theorem forward_rejects_zero_stage_length (m : MegaByte) (b L Lt : nat)
    (return_loss : bool) :
  1 <= b -> 1 <= L -> 1 <= Lt ->
  2 <= b \/ L <= 3 ->
  reduce_mult (tail (mb_max_seq_len m)) = 0 ->
  forward m [b; L] [b; Lt] return_loss = Raise ZeroDivisionError.
Proof.
  intros Hb HL HLt Hfree Hz. unfold forward.
  assert (Hids : forward_ids [b; L] [b; Lt] = Ok [b; L]).
  { rewrite forward_ids_flat, bool_decide_eq_false_2 by lia.
    do 3 f_equal. lia. }
  rewrite Hids. cbn [mbind result_bind].
  rewrite !bool_decide_true by (first [done | left; done]).
  cbn [assert mbind result_bind].
  destruct (numel [b; L] =? 0) eqn:E.
  { apply Nat.eqb_eq in E. simpl in E. nia. }
  unfold pad_and_nest, remainder_to_mult. rewrite Hz. reflexivity.
Qed.

Lemma forward_rejects_zero_stage_length_witness :
  let m := Model 2 [3; 0] [8; 4] None
             [TokFine (Emb 16 4); TokPatch (Emb 16 4) 0 8]
             [Tr 8 2 4 2 4 false; Tr 4 1 4 2 4 false]
             [Project 8 4 0; Identity] (4, 16) 15 in
  (1 <= 2 /\ 1 <= 5 /\ 1 <= 5 /\ (2 <= 2 \/ 5 <= 3)
   /\ reduce_mult (tail (mb_max_seq_len m)) = 0)
  /\ forward m [2; 5] [2; 5] true = Raise ZeroDivisionError.
Proof.
  intros m.
  assert (H1 : 1 <= 2) by lia.
  assert (H2 : 1 <= 5) by lia.
  assert (Hf : 2 <= 2 \/ 5 <= 3) by (left; lia).
  split; [done|].
  exact (forward_rejects_zero_stage_length m 2 5 5 true H1 H2 H2 Hf eq_refl).
Defined.

End EdgeFacts.
